(** * Uber-Clone: the map generator, the grid router, the renderer and the camera

    A shallow embedding of [src/main.js].  A JavaScript number is an IEEE 754
    binary64 value, so numbers are Rocq's primitive [float]s: [+], [-], [*],
    [/], [Math.abs], [<] and [>] are the primitive operations, which the
    kernel evaluates and [FloatAxioms] specifies through [SpecFloat]. *)

From Stdlib Require Import String.
From Stdlib Require Import ZArith List Bool Lia Floats.
Import ListNotations.

Set Warnings "-inexact-float".

#[local] Open Scope float_scope.

(** ** Numbers *)

Module Num.

(** [a > b] of JavaScript: false as soon as one side is NaN. *)
Definition gtb (a b : float) : bool := b <? a.

(** [i % 3 === 0] on an array index. *)
Definition third (i : nat) : bool := Nat.eqb (Nat.modulo i 3) 0.

(** [Math.min(a, b)]: NaN when an argument is NaN, and [-0] below [+0]. *)
Definition js_min (a b : float) : float :=
  if is_nan a || is_nan b then nan
  else if a <? b then a
  else if b <? a then b
  else if get_sign a then a else b.

(** [Math.max(a, b)]: NaN when an argument is NaN, and [+0] above [-0]. *)
Definition js_max (a b : float) : float :=
  if is_nan a || is_nan b then nan
  else if a <? b then b
  else if b <? a then a
  else if get_sign a then b else a.

(** [x % y] on numbers: the remainder of the truncated division, computed
    exactly, with the sign of the dividend. *)
Definition js_rem (x y : float) : float :=
  match Prim2SF x, Prim2SF y with
  | S754_nan, _ | _, S754_nan => nan
  | S754_infinity _, _ => nan
  | _, S754_zero _ => nan
  | _, S754_infinity _ => x
  | S754_zero _, _ => x
  | S754_finite sx mx ex, S754_finite _ my ey =>
      let e := Z.min ex ey in
      let X := (Zpos mx * 2 ^ (ex - e))%Z in
      let Y := (Zpos my * 2 ^ (ey - e))%Z in
      let r := Z.rem X Y in
      if (r =? 0)%Z then (if sx then neg_zero else zero)
      else SF2Prim (binary_normalize prec emax (if sx then (- r)%Z else r) e false)
  end.

(** An integer literal as a number (exact below 2^53). *)
Definition of_Z (z : Z) : float :=
  match z with
  | Z0 => zero
  | Zpos _ => of_uint63 (Uint63.of_Z z)
  | Zneg _ => - of_uint63 (Uint63.of_Z (- z))
  end.

End Num.

(** ** Geometry *)

Module Point.
Record t : Type := mk { x : float; y : float }.
End Point.

Module Road.
Record t : Type := mk { points : list Point.t; width : float; main : bool }.
End Road.

Module Grid.
Record t : Type := mk { roads : list Road.t; hYs : list float; vXs : list float }.
End Grid.

(** The three numbers of an [hsl(h, s%, l%)] colour; the template string that
    prints them is a function of these three. *)
Module Building.
Record hsl : Type := mkHsl { hue : float; sat : float; light : float }.
Record t : Type :=
  mk { x : float; y : float; w : float; h : float; color : hsl; lit : bool }.
End Building.

(** [arr.forEach((v, i) => out.push(f(v, i)))]. *)
Fixpoint mapi_from {A B : Type} (f : A -> nat -> B) (i : nat) (l : list A) : list B :=
  match l with
  | [] => []
  | a :: l' => f a i :: mapi_from f (S i) l'
  end.

Definition mapi {A B : Type} (f : A -> nat -> B) (l : list A) : list B :=
  mapi_from f 0 l.

(** ** The map generator *)

Module MapGenerator.

Definition hYs : list float :=
  [0.06; 0.14; 0.22; 0.30; 0.38; 0.46; 0.54; 0.62; 0.70; 0.78; 0.86; 0.94].

Definition vXs : list float := [0.08; 0.20; 0.32; 0.44; 0.56; 0.68; 0.80; 0.92].

Definition hRoad (mapW mapH frac : float) (i : nat) : Road.t :=
  let y := mapH * frac in
  let isMain := Num.third i in
  Road.mk [Point.mk (-50) y; Point.mk (mapW + 50) y] (if isMain then 8 else 3) isMain.

Definition vRoad (mapW mapH frac : float) (i : nat) : Road.t :=
  let x := mapW * frac in
  let isMain := Num.third i in
  Road.mk [Point.mk x (-50); Point.mk x (mapH + 50)] (if isMain then 7 else 2.5) isMain.

Definition angled1 (mapW mapH : float) : Road.t :=
  Road.mk [Point.mk (mapW * 0.08) (mapH * 0.08); Point.mk (mapW * 0.55) (mapH * 0.42)]
          4 false.

Definition angled2 (mapW mapH : float) : Road.t :=
  Road.mk [Point.mk (mapW * 0.65) (mapH * 0.15); Point.mk (mapW * 0.88) (mapH * 0.65)]
          3.5 false.

Definition createFixedRoadGrid (mapW mapH : float) : Grid.t :=
  let roads := [] in
  let roads := roads ++ mapi (hRoad mapW mapH) hYs in
  let roads := roads ++ mapi (vRoad mapW mapH) vXs in
  let roads := roads ++ [angled1 mapW mapH] in
  let roads := roads ++ [angled2 mapW mapH] in
  Grid.mk roads hYs vXs.

(** The closure [rng] over the local [s]: the new state and the draw. *)
Definition next (s : float) : float := Num.js_rem (s * 16807) 2147483647.

Definition rng (s : float) : float * float :=
  let s := next s in ((s - 1) / 2147483646, s).

(** One iteration of the loop of [createFixedBuildings]: the fields are
    evaluated in the order they are written. *)
Definition building (mapW mapH s : float) : Building.t * float :=
  let '(r, s) := rng s in let x := r * (mapW + 80) - 40 in
  let '(r, s) := rng s in let y := r * (mapH + 80) - 40 in
  let '(r, s) := rng s in let w := 12 + r * 50 in
  let '(r, s) := rng s in let h := 12 + r * 40 in
  let '(r, s) := rng s in let hue := 215 + r * 25 in
  let '(r, s) := rng s in let sat := 12 + r * 12 in
  let '(r, s) := rng s in let light := 10 + r * 10 in
  let '(r, s) := rng s in let lit := Num.gtb r 0.65 in
  (Building.mk x y w h (Building.mkHsl hue sat light) lit, s).

Fixpoint buildings_loop (n : nat) (mapW mapH s : float) : list Building.t :=
  match n with
  | O => []
  | S n' => let '(b, s') := building mapW mapH s in b :: buildings_loop n' mapW mapH s'
  end.

Definition createFixedBuildings (mapW mapH seed : float) : list Building.t :=
  buildings_loop 110 mapW mapH seed.

End MapGenerator.

(** ** The router *)

Module Router.

(** One step of the [forEach] in [nearestVX] and [nearestHY]: the candidate
    [f * scale] replaces [best] when it is strictly nearer to [target]. *)
Definition nearer (scale target best f : float) : float :=
  if abs (f * scale - target) <? abs (best - target) then f * scale else best.

(** [nearestVX] is [nearest vXs mapW] and [nearestHY] is [nearest hYs mapH]:
    [best] starts at [fracs[0] * scale], which is NaN on an empty array
    ([undefined * scale]). *)
Definition nearest (fracs : list float) (scale target : float) : float :=
  fold_left (nearer scale target) fracs (nth 0 fracs nan * scale).

Definition buildGridRoute (sx sy ex ey : float) (hYs vXs : list float)
    (mapW mapH : float) : list Point.t :=
  let route := [Point.mk sx sy] in
  let nearestVX := nearest vXs mapW in
  let nearestHY := nearest hYs mapH in
  let vRoad1 := nearestVX sx in
  let route :=
    if Num.gtb (abs (vRoad1 - sx)) 3 then route ++ [Point.mk vRoad1 sy] else route in
  let hMid := nearestHY ((sy + ey) * 0.45) in
  let route := route ++ [Point.mk vRoad1 hMid] in
  let vRoad2 := nearestVX ex in
  let route := route ++ [Point.mk vRoad2 hMid] in
  let hEnd := nearestHY ey in
  let route :=
    if Num.gtb (abs (hEnd - hMid)) 20 then
      let route := route ++ [Point.mk vRoad2 hEnd] in
      if Num.gtb (abs (vRoad2 - ex)) 3 then route ++ [Point.mk ex hEnd] else route
    else route in
  route ++ [Point.mk ex ey].

End Router.

(** ** The 2D canvas

    The drawing surface as the program sees it: the context's drawing state,
    the current path, and the list of paint operations the bitmap has
    received, each with the attributes the canvas reads when it paints.  The
    pixels are the browser's rendering of that list. *)

Module Canvas.

Inductive style : Type :=
| Css (s : string)
| Hsl (c : Building.hsl).

Inductive cap : Type := Butt | RoundCap | Square.
Inductive join : Type := Miter | RoundJoin | Bevel.

Inductive seg : Type :=
| MoveTo (x y : float)
| LineTo (x y : float)
| Arc (x y r a0 a1 : float)
| Ellipse (x y rx ry rot a0 a1 : float).

(** What a stroke reads from the context. *)
Record pen : Type :=
  mkPen { p_style : style; p_width : float; p_cap : cap; p_join : join;
          p_dash : list float }.

Inductive paint : Type :=
| ClearRect (sc : float * float) (x y w h : float)
| FillRect (sc : float * float) (f : style) (x y w h : float)
| StrokeRect (sc : float * float) (p : pen) (x y w h : float)
| Fill (sc : float * float) (f : style) (path : list seg)
| Stroke (sc : float * float) (p : pen) (path : list seg)
| FillText (sc : float * float) (font : string) (f : style) (text : string)
    (x y : float).

Record t : Type :=
  mk { width : Z; height : Z;
       scale : float * float;
       fillStyle : style; strokeStyle : style;
       lineWidth : float; lineCap : cap; lineJoin : join; lineDash : list float;
       font : string;
       path : list seg;
       painted : list paint }.

(** A canvas of the given bitmap size with its context in the initial state. *)
Definition fresh (w h : Z) : t :=
  mk w h (1, 1) (Css "#000000") (Css "#000000") 1 Butt Miter [] "10px sans-serif"
     [] [].

(** [canvas.width = v]: an [unsigned long] limited to non-negative numbers.
    The number is truncated and taken modulo 2^32; a value above 2^31 - 1 is
    replaced by the default of the attribute, 300 for the width and 150 for
    the height.  The assignment clears the bitmap and resets the context. *)
Definition trunc (v : float) : Z :=
  match Prim2SF v with
  | S754_finite sg m e =>
      let a := if (0 <=? e)%Z then (Zpos m * 2 ^ e)%Z else (Zpos m / 2 ^ (- e))%Z in
      if sg then (- a)%Z else a
  | _ => 0%Z
  end.

Definition to_uint32 (v : float) : Z := (trunc v mod 2 ^ 32)%Z.

Definition dimension (default : Z) (v : float) : Z :=
  let n := to_uint32 v in
  if (n <=? 2147483647)%Z then n else default.

Definition set_width (v : float) (c : t) : t := fresh (dimension 300 v) (height c).
Definition set_height (v : float) (c : t) : t := fresh (width c) (dimension 150 v).

(** The drawing commands are state transformers that may fail: [None]
    stands for a call that does not return (a [TypeError], or a loop that
    outruns its fuel). *)
Definition M (A : Type) : Type := t -> option (A * t).

Definition ret {A : Type} (a : A) : M A := fun c => Some (a, c).
Definition fail {A : Type} : M A := fun _ => None.
Definition bind {A B : Type} (m : M A) (k : A -> M B) : M B :=
  fun c => match m c with Some (a, c') => k a c' | None => None end.
Definition modify (f : t -> t) : M unit := fun c => Some (tt, f c).

End Canvas.

Declare Scope canvas_scope.
Delimit Scope canvas_scope with canvas.
Notation "m ;; k" := (Canvas.bind m (fun _ => k))
  (at level 61, right associativity) : canvas_scope.
Notation "x <- m ;; k" := (Canvas.bind m (fun x => k))
  (at level 61, m at next level, right associativity) : canvas_scope.

Module Ctx.
Import Canvas.
#[local] Open Scope canvas_scope.

(** The canvas ignores a call when one of its numbers is infinite or NaN,
    and the assignment of a value that is not valid for the attribute. *)
Definition all_finite (l : list float) : bool := forallb is_finite l.

Definition guarded (args : list float) (m : M unit) : M unit :=
  if all_finite args then m else ret tt.

(** The colour strings the program writes are valid CSS colours; an [hsl]
    colour is valid when its three numbers print as numbers. *)
Definition valid_style (v : style) : bool :=
  match v with
  | Css _ => true
  | Hsl c => all_finite [Building.hue c; Building.sat c; Building.light c]
  end.

Definition valid_width (v : float) : bool := is_finite v && (zero <? v).

Definition valid_dash (v : list float) : bool :=
  forallb (fun d => is_finite d && (zero <=? d)) v.

Definition set_fillStyle (v : style) : M unit :=
  if valid_style v then
    modify (fun c => mk (width c) (height c) (scale c) v (strokeStyle c) (lineWidth c)
                        (lineCap c) (lineJoin c) (lineDash c) (font c) (path c)
                        (painted c))
  else ret tt.
Definition set_strokeStyle (v : style) : M unit :=
  if valid_style v then
    modify (fun c => mk (width c) (height c) (scale c) (fillStyle c) v (lineWidth c)
                        (lineCap c) (lineJoin c) (lineDash c) (font c) (path c)
                        (painted c))
  else ret tt.
Definition set_lineWidth (v : float) : M unit :=
  if valid_width v then
    modify (fun c => mk (width c) (height c) (scale c) (fillStyle c) (strokeStyle c) v
                        (lineCap c) (lineJoin c) (lineDash c) (font c) (path c)
                        (painted c))
  else ret tt.
Definition set_lineCap (v : cap) : M unit :=
  modify (fun c => mk (width c) (height c) (scale c) (fillStyle c) (strokeStyle c)
                      (lineWidth c) v (lineJoin c) (lineDash c) (font c) (path c)
                      (painted c)).
Definition set_lineJoin (v : join) : M unit :=
  modify (fun c => mk (width c) (height c) (scale c) (fillStyle c) (strokeStyle c)
                      (lineWidth c) (lineCap c) v (lineDash c) (font c) (path c)
                      (painted c)).
(** A list of odd length is doubled. *)
Definition setLineDash (v : list float) : M unit :=
  if valid_dash v then
    modify (fun c => mk (width c) (height c) (scale c) (fillStyle c) (strokeStyle c)
                        (lineWidth c) (lineCap c) (lineJoin c)
                        (if Nat.odd (length v) then v ++ v else v)
                        (font c) (path c) (painted c))
  else ret tt.
(** The one font string of the program is a valid font. *)
Definition set_font (v : string) : M unit :=
  modify (fun c => mk (width c) (height c) (scale c) (fillStyle c) (strokeStyle c)
                      (lineWidth c) (lineCap c) (lineJoin c) (lineDash c) v (path c)
                      (painted c)).
Definition set_path (v : list seg) : M unit :=
  modify (fun c => mk (width c) (height c) (scale c) (fillStyle c) (strokeStyle c)
                      (lineWidth c) (lineCap c) (lineJoin c) (lineDash c) (font c) v
                      (painted c)).
Definition set_painted (v : list paint) (c : t) : t :=
  mk (width c) (height c) (scale c) (fillStyle c) (strokeStyle c)
     (lineWidth c) (lineCap c) (lineJoin c) (lineDash c) (font c) (path c) v.
Definition put (pt : paint) : M unit :=
  modify (fun c => set_painted (painted c ++ [pt]) c).

(** [ctx.scale(a, b)] on a transform that is a scaling. *)
Definition scale (a b : float) : M unit :=
  guarded [a; b]
    (modify (fun c => mk (width c) (height c)
                         (fst (Canvas.scale c) * a, snd (Canvas.scale c) * b)
                         (fillStyle c) (strokeStyle c) (lineWidth c) (lineCap c)
                         (lineJoin c) (lineDash c) (font c) (path c) (painted c))).

Definition the_pen (c : t) : pen :=
  mkPen (strokeStyle c) (lineWidth c) (lineCap c) (lineJoin c) (lineDash c).

(** Does the rectangle, under a scaling by positive factors, cover the
    bitmap? *)
Definition covers (c : t) (x y w h : float) : bool :=
  let '(sx, sy) := Canvas.scale c in
  (zero <? sx) && (zero <? sy)
  && (x * sx <=? zero) && (y * sy <=? zero)
  && (Num.of_Z (width c) <=? (x + w) * sx)
  && (Num.of_Z (height c) <=? (y + h) * sy).

(** [clearRect] erases: when the rectangle covers the bitmap nothing painted
    before remains. *)
Definition clearRect (x y w h : float) : M unit :=
  guarded [x; y; w; h]
    (fun c =>
       if covers c x y w h then Some (tt, set_painted [] c)
       else put (ClearRect (Canvas.scale c) x y w h) c).

Definition fillRect (x y w h : float) : M unit :=
  guarded [x; y; w; h]
    (fun c => put (FillRect (Canvas.scale c) (fillStyle c) x y w h) c).
Definition strokeRect (x y w h : float) : M unit :=
  guarded [x; y; w; h]
    (fun c => put (StrokeRect (Canvas.scale c) (the_pen c) x y w h) c).
Definition beginPath : M unit := set_path [].
Definition add_seg (sg : seg) : M unit := fun c => set_path (path c ++ [sg]) c.
Definition moveTo (x y : float) : M unit := guarded [x; y] (add_seg (MoveTo x y)).
Definition lineTo (x y : float) : M unit := guarded [x; y] (add_seg (LineTo x y)).
(** A negative radius throws an [IndexSizeError]. *)
Definition arc (x y r a0 a1 : float) : M unit :=
  guarded [x; y; r; a0; a1]
    (if r <? zero then fail else add_seg (Arc x y r a0 a1)).
Definition ellipse (x y rx ry rot a0 a1 : float) : M unit :=
  guarded [x; y; rx; ry; rot; a0; a1]
    (if (rx <? zero) || (ry <? zero) then fail
     else add_seg (Ellipse x y rx ry rot a0 a1)).
Definition fill : M unit :=
  fun c => put (Fill (Canvas.scale c) (fillStyle c) (path c)) c.
Definition stroke : M unit :=
  fun c => put (Stroke (Canvas.scale c) (the_pen c) (path c)) c.
Definition fillText (text : string) (x y : float) : M unit :=
  guarded [x; y]
    (fun c => put (FillText (Canvas.scale c) (font c) (fillStyle c) text x y) c).

(** [arr.forEach(f)]. *)
Fixpoint forEach {A : Type} (l : list A) (f : A -> M unit) : M unit :=
  match l with
  | [] => ret tt
  | a :: l' => f a ;; forEach l' f
  end.

(** [for (let v = v0; v < limit; v += step) body(v)]; the fuel bounds the
    number of iterations. *)
Fixpoint for_lt (fuel : nat) (v limit step : float) (body : float -> M unit)
    : M unit :=
  if v <? limit then
    match fuel with
    | O => fail
    | S fuel' => body v ;; for_lt fuel' (v + step) limit step body
    end
  else ret tt.

Definition when (b : bool) (m : M unit) : M unit := if b then m else ret tt.

Definition whenSome {A : Type} (o : option A) (f : A -> M unit) : M unit :=
  match o with Some a => f a | None => ret tt end.

End Ctx.

(** ** The renderer *)

Module Renderer.
Import Canvas Ctx.
#[local] Open Scope canvas_scope.

Record park : Type := mkPark { park_x : float; park_y : float; park_r : float }.
Record label : Type := mkLabel { text : string; label_x : float; label_y : float }.

(** The [options] bag; an absent field is [None] ([false] for the flag). *)
Record options : Type :=
  mkOptions { showWater : bool;
              parks : option (list park);
              route : option (list Point.t);
              dropPin : option Point.t;
              pickupPin : option Point.t;
              labels : option (list label) }.

Definition no_options : options := mkOptions false None None None None None.

(** [Math.PI * 2]. *)
Definition TWO_PI : float := 3.141592653589793 * 2.

(** [moveTo(pts[0]); for (i = 1; i < pts.length; i++) lineTo(pts[i])]:
    reading [pts[0].x] of an empty array throws. *)
Definition polyline (pts : list Point.t) : M unit :=
  match pts with
  | [] => fail
  | p :: rest =>
      moveTo (Point.x p) (Point.y p) ;;
      forEach rest (fun q => lineTo (Point.x q) (Point.y q))
  end.

Definition drawBuilding (fuel : nat) (b : Building.t) : M unit :=
  let '(Building.mk x y w h color lit) := b in
  set_fillStyle (Hsl color) ;;
  fillRect x y w h ;;
  set_strokeStyle (Css "rgba(30, 40, 55, 0.5)") ;;
  set_lineWidth 0.5 ;;
  strokeRect x y w h ;;
  when (lit && Num.gtb w 22 && Num.gtb h 18)
    (set_fillStyle (Css "rgba(255, 200, 80, 0.15)") ;;
     for_lt fuel (x + 3) (x + w - 3) 7 (fun wx =>
       for_lt fuel (y + 3) (y + h - 3) 6 (fun wy =>
         fillRect wx wy 3 2.5))).

Definition drawPark (p : park) : M unit :=
  beginPath ;;
  arc (park_x p) (park_y p) (park_r p) 0 TWO_PI ;;
  set_fillStyle (Css "rgba(15, 55, 25, 0.4)") ;;
  fill.

Definition drawRoad (r : Road.t) : M unit :=
  beginPath ;;
  polyline (Road.points r) ;;
  set_strokeStyle (Css (if Road.main r then "rgba(55, 65, 85, 0.95)"
                        else "rgba(35, 45, 60, 0.7)")) ;;
  set_lineWidth (Road.width r) ;;
  set_lineCap RoundCap ;;
  set_lineJoin RoundJoin ;;
  stroke ;;
  when (Road.main r)
    (setLineDash [6; 10] ;;
     beginPath ;;
     polyline (Road.points r) ;;
     set_strokeStyle (Css "rgba(90, 100, 120, 0.4)") ;;
     set_lineWidth 1 ;;
     stroke ;;
     setLineDash []).

Definition drawRoute (rp : list Point.t) : M unit :=
  beginPath ;;
  polyline rp ;;
  set_strokeStyle (Css "rgba(59, 130, 246, 0.12)") ;;
  set_lineWidth 22 ;;
  set_lineCap RoundCap ;;
  set_lineJoin RoundJoin ;;
  stroke ;;
  set_strokeStyle (Css "#3b82f6") ;;
  set_lineWidth 6 ;;
  stroke.

Definition drawPin (colour : string) (outer inner : float) (p : Point.t) : M unit :=
  beginPath ;;
  arc (Point.x p) (Point.y p) outer 0 TWO_PI ;;
  set_fillStyle (Css colour) ;;
  fill ;;
  set_strokeStyle (Css "#fff") ;;
  set_lineWidth 3 ;;
  stroke ;;
  beginPath ;;
  arc (Point.x p) (Point.y p) inner 0 TWO_PI ;;
  set_fillStyle (Css "#fff") ;;
  fill.

Definition drawLabel (l : label) : M unit :=
  set_font "600 11px Inter, sans-serif" ;;
  set_fillStyle (Css "rgba(200, 200, 220, 0.55)") ;;
  fillText (text l) (label_x l) (label_y l).

Definition drawMap (fuel : nat) (mapW mapH : float) (roads : list Road.t)
    (buildings : list Building.t) (options : options) : M unit :=
  clearRect 0 0 mapW mapH ;;
  (* Background *)
  set_fillStyle (Css "#0d1520") ;;
  fillRect 0 0 mapW mapH ;;
  (* Water body *)
  when (showWater options)
    (set_fillStyle (Css "rgba(8, 25, 50, 0.5)") ;;
     beginPath ;;
     ellipse (mapW + 60) (mapH * 0.5) 180 500 0 0 TWO_PI ;;
     fill) ;;
  (* Buildings *)
  forEach buildings (drawBuilding fuel) ;;
  (* Parks *)
  whenSome (parks options) (fun ps => forEach ps drawPark) ;;
  (* Roads *)
  forEach roads drawRoad ;;
  (* Route line *)
  whenSome (route options) drawRoute ;;
  (* Drop pin *)
  whenSome (dropPin options) (drawPin "#ff4444" 12 5) ;;
  (* Pickup pin *)
  whenSome (pickupPin options) (drawPin "#00d26a" 10 4) ;;
  (* Labels *)
  whenSome (labels options) (fun ls => forEach ls drawLabel).

End Renderer.

(** ** The camera

    The transform that [updateMapTransform] writes to the style of the map,
    in the binary64 numbers of the program. *)

Module Camera.

(** [translate(tx px, ty px) scale(zoom)]. *)
Record transform : Type := mkTransform { tx : float; ty : float; zoom : float }.

(** Where the style [translate(tx, ty) scale(zoom)] with origin [0 0]
    puts the point [(x, y)] of the element: scaled about the top-left
    corner, then translated. *)
Definition apply (t : transform) (x y : float) : float * float :=
  (tx t + zoom t * x, ty t + zoom t * y).

(** Is the string [translate(${tx}px, ${ty}px) scale(${zoom})] a transform?
    [NaN] and [Infinity] are no CSS numbers: with one of them the value is
    invalid. *)
Definition valid (t : transform) : bool :=
  is_finite (tx t) && is_finite (ty t) && is_finite (zoom t).

End Camera.

(** ** The navigation screen: its state, the camera and the GPS drift *)

Module App.

Definition ZOOM : float := 2.2.
Definition MAP_SCALE : float := 1200.

Record latlng : Type := mkLatLng { lat : float; lng : float }.

(** The canvas element [#map-canvas]: its bitmap and context, and the
    inline style the program writes. *)
Record element : Type :=
  mkElement { canvas : Canvas.t;
              style_width : option float;
              style_height : option float;
              style_transform : option Camera.transform;
              style_transformOrigin : option (float * float) }.

(** The only element [mapTransformEl] is ever bound to. *)
Inductive elref : Type := MapCanvas.

(** The module-level variables.  [screenW] and [screenH] are declared
    without a value and read only once [mapTransformEl] is set, after they
    have been assigned; unassigned they behave as NaN in arithmetic. *)
Record state : Type :=
  mkState { gpsBaseLatLng : option latlng;
            gpsOffsetX : float;
            gpsOffsetY : float;
            navCtx : option elref;
            screenW : float;
            screenH : float;
            currentCarPos : Point.t;
            mapTransformEl : option elref;
            mapCanvas : element }.

Definition init (el : element) : state :=
  mkState None 0 0 None nan nan (Point.mk 0 0) None el.

(** What the page supplies to [renderNavRoute]. *)
Record env : Type :=
  mkEnv { devicePixelRatio : float; clientWidth : float; clientHeight : float }.

Definition set_gpsBaseLatLng (v : option latlng) (s : state) : state :=
  mkState v (gpsOffsetX s) (gpsOffsetY s) (navCtx s) (screenW s) (screenH s)
          (currentCarPos s) (mapTransformEl s) (mapCanvas s).
Definition set_gpsOffsetX (v : float) (s : state) : state :=
  mkState (gpsBaseLatLng s) v (gpsOffsetY s) (navCtx s) (screenW s) (screenH s)
          (currentCarPos s) (mapTransformEl s) (mapCanvas s).
Definition set_gpsOffsetY (v : float) (s : state) : state :=
  mkState (gpsBaseLatLng s) (gpsOffsetX s) v (navCtx s) (screenW s) (screenH s)
          (currentCarPos s) (mapTransformEl s) (mapCanvas s).
Definition set_navCtx (v : option elref) (s : state) : state :=
  mkState (gpsBaseLatLng s) (gpsOffsetX s) (gpsOffsetY s) v (screenW s) (screenH s)
          (currentCarPos s) (mapTransformEl s) (mapCanvas s).
Definition set_screenW (v : float) (s : state) : state :=
  mkState (gpsBaseLatLng s) (gpsOffsetX s) (gpsOffsetY s) (navCtx s) v (screenH s)
          (currentCarPos s) (mapTransformEl s) (mapCanvas s).
Definition set_screenH (v : float) (s : state) : state :=
  mkState (gpsBaseLatLng s) (gpsOffsetX s) (gpsOffsetY s) (navCtx s) (screenW s) v
          (currentCarPos s) (mapTransformEl s) (mapCanvas s).
Definition set_currentCarPos (v : Point.t) (s : state) : state :=
  mkState (gpsBaseLatLng s) (gpsOffsetX s) (gpsOffsetY s) (navCtx s) (screenW s)
          (screenH s) v (mapTransformEl s) (mapCanvas s).
Definition set_mapTransformEl (v : option elref) (s : state) : state :=
  mkState (gpsBaseLatLng s) (gpsOffsetX s) (gpsOffsetY s) (navCtx s) (screenW s)
          (screenH s) (currentCarPos s) v (mapCanvas s).
Definition set_mapCanvas (v : element) (s : state) : state :=
  mkState (gpsBaseLatLng s) (gpsOffsetX s) (gpsOffsetY s) (navCtx s) (screenW s)
          (screenH s) (currentCarPos s) (mapTransformEl s) v.

Definition set_canvas (v : Canvas.t) (e : element) : element :=
  mkElement v (style_width e) (style_height e) (style_transform e)
            (style_transformOrigin e).
Definition set_style_size (w h : float) (e : element) : element :=
  mkElement (canvas e) (Some w) (Some h) (style_transform e)
            (style_transformOrigin e).
(** [el.style.transform = v]: the page drops the assignment of a value that
    is no transform, and the element keeps the transform it had. *)
Definition set_style_transform (t : Camera.transform) (e : element) : element :=
  if Camera.valid t
  then mkElement (canvas e) (style_width e) (style_height e) (Some t)
         (style_transformOrigin e)
  else e.
Definition set_style_transformOrigin (o : float * float) (e : element) : element :=
  mkElement (canvas e) (style_width e) (style_height e) (style_transform e) (Some o).

Definition updateMapTransform (s : state) : state :=
  match mapTransformEl s with
  | None => s
  | Some MapCanvas =>
      (* Calculate translation: we want currentCarPos to appear at screen center *)
      let tx := screenW s / 2 - Point.x (currentCarPos s) * ZOOM + gpsOffsetX s in
      let ty := screenH s / 2 - Point.y (currentCarPos s) * ZOOM + gpsOffsetY s in
      let s :=
        set_mapCanvas (set_style_transform (Camera.mkTransform tx ty ZOOM) (mapCanvas s))
          s in
      set_mapCanvas (set_style_transformOrigin (0, 0) (mapCanvas s)) s
  end.

(** [window.devicePixelRatio || 1]. *)
Definition or1 (d : float) : float := if is_nan d || is_zero d then 1 else d.

(** What [renderNavRoute] draws on the context of [#map-canvas]. *)
Definition drawNavScene (fuel : nat) (dpr mapW mapH : float)
    (routeStart routeEnd : Point.t) (labels : option (list Renderer.label))
    : Canvas.M unit :=
  let grid := MapGenerator.createFixedRoadGrid mapW mapH in
  let buildings := MapGenerator.createFixedBuildings mapW mapH 77 in
  let route :=
    Router.buildGridRoute (Point.x routeStart) (Point.y routeStart)
      (Point.x routeEnd) (Point.y routeEnd) (Grid.hYs grid) (Grid.vXs grid)
      mapW mapH in
  (Ctx.scale dpr dpr ;;
   Renderer.drawMap fuel mapW mapH (Grid.roads grid) buildings
     (Renderer.mkOptions true
        (Some [Renderer.mkPark (mapW * 0.25) (mapH * 0.35) 30;
               Renderer.mkPark (mapW * 0.7) (mapH * 0.55) 25])
        (Some route) (Some routeEnd) None labels))%canvas.

(** [renderNavRoute]; [None] when [drawMap] does not return. *)
Definition renderNavRoute (fuel : nat) (e : env) (routeStart routeEnd : Point.t)
    (labels : option (list Renderer.label)) (s : state) : option state :=
  let dpr := or1 (devicePixelRatio e) in
  let s := set_screenW (clientWidth e) s in
  let s := set_screenH (clientHeight e) s in
  (* Virtual map is large *)
  let mapW := MAP_SCALE in
  let mapH := MAP_SCALE in
  let el := mapCanvas s in
  let el := set_canvas (Canvas.set_width (mapW * dpr) (canvas el)) el in
  let el := set_canvas (Canvas.set_height (mapH * dpr) (canvas el)) el in
  let el := set_style_size mapW mapH el in
  let s := set_navCtx (Some MapCanvas) (set_mapCanvas el s) in
  match drawNavScene fuel dpr mapW mapH routeStart routeEnd labels
          (canvas (mapCanvas s)) with
  | None => None
  | Some (_, c) =>
      let s := set_mapCanvas (set_canvas c (mapCanvas s)) s in
      (* Car position = start of route *)
      let s := set_currentCarPos (Point.mk (Point.x routeStart) (Point.y routeStart)) s in
      let s := set_mapTransformEl (Some MapCanvas) s in
      (* Reset GPS baseline for fresh tracking *)
      let s := set_gpsBaseLatLng None s in
      let s := set_gpsOffsetX 0 s in
      let s := set_gpsOffsetY 0 s in
      Some (updateMapTransform s)
  end.

Section Geolocation.
(** [Math.cos] is the platform's. *)
Variable cos : float -> float.

Definition PI : float := 3.141592653589793.

(** The raw offset of a position against the baseline (lines 45-50). *)
Definition rawOffset (base : latlng) (lat lng : float) : Point.t :=
  let dLat := (lat - App.lat base) * 111320 in
  let dLng := (lng - App.lng base) * 111320 * cos (lat * PI / 180) in
  (* 1 real meter = ~3px at our zoom level *)
  Point.mk (dLng * 3) (- dLat * 3).

(** The success callback of [watchPosition]. *)
Definition onPosition (lat lng : float) (s : state) : state :=
  match gpsBaseLatLng s with
  | None => set_gpsBaseLatLng (Some (mkLatLng lat lng)) s
  | Some base =>
      let raw := rawOffset base lat lng in
      let s := set_gpsOffsetX (Point.x raw) s in
      let s := set_gpsOffsetY (Point.y raw) s in
      (* Clamp *)
      let s := set_gpsOffsetX (Num.js_max (-100) (Num.js_min 100 (gpsOffsetX s))) s in
      let s := set_gpsOffsetY (Num.js_max (-150) (Num.js_min 150 (gpsOffsetY s))) s in
      (* Shift the canvas to follow the dot *)
      updateMapTransform s
  end.

(** [initGPSTracking]: the callback it hands to [watchPosition], when the
    browser has geolocation. *)
Definition initGPSTracking (geolocation : bool)
    : option (float -> float -> state -> state) :=
  if geolocation then Some onPosition else None.
End Geolocation.

End App.

(** ** The home screen *)

Module Home.
Import Canvas Ctx Renderer.
#[local] Open Scope canvas_scope.

(** The static driver dot, drawn after the map. *)
Definition drawDriverDot (dp : Point.t) : M unit :=
  beginPath ;; arc (Point.x dp) (Point.y dp) 10 0 TWO_PI ;;
  set_fillStyle (Css "rgba(59, 130, 246, 0.2)") ;; fill ;;
  beginPath ;; arc (Point.x dp) (Point.y dp) 6 0 TWO_PI ;;
  set_fillStyle (Css "#3b82f6") ;; fill ;;
  set_strokeStyle (Css "#fff") ;; set_lineWidth 2 ;; stroke.

(** What [startHomeMap] draws on the context of [#home-map-canvas]. *)
Definition drawHomeScene (fuel : nat) (dpr w h : float) : M unit :=
  Ctx.scale dpr dpr ;;
  let roads := Grid.roads (MapGenerator.createFixedRoadGrid w h) in
  let buildings := MapGenerator.createFixedBuildings w h 42 in
  let pickupPin := Point.mk (w * 0.48) (h * 0.35) in
  drawMap fuel w h roads buildings
    (mkOptions true
       (Some [mkPark (w * 0.3) (h * 0.22) 25])
       None None (Some pickupPin)
       (Some [mkLabel "Dadar West" (Point.x pickupPin - 55) (Point.y pickupPin - 18);
              mkLabel "Prabhadevi" (w * 0.15) (h * 0.45);
              mkLabel "Mahim" (w * 0.65) (h * 0.2)])) ;;
  (* Static driver dot *)
  let dp := Point.mk (Point.x pickupPin - 25) (Point.y pickupPin + 35) in
  drawDriverDot dp.

(** [startHomeMap] on the canvas [#home-map-canvas], given the pixel ratio
    and the client size the page reports; [None] when [drawMap] does not
    return. *)
Definition startHomeMap (fuel : nat) (devicePixelRatio clientWidth clientHeight : float)
    (homeMapCanvas : Canvas.t) : option (unit * Canvas.t) :=
  let dpr := App.or1 devicePixelRatio in
  let w := clientWidth in
  let h := clientHeight in
  let homeMapCanvas := set_width (w * dpr) homeMapCanvas in
  let homeMapCanvas := set_height (h * dpr) homeMapCanvas in
  drawHomeScene fuel dpr w h homeMapCanvas.

End Home.

(** ** Numbers that become text *)

Module JsNumber.

(** [Math.round(x)]: the whole number nearest to [x], the larger one on a
    tie, computed exactly; a result of zero keeps the sign of [x]. *)
Definition round (x : float) : float :=
  match Prim2SF x with
  | S754_finite sg m e =>
      if (0 <=? e)%Z then x
      else
        let d := (2 ^ (- e))%Z in
        let n := ((2 * (if sg then Zneg m else Zpos m) + d) / (2 * d))%Z in
        if (n =? 0)%Z then (if sg then neg_zero else zero) else Num.of_Z n
  | _ => x
  end.

(** A whole number as an exact value. *)
Definition whole (n : Z) : spec_float :=
  match n with
  | Z0 => S754_zero false
  | Zpos p => S754_finite false p 0
  | Zneg p => S754_finite true p 0
  end.

(** The number that the string [x.toFixed(1)] denotes, as [Math.max] reads
    it back: the tenths [n / 10] with [n] the whole number nearest to
    [10 * |x|] (the larger one on a tie, computed exactly), with the sign of
    [x]; [x] itself from 1e21 on. *)
Definition toFixed1 (x : float) : float :=
  match Prim2SF x with
  | S754_finite sg m e =>
      if 1e21 <=? abs x then x
      else
        let n := if (0 <=? e)%Z then (10 * Zpos m * 2 ^ e)%Z
                 else ((2 * (10 * Zpos m) + 2 ^ (- e)) / (2 * 2 ^ (- e)))%Z in
        let v := SF2Prim (SFdiv prec emax (whole n) (whole 10)) in
        if sg then - v else v
  | S754_zero _ => zero
  | _ => x
  end.

End JsNumber.

(** ** The page

    The elements the script holds, each under the id or the selector the
    script finds it with.  The page is assumed to have every element that
    the script dereferences without a guard. *)

Module Dom.

(** What an assignment to [textContent] receives: a string, or a number
    whose string the page shows. *)
Inductive content : Type :=
| Text (s : string)
| Number (v : float).

(** What an assignment to a style property receives: a string, a number, or
    a number followed by [%]. *)
Inductive css : Type :=
| Keyword (s : string)
| Amount (v : float)
| Percent (v : float).

(** [classList]: an ordered set of tokens. *)
Definition contains (token : string) (l : list string) : bool :=
  existsb (String.eqb token) l.

Definition add (token : string) (l : list string) : list string :=
  if contains token l then l else l ++ [token].

Definition remove (tokens : list string) (l : list string) : list string :=
  filter (fun t => negb (contains t tokens)) l.

Record page : Type :=
  mkPage { classList : string -> list string;
           textContent : string -> content;
           style : string -> string -> css;
           (** does [getElementById] find the element? *)
           found : string -> bool;
           (** the [white-flash] children of [#app] *)
           flashes : nat }.

(** [m[k] = v]. *)
Definition upd {A : Type} (k : string) (v : A) (m : string -> A) : string -> A :=
  fun k' => if String.eqb k k' then v else m k'.

Definition set_classList (el : string) (v : list string) (p : page) : page :=
  mkPage (upd el v (classList p)) (textContent p) (style p) (found p) (flashes p).
Definition set_textContent (el : string) (v : content) (p : page) : page :=
  mkPage (classList p) (upd el v (textContent p)) (style p) (found p) (flashes p).
Definition set_style (el prop : string) (v : css) (p : page) : page :=
  mkPage (classList p) (textContent p) (upd el (upd prop v (style p el)) (style p))
         (found p) (flashes p).
Definition set_flashes (v : nat) (p : page) : page :=
  mkPage (classList p) (textContent p) (style p) (found p) v.

End Dom.

(** ** The screens: timers, clicks and what they write to the page

    The browser's timers are a list of armed timers, each with the time it
    is due; the one due first fires first, and of two due together the one
    armed first.  A callback is the closure the script passes, with the
    variables it captures; the variables only the closure can reach
    ([idx], [progress], [countdown]) live with it. *)

Module Ui.
Import Dom.

Record turn : Type := mkTurn { turn_text : string; dist : string }.

Inductive callback : Type :=
| RequestTick (interval : nat)
| RoadTick (roadNames : list string) (turns : list turn) (idx : nat)
| TripTick (step eta km : float) (progress : float)
| GlitchTick (glitchTimer : nat) (countdown : float)
| MicroGlitch
| MicroGlitchEnd
| FullGlitchHeavy
| FullGlitchFlash
| FullGlitchEnd.

(** An armed timer: [every] is the period of an interval, [None] for a
    timeout. *)
Record timer : Type :=
  mkTimer { id : nat; due : Z; every : option Z; run : callback }.

(** The module-level variables, the page, the navigation state of [App], the
    number of position watches, and the browser's clock and timers. *)
Record state : Type :=
  mkState { page : Dom.page;
            glitchTriggered : bool;
            requestTimer : float;
            reqTimerInterval : nat;
            roadRotationInterval : option nat;
            tripInterval : option nat;
            nav : App.state;
            watches : nat;
            now : Z;
            nextId : nat;
            timers : list timer }.

Definition set_page (v : Dom.page) (s : state) : state :=
  mkState v (glitchTriggered s) (requestTimer s) (reqTimerInterval s)
          (roadRotationInterval s) (tripInterval s) (nav s) (watches s) (now s)
          (nextId s) (timers s).
Definition set_glitchTriggered (v : bool) (s : state) : state :=
  mkState (page s) v (requestTimer s) (reqTimerInterval s)
          (roadRotationInterval s) (tripInterval s) (nav s) (watches s) (now s)
          (nextId s) (timers s).
Definition set_requestTimer (v : float) (s : state) : state :=
  mkState (page s) (glitchTriggered s) v (reqTimerInterval s)
          (roadRotationInterval s) (tripInterval s) (nav s) (watches s) (now s)
          (nextId s) (timers s).
Definition set_reqTimerInterval (v : nat) (s : state) : state :=
  mkState (page s) (glitchTriggered s) (requestTimer s) v
          (roadRotationInterval s) (tripInterval s) (nav s) (watches s) (now s)
          (nextId s) (timers s).
Definition set_roadRotationInterval (v : option nat) (s : state) : state :=
  mkState (page s) (glitchTriggered s) (requestTimer s) (reqTimerInterval s)
          v (tripInterval s) (nav s) (watches s) (now s)
          (nextId s) (timers s).
Definition set_tripInterval (v : option nat) (s : state) : state :=
  mkState (page s) (glitchTriggered s) (requestTimer s) (reqTimerInterval s)
          (roadRotationInterval s) v (nav s) (watches s) (now s)
          (nextId s) (timers s).
Definition set_nav (v : App.state) (s : state) : state :=
  mkState (page s) (glitchTriggered s) (requestTimer s) (reqTimerInterval s)
          (roadRotationInterval s) (tripInterval s) v (watches s) (now s)
          (nextId s) (timers s).
Definition set_watches (v : nat) (s : state) : state :=
  mkState (page s) (glitchTriggered s) (requestTimer s) (reqTimerInterval s)
          (roadRotationInterval s) (tripInterval s) (nav s) v (now s)
          (nextId s) (timers s).
Definition set_now (v : Z) (s : state) : state :=
  mkState (page s) (glitchTriggered s) (requestTimer s) (reqTimerInterval s)
          (roadRotationInterval s) (tripInterval s) (nav s) (watches s) v
          (nextId s) (timers s).
Definition set_nextId (v : nat) (s : state) : state :=
  mkState (page s) (glitchTriggered s) (requestTimer s) (reqTimerInterval s)
          (roadRotationInterval s) (tripInterval s) (nav s) (watches s) (now s)
          v (timers s).
Definition set_timers (v : list timer) (s : state) : state :=
  mkState (page s) (glitchTriggered s) (requestTimer s) (reqTimerInterval s)
          (roadRotationInterval s) (tripInterval s) (nav s) (watches s) (now s)
          (nextId s) v.

(** *** Writes to the page *)

Definition classes_add (el token : string) (s : state) : state :=
  set_page (set_classList el (add token (classList (page s) el)) (page s)) s.
Definition classes_remove (el : string) (tokens : list string) (s : state) : state :=
  set_page (set_classList el (remove tokens (classList (page s) el)) (page s)) s.
Definition write_text (el : string) (v : content) (s : state) : state :=
  set_page (set_textContent el v (page s)) s.
Definition write_style (el prop : string) (v : css) (s : state) : state :=
  set_page (Dom.set_style el prop v (page s)) s.
(** [if (el) el.textContent = v] on an element that may be missing. *)
Definition write_text_if_found (el : string) (v : content) (s : state) : state :=
  if found (page s) el then write_text el v s else s.

(** *** The browser's timers *)

(** [setInterval(cb, ms)] and [setTimeout(cb, ms)]: the new timer's id, and
    the state with the timer armed. *)
Definition arm (cb : callback) (ms : Z) (every : option Z) (s : state) : nat * state :=
  let t := mkTimer (nextId s) (now s + ms) every cb in
  (nextId s, set_nextId (S (nextId s)) (set_timers (timers s ++ [t]) s)).

Definition setInterval (cb : callback) (ms : Z) (s : state) : nat * state :=
  arm cb ms (Some ms) s.
Definition setTimeout (cb : callback) (ms : Z) (s : state) : state :=
  snd (arm cb ms None s).

Definition clearInterval (i : nat) (s : state) : state :=
  set_timers (filter (fun t => negb (Nat.eqb (id t) i)) (timers s)) s.

(** [if (v) clearInterval(v)] on a variable that is [null] or an id. *)
Definition clearInterval_if (v : option nat) (s : state) : state :=
  match v with Some i => clearInterval i s | None => s end.

(** *** The request timer *)

Definition circumference : float := 2 * App.PI * 28.

(** The interval is armed with the closure that names it. *)
Definition startRequestTimer (s : state) : nat * state :=
  let s := write_style ".timer-progress" "strokeDasharray" (Amount circumference) s in
  let s := write_style ".timer-progress" "strokeDashoffset" (Amount 0) s in
  setInterval (RequestTick (nextId s)) 1000 s.

Definition requestTick (interval : nat) (s : state) : state :=
  let s := set_requestTimer (requestTimer s - 1) s in
  let s := write_text ".timer-text" (Number (requestTimer s)) s in
  let s := write_style ".timer-progress" "strokeDashoffset"
             (Amount (circumference * (1 - requestTimer s / 15))) s in
  if requestTimer s <=? 0 then
    let s := clearInterval interval s in
    let s := set_requestTimer 15 s in
    let s := write_text ".timer-text" (Number (requestTimer s)) s in
    let s := write_style ".timer-progress" "strokeDashoffset" (Amount 0) s in
    snd (startRequestTimer s)
  else s.

(** *** The rotation of the road names *)

Definition roadNames : list string :=
  ["Dr Babasaheb Ambedkar Rd"; "SV Road towards Mahim"; "Cadell Road";
   "Bhulabhai Desai Rd"; "Marine Drive Promenade"]%string.

Definition turns : list turn :=
  [mkTurn "Turn left onto SV Rd" "250 m";
   mkTurn "Continue straight" "1.2 km";
   mkTurn "Bear right onto Cadell Rd" "400 m";
   mkTurn "Turn right onto Bhulabhai Desai Rd" "800 m";
   mkTurn "Destination on left" "150 m"].

Definition jogeshwariRoadNames : list string :=
  ["Western Express Highway"; "SV Road, Khar West"; "Linking Road, Santacruz";
   "Jogeshwari Vikhroli Link Rd"; "JVLR towards Jogeshwari East"]%string.

Definition jogeshwariTurns : list turn :=
  [mkTurn "Take exit onto JVLR" "1.8 km";
   mkTurn "Continue straight" "900 m";
   mkTurn "Bear left onto Link Rd" "600 m";
   mkTurn "Turn right onto JVLR" "1.2 km";
   mkTurn "Destination on right" "200 m"].

(** The three writes of a rotation, each guarded by its element. *)
Definition showRoad (names : list string) (ts : list turn) (idx : nat) (s : state)
    : state :=
  let s := write_text_if_found "#nav-road-name"
             (Text (String.append "Continue on " (nth idx names "undefined"%string))) s in
  let s := write_text_if_found "#nav-turn-text"
             (Text (turn_text (nth idx ts (mkTurn "" "")))) s in
  let s := write_text_if_found "#nav-turn-dist"
             (Text (dist (nth idx ts (mkTurn "" "")))) s in
  s.

(** The callback of both rotations; [idx] is the closure's own. *)
Definition roadTick (names : list string) (ts : list turn) (idx : nat) (s : state)
    : nat * state :=
  let idx := ((idx + 1) mod length names)%nat in
  (idx, showRoad names ts idx s).

Definition startRoadNameRotation (s : state) : state :=
  let idx := 0%nat in
  let s := clearInterval_if (roadRotationInterval s) s in
  let '(i, s) := setInterval (RoadTick roadNames turns idx) 8000 s in
  set_roadRotationInterval (Some i) s.

Definition startJogeshwariRoadRotation (s : state) : state :=
  let idx := 0%nat in
  let s := showRoad jogeshwariRoadNames jogeshwariTurns 0 s in
  let s := clearInterval_if (roadRotationInterval s) s in
  let '(i, s) := setInterval (RoadTick jogeshwariRoadNames jogeshwariTurns idx) 8000 s in
  set_roadRotationInterval (Some i) s.

(** *** The trip progress *)

(** The callback of the progress interval, for the step, the minutes and
    the kilometres of the trip; [progress] is the closure's own. *)
Definition tripTick (step eta km : float) (progress : float) (s : state)
    : float * state :=
  let progress := progress + step in
  let progress := if 100 <? progress then 100 else progress in
  let s := write_style "#trip-progress" "width" (Percent progress) s in
  let s := write_text ".eta-time"
             (Number (Num.js_max 1 (JsNumber.round (eta * (1 - progress / 100))))) s in
  let s := write_text ".dist-value"
             (Number (Num.js_max 0.1 (JsNumber.toFixed1 (km * (1 - progress / 100))))) s in
  if 100 <=? progress then
    let s := clearInterval_if (tripInterval s) s in
    (progress, write_text "#trip-status-text" (Text "Arriving at destination") s)
  else (progress, s).

Definition startTripProgress (s : state) : state :=
  let progress := 0 in
  let s := clearInterval_if (tripInterval s) s in
  let '(i, s) := setInterval (TripTick 0.12 35 12.4 progress) 600 s in
  set_tripInterval (Some i) s.

(** *** The glitch *)

Definition triggerMicroGlitch (s : state) : state :=
  let s := classes_remove "#glitch-overlay" ["hidden"; "active"; "heavy"]%string s in
  let s := classes_add "#glitch-overlay" "micro" s in
  let s := classes_add "#screen-map" "shaking" s in
  setTimeout MicroGlitchEnd 150 s.

Definition microGlitchEnd (s : state) : state :=
  let s := classes_remove "#glitch-overlay" ["micro"]%string s in
  let s := classes_add "#glitch-overlay" "hidden" s in
  classes_remove "#screen-map" ["shaking"]%string s.

Definition showPopup (s : state) : state :=
  let s := classes_remove "#popup-overlay" ["hidden"]%string s in
  let s := classes_add "#popup-overlay" "visible" s in
  let s := write_text ".trip-rider-dest"
             (Text "Jogeshwari Vikhroli Link Rd, Jogeshwari E") s in
  let s := write_text ".trip-fare" (Text "₹820") s in
  write_text "#trip-status-text" (Text "Destination updated") s.

Definition triggerFullGlitch (s : state) : state :=
  let s := classes_remove "#glitch-overlay" ["hidden"; "micro"]%string s in
  let s := classes_add "#glitch-overlay" "active" s in
  let s := classes_add "#screen-map" "shaking" s in
  setTimeout FullGlitchHeavy 1500 s.

Definition fullGlitchHeavy (s : state) : state :=
  let s := classes_remove "#glitch-overlay" ["active"]%string s in
  let s := classes_add "#glitch-overlay" "heavy" s in
  let s := classes_remove "#screen-map" ["shaking"]%string s in
  let s := classes_add "#screen-map" "shaking-heavy" s in
  setTimeout FullGlitchFlash 1200 s.

Definition fullGlitchFlash (s : state) : state :=
  let s := set_page (set_flashes (S (flashes (page s))) (page s)) s in
  setTimeout FullGlitchEnd 400 s.

Definition fullGlitchEnd (s : state) : state :=
  let s := classes_remove "#glitch-overlay" ["heavy"]%string s in
  let s := classes_add "#glitch-overlay" "hidden" s in
  let s := classes_remove "#screen-map" ["shaking-heavy"]%string s in
  let s := set_page (set_flashes (pred (flashes (page s))) (page s)) s in
  showPopup s.

(** The callback of the countdown; [countdown] is the closure's own. *)
Definition glitchTick (glitchTimer : nat) (countdown : float) (s : state)
    : float * state :=
  let countdown := countdown - 1 in
  let s := if (countdown =? 6) || (countdown =? 4) || (countdown =? 2)
           then triggerMicroGlitch s else s in
  let s := if countdown =? 1
           then setTimeout MicroGlitch 300 (triggerMicroGlitch s) else s in
  let s := if countdown <=? 0
           then triggerFullGlitch (clearInterval glitchTimer s) else s in
  (countdown, s).

(** *** The callbacks run *)

Definition call (cb : callback) (s : state) : callback * state :=
  match cb with
  | RequestTick interval => (cb, requestTick interval s)
  | RoadTick names ts idx =>
      let '(idx, s) := roadTick names ts idx s in (RoadTick names ts idx, s)
  | TripTick step eta km progress =>
      let '(progress, s) := tripTick step eta km progress s in
      (TripTick step eta km progress, s)
  | GlitchTick glitchTimer countdown =>
      let '(countdown, s) := glitchTick glitchTimer countdown s in
      (GlitchTick glitchTimer countdown, s)
  | MicroGlitch => (cb, triggerMicroGlitch s)
  | MicroGlitchEnd => (cb, microGlitchEnd s)
  | FullGlitchHeavy => (cb, fullGlitchHeavy s)
  | FullGlitchFlash => (cb, fullGlitchFlash s)
  | FullGlitchEnd => (cb, fullGlitchEnd s)
  end.

(** The timer that fires next: the one due first, the one armed first among
    those due together. *)
Fixpoint earliest (best : timer) (ts : list timer) : timer :=
  match ts with
  | [] => best
  | t :: ts' => earliest (if (due t <? due best)%Z then t else best) ts'
  end.

Definition next_timer (s : state) : option timer :=
  match timers s with
  | [] => None
  | t :: ts => Some (earliest t ts)
  end.

Definition is_armed (i : nat) (s : state) : bool :=
  existsb (fun t => Nat.eqb (id t) i) (timers s).

(** The timer fires, no earlier than it is due.  A timeout is disarmed and
    its callback runs; an interval runs its callback and, unless the
    callback cleared it, is armed again one period later, behind the timers
    armed meanwhile. *)
Definition fire (t : timer) (s : state) : state :=
  let s := set_now (Z.max (now s) (due t)) s in
  match every t with
  | None => snd (call (run t) (clearInterval (id t) s))
  | Some ms =>
      let '(cb, s) := call (run t) s in
      if is_armed (id t) s
      then set_timers (timers (clearInterval (id t) s)
                       ++ [mkTimer (id t) (now s + ms) (Some ms) cb]) s
      else s
  end.

(** *** The clicks *)

Definition firstTripLabels : list Renderer.label :=
  [Renderer.mkLabel "Dadar" 600 870; Renderer.mkLabel "Mahim" 300 680;
   Renderer.mkLabel "Bandra" 200 500; Renderer.mkLabel "Worli" 700 400;
   Renderer.mkLabel "Marine Drive" 220 105].

Definition secondTripLabels : list Renderer.label :=
  [Renderer.mkLabel "Bandra" 350 820; Renderer.mkLabel "Khar" 500 650;
   Renderer.mkLabel "Santacruz" 600 480; Renderer.mkLabel "Vile Parle" 400 320;
   Renderer.mkLabel "Jogeshwari E" 860 165].

Section Browser.
(** [Math.cos], and the fuel of the window loops of [drawMap]. *)
Variable cos : float -> float.
Variable fuel : nat.

(** [renderNavRoute] on the navigation state; a render that does not return
    ends the handler that called it. *)
Definition renderNavRoute (e : App.env) (routeStart routeEnd : Point.t)
    (labels : list Renderer.label) (s : state) : option state :=
  match App.renderNavRoute fuel e routeStart routeEnd (Some labels) (nav s) with
  | Some n => Some (set_nav n s)
  | None => None
  end.

(** [initGPSTracking]: one more watch, when the browser has geolocation. *)
Definition initGPSTracking (geolocation : bool) (s : state) : state :=
  match App.initGPSTracking cos geolocation with
  | Some _ => set_watches (S (watches s)) s
  | None => s
  end.

(** The click on [#btn-accept]. *)
Definition onAccept (e : App.env) (geolocation : bool) (s : state) : state :=
  let s := clearInterval (reqTimerInterval s) s in
  let s := classes_remove "#screen-request" ["active"]%string s in
  let s := classes_add "#screen-map" "active" s in
  (* Initial route: Dadar -> Marine Drive *)
  let routeStart := Point.mk 580 850 in
  let routeEnd := Point.mk 260 120 in
  match renderNavRoute e routeStart routeEnd firstTripLabels s with
  | None => s
  | Some s =>
      let s := startTripProgress s in
      let s := startRoadNameRotation s in
      initGPSTracking geolocation s
  end.

(** The click on [#glitch-trigger-avatar]. *)
Definition onAvatar (s : state) : state :=
  if glitchTriggered s then s
  else
    let s := set_glitchTriggered true s in
    let countdown := 10 in
    snd (setInterval (GlitchTick (nextId s) countdown) 1000 s).

(** The click on [#popup-ok-btn]. *)
Definition onPopupOk (e : App.env) (s : state) : state :=
  let s := classes_remove "#popup-overlay" ["visible"]%string s in
  let s := classes_add "#popup-overlay" "hidden" s in
  let s := write_text "#trip-status-text" (Text "En route to new destination") s in
  (* Update nav header *)
  let s := write_text ".eta-time" (Text "28") s in
  let s := write_text ".dist-value" (Text "15.6") s in
  (* New route: Bandra area -> Jogeshwari *)
  let routeStart := Point.mk 400 800 in
  let routeEnd := Point.mk 900 180 in
  match renderNavRoute e routeStart routeEnd secondTripLabels s with
  | None => s
  | Some s =>
      (* Switch road name rotation to Jogeshwari roads *)
      let s := startJogeshwariRoadRotation s in
      (* Restart trip progress for new route *)
      let s := write_style "#trip-progress" "width" (Keyword "0%") s in
      let progress := 0 in
      let s := clearInterval_if (tripInterval s) s in
      let '(i, s) := setInterval (TripTick 0.1 28 15.6 progress) 600 s in
      set_tripInterval (Some i) s
  end.

(** A position reaches every watch. *)
Definition onFix (lat lng : float) (s : state) : state :=
  set_nav (Nat.iter (watches s) (App.onPosition cos lat lng) (nav s)) s.

(** *** What happens *)

Inductive input : Type :=
| Accept (e : App.env) (geolocation : bool)
| Avatar
| PopupOk (e : App.env)
| Fix (lat lng : float).

(** The next timer fires, or an input arrives some milliseconds after the
    event before it. *)
Inductive event : Type :=
| Tick
| Input (ms : Z) (i : input).

Definition handle (i : input) (s : state) : state :=
  match i with
  | Accept e geolocation => onAccept e geolocation s
  | Avatar => onAvatar s
  | PopupOk e => onPopupOk e s
  | Fix lat lng => onFix lat lng s
  end.

Definition step (s : state) (ev : event) : state :=
  match ev with
  | Tick => match next_timer s with Some t => fire t s | None => s end
  | Input ms i => handle i (set_now (now s + Z.max 0 ms) s)
  end.

Definition steps (evs : list event) (s : state) : state := fold_left step evs s.

End Browser.

(** The state the script leaves when it has loaded: [startHomeMap] has drawn
    the home canvas ([Home.startHomeMap]), the request timer runs and the
    three click handlers listen. *)
Definition loaded (p : Dom.page) (mapCanvas : App.element) : state :=
  let s := mkState p false 15 0 None None (App.init mapCanvas) 0 0 1 [] in
  let '(i, s) := startRequestTimer s in
  set_reqTimerInterval i s.

End Ui.

(** * Facts of binary64 arithmetic

    Derived from the specification of the primitive operations. *)

Module F64.

(** A number proper: not NaN. *)
Definition numeric (x : float) : Prop := is_nan x = false.

(** Neither NaN nor an infinity. *)
Definition finite (x : float) : Prop := is_finite x = true.

Lemma SFmul_comm (x y : spec_float) : SF64mul x y = SF64mul y x.
Proof.
  unfold SF64mul.
  destruct x as [sx|sx| |sx mx ex], y as [sy|sy| |sy my ey]; simpl;
    rewrite ?(xorb_comm sx sy), ?(Pos.mul_comm mx my), ?(Z.add_comm ex ey);
    reflexivity.
Qed.

Lemma mul_comm (x y : float) : x * y = y * x.
Proof.
  apply Prim2SF_inj. rewrite !mul_spec. apply SFmul_comm.
Qed.

(** *** The order *)

Lemma SFcompare_antisym (x y : spec_float) :
  SFcompare y x = option_map CompOpp (SFcompare x y).
Proof.
  destruct x as [[]|[]| |[] mx ex], y as [[]|[]| |[] my ey]; simpl; try reflexivity;
    rewrite (Z.compare_antisym ey ex);
    destruct (ey ?= ex)%Z; simpl; try reflexivity;
    rewrite (Pos.compare_cont_antisym mx my Eq); simpl;
    destruct (Pos.compare_cont Eq mx my); reflexivity.
Qed.

Lemma numeric_SF (x : float) : numeric x -> Prim2SF x <> S754_nan.
Proof.
  unfold numeric, Prim2SF. intros ->.
  destruct (is_zero x); [discriminate|].
  destruct (is_infinity x); [discriminate|].
  destruct (Z.frexp x) as [r ex].
  destruct (shr_fexp prec emax _ _ _) as [sh e'].
  destruct (shr_m sh); discriminate.
Qed.

Lemma SF_numeric (x : float) : Prim2SF x <> S754_nan -> numeric x.
Proof.
  unfold numeric, Prim2SF. destruct (is_nan x); [congruence | reflexivity].
Qed.

Lemma SFcompare_numeric (x y : spec_float) :
  x <> S754_nan -> y <> S754_nan -> exists c, SFcompare x y = Some c.
Proof.
  destruct x as [sx|sx| |sx mx ex], y as [sy|sy| |sy my ey]; simpl;
    intros; try congruence; eexists; reflexivity.
Qed.

(** Whatever is not below is at least. *)
Lemma not_ltb_leb (a b : float) :
  numeric a -> numeric b -> (a <? b) = false -> (b <=? a) = true.
Proof.
  intros Ha Hb. rewrite ltb_spec, leb_spec. unfold SFltb, SFleb.
  rewrite (SFcompare_antisym (Prim2SF a) (Prim2SF b)).
  destruct (SFcompare_numeric _ _ (numeric_SF a Ha) (numeric_SF b Hb)) as [c ->].
  destruct c; simpl; congruence.
Qed.

Lemma ltb_leb (a b : float) : (a <? b) = true -> (a <=? b) = true.
Proof.
  rewrite ltb_spec, leb_spec. unfold SFltb, SFleb.
  destruct (SFcompare (Prim2SF a) (Prim2SF b)) as [[]|]; congruence.
Qed.

Lemma ltb_numeric (a b : float) : (a <? b) = true -> numeric a /\ numeric b.
Proof.
  rewrite ltb_spec. unfold SFltb. intros H.
  split; apply SF_numeric; intros E; rewrite E in H;
    [| destruct (Prim2SF a)]; discriminate.
Qed.

Lemma leb_refl (a : float) : numeric a -> (a <=? a) = true.
Proof.
  intros Ha. apply not_ltb_leb; trivial.
  rewrite ltb_spec. unfold SFltb.
  pose proof (SFcompare_antisym (Prim2SF a) (Prim2SF a)) as E.
  destruct (SFcompare (Prim2SF a) (Prim2SF a)) as [[]|]; simpl in E; congruence.
Qed.

Lemma SFcompare_lt_le_trans (x y z : spec_float) :
  SFcompare x y = Some Lt ->
  (SFcompare y z = Some Lt \/ SFcompare y z = Some Eq) ->
  SFcompare x z = Some Lt.
Proof.
  destruct x as [[]|[]| |[] mx ex], y as [[]|[]| |[] my ey], z as [[]|[]| |[] mz ez];
    simpl; intros H [H'|H']; try congruence;
    change (Pos.compare_cont Eq) with Pos.compare in *;
    revert H H'; f_equal;
    repeat match goal with
           | |- context [(?a ?= ?b)%Z] => destruct (Z.compare_spec a b)
           | |- context [(?a ?= ?b)%positive] => destruct (Pos.compare_spec a b)
           end; simpl; intros; try congruence; try lia.
Qed.

Lemma ltb_leb_trans (a b c : float) :
  (a <? b) = true -> (b <=? c) = true -> (a <? c) = true.
Proof.
  rewrite !ltb_spec, leb_spec. unfold SFltb, SFleb. intros H H'.
  rewrite (SFcompare_lt_le_trans (Prim2SF a) (Prim2SF b) (Prim2SF c)); trivial.
  - destruct (SFcompare (Prim2SF a) (Prim2SF b)) as [[]|]; congruence.
  - destruct (SFcompare (Prim2SF b) (Prim2SF c)) as [[]|]; auto; congruence.
Qed.

(** *** Rounding never invents a NaN *)

Lemma shr_1_nonneg (r : shr_record) : (0 <= shr_m r)%Z -> (0 <= shr_m (shr_1 r))%Z.
Proof.
  destruct r as [m b c]; simpl. destruct m as [|[q|q|]|[q|q|]]; simpl; lia.
Qed.

Lemma iter_shr_1_nonneg (p : positive) :
  forall r, (0 <= shr_m r)%Z -> (0 <= shr_m (iter_pos shr_1 p r))%Z.
Proof.
  induction p as [p IH|p IH|]; simpl; intros r Hr.
  - apply IH, IH, shr_1_nonneg, Hr.
  - apply IH, IH, Hr.
  - apply shr_1_nonneg, Hr.
Qed.

Lemma shr_fexp_nonneg (m e : Z) (l : location) :
  (0 <= m)%Z -> (0 <= shr_m (fst (shr_fexp prec emax m e l)))%Z.
Proof.
  intros Hm. unfold shr_fexp, shr.
  assert (H0 : (0 <= shr_m (shr_record_of_loc m l))%Z)
    by (destruct l as [|[]]; simpl; exact Hm).
  destruct (_ - e)%Z; simpl; trivial.
  apply iter_shr_1_nonneg, H0.
Qed.

Lemma round_nearest_even_nonneg (m : Z) (l : location) :
  (0 <= m)%Z -> (0 <= round_nearest_even m l)%Z.
Proof.
  intros Hm. destruct l as [|[]]; simpl; try lia. destruct (Z.even m); lia.
Qed.

Lemma binary_round_aux_not_nan (sg : bool) (m e : Z) (l : location) :
  (0 <= m)%Z -> binary_round_aux prec emax sg m e l <> S754_nan.
Proof.
  intros Hm. unfold binary_round_aux.
  pose proof (shr_fexp_nonneg m e l Hm) as H1.
  destruct (shr_fexp prec emax m e l) as [mrs' e']. simpl in H1.
  pose proof (shr_fexp_nonneg _ e' loc_Exact
                (round_nearest_even_nonneg _ (loc_of_shr_record mrs') H1)) as H2.
  destruct (shr_fexp prec emax (round_nearest_even _ _) e' loc_Exact) as [mrs'' e''].
  simpl in H2.
  destruct (shr_m mrs''); try lia; try discriminate.
  destruct (_ <=? _)%Z; discriminate.
Qed.

Lemma binary_normalize_not_nan (m e : Z) (sz : bool) :
  binary_normalize prec emax m e sz <> S754_nan.
Proof.
  unfold binary_normalize, binary_round.
  destruct m as [|q|q]; [discriminate| |];
    destruct (shl_align _ _ _) as [mz ez];
    apply binary_round_aux_not_nan; lia.
Qed.

(** *** Classes of numbers *)

Lemma finite_SF (x : float) :
  finite x ->
  (exists sg, Prim2SF x = S754_zero sg) \/ (exists sg m e, Prim2SF x = S754_finite sg m e).
Proof.
  unfold finite, is_finite, Prim2SF. intros H.
  destruct (is_nan x); [discriminate|].
  destruct (is_infinity x); [discriminate|].
  destruct (is_zero x); [left; eexists; reflexivity|].
  destruct (Z.frexp x) as [r ex].
  destruct (shr_fexp prec emax _ _ _) as [sh e'].
  destruct (shr_m sh); [left|right|left]; repeat eexists.
Qed.

Lemma finite_numeric (x : float) : finite x -> numeric x.
Proof.
  unfold finite, is_finite, numeric. destruct (is_nan x); [discriminate|reflexivity].
Qed.

Lemma abs_numeric (x : float) : numeric x -> numeric (abs x).
Proof.
  intros H. apply SF_numeric. rewrite abs_spec.
  pose proof (numeric_SF x H). destruct (Prim2SF x); simpl; congruence.
Qed.

(** A finite number minus a number is a number (possibly infinite). *)
Lemma sub_numeric (a b : float) : finite a -> numeric b -> numeric (a - b).
Proof.
  intros Ha Hb. apply SF_numeric. rewrite sub_spec. unfold SF64sub.
  pose proof (numeric_SF b Hb) as Nb.
  destruct (finite_SF a Ha) as [[sg ->]|(sg & m & e & ->)];
    destruct (Prim2SF b) as [sb|sb| |sb mb eb]; simpl; try congruence;
    try (destruct sg, sb; discriminate).
  apply binary_normalize_not_nan.
Qed.

(** A finite number is at distance [+0] from itself. *)
Lemma sub_diag (a : float) : finite a -> Prim2SF (a - a) = S754_zero false.
Proof.
  intros Ha. rewrite sub_spec. unfold SF64sub.
  destruct (finite_SF a Ha) as [[sg ->]|(sg & m & e & ->)]; simpl.
  - destruct sg; reflexivity.
  - rewrite Z.min_id. unfold shl_align. rewrite !Z.sub_diag. reflexivity.
Qed.

Lemma abs_sub_diag_le (a eps : float) :
  finite a -> (zero <=? eps) = true -> (abs (a - a) <=? eps) = true.
Proof.
  intros Ha. rewrite !leb_spec, abs_spec, (sub_diag a Ha). trivial.
Qed.

End F64.


(** * Integers in binary64

    Below 2^53 integers are represented exactly, and products and remainders
    of integers that stay below 2^53 are computed without rounding. *)

Module F64Int.

#[local] Open Scope Z_scope.

(** [q * 2^n] on mantissas. *)
Definition shl (q : positive) (n : nat) : positive := Nat.iter n xO q.

Lemma shl_Z (q : positive) (n : nat) : Zpos (shl q n) = Zpos q * 2 ^ Z.of_nat n.
Proof.
  induction n as [|n IH].
  - simpl. lia.
  - change (shl q (S n)) with (xO (shl q n)).
    rewrite (Pos2Z.inj_xO (shl q n)), IH, Nat2Z.inj_succ, Z.pow_succ_r by lia. ring.
Qed.

Lemma digits_shl (q : positive) (n : nat) :
  Zpos (digits2_pos (shl q n)) = Zpos (digits2_pos q) + Z.of_nat n.
Proof.
  induction n as [|n IH].
  - simpl. lia.
  - change (shl q (S n)) with (xO (shl q n)). cbn [digits2_pos].
    rewrite Pos2Z.inj_succ, IH. lia.
Qed.

Lemma pow2_pos_step (d : positive) : 2 ^ Zpos d = 2 * 2 ^ (Zpos d - 1).
Proof.
  replace (Zpos d) with (Z.succ (Zpos d - 1)) at 1 by lia. apply Z.pow_succ_r. lia.
Qed.

Lemma digits_bounds (p : positive) :
  2 ^ (Zpos (digits2_pos p) - 1) <= Zpos p < 2 ^ Zpos (digits2_pos p).
Proof.
  induction p as [p IH|p IH|]; cbn [digits2_pos].
  - rewrite (pow2_pos_step (Pos.succ _)), Pos2Z.inj_succ, (Pos2Z.inj_xI p).
    replace (Z.succ (Zpos (digits2_pos p)) - 1) with (Zpos (digits2_pos p)) by lia.
    rewrite (pow2_pos_step (digits2_pos p)) in *.
    revert IH. generalize (2 ^ (Zpos (digits2_pos p) - 1)). intros z IH. lia.
  - rewrite (pow2_pos_step (Pos.succ _)), Pos2Z.inj_succ, (Pos2Z.inj_xO p).
    replace (Z.succ (Zpos (digits2_pos p)) - 1) with (Zpos (digits2_pos p)) by lia.
    rewrite (pow2_pos_step (digits2_pos p)) in *.
    revert IH. generalize (2 ^ (Zpos (digits2_pos p) - 1)). intros z IH. lia.
  - simpl. lia.
Qed.

Lemma digits_le (p : positive) (k : Z) : 0 <= k -> Zpos p < 2 ^ k -> Zpos (digits2_pos p) <= k.
Proof.
  intros Hk H. destruct (digits_bounds p) as [L _].
  destruct (Z_le_gt_dec (Zpos (digits2_pos p)) k) as [|G]; trivial.
  assert (2 ^ k <= 2 ^ (Zpos (digits2_pos p) - 1)) by (apply Z.pow_le_mono_r; lia). lia.
Qed.

Lemma iter_pos_nat {A : Type} (f : A -> A) (p : positive) :
  forall x, iter_pos f p x = Nat.iter (Pos.to_nat p) f x.
Proof.
  induction p as [p IH|p IH|]; intros x; cbn [iter_pos].
  - rewrite !IH, Pos2Nat.inj_xI. cbn [Nat.mul]. rewrite Nat.add_0_r.
    rewrite Nat.iter_succ_r, Nat.iter_add. reflexivity.
  - rewrite !IH, Pos2Nat.inj_xO. cbn [Nat.mul]. rewrite Nat.add_0_r, Nat.iter_add.
    reflexivity.
  - reflexivity.
Qed.

Lemma shr_exact (n : nat) (q : positive) :
  Nat.iter n shr_1 (Build_shr_record (Zpos (shl q n)) false false)
  = Build_shr_record (Zpos q) false false.
Proof.
  induction n as [|n IH]; [reflexivity|].
  rewrite Nat.iter_succ_r. change (shl q (S n)) with (xO (shl q n)). exact IH.
Qed.

(** Rounding a mantissa of 53 digits followed by [n] zeros is exact. *)
Lemma round_aux_exact (sg : bool) (q : positive) (n : nat) (e : Z) :
  Zpos (digits2_pos q) = 53 -> -1074 <= e + Z.of_nat n <= 971 ->
  binary_round_aux prec emax sg (Zpos (shl q n)) e loc_Exact
  = S754_finite sg q (e + Z.of_nat n).
Proof.
  intros Hd He. unfold binary_round_aux, shr_fexp.
  cbn [Zdigits2 shr_record_of_loc]. rewrite digits_shl, Hd.
  replace (fexp prec emax (53 + Z.of_nat n + e) - e) with (Z.of_nat n)
    by (unfold fexp, emin, prec, emax; lia).
  assert (Hs : shr (Build_shr_record (Zpos (shl q n)) false false) e (Z.of_nat n)
               = (Build_shr_record (Zpos q) false false, e + Z.of_nat n)).
  { destruct n as [|n].
    - simpl. rewrite Z.add_0_r. reflexivity.
    - unfold shr. destruct (Z.of_nat (S n)) as [|p|p] eqn:E; try lia.
      rewrite iter_pos_nat. replace (Pos.to_nat p) with (S n) by lia.
      rewrite shr_exact. reflexivity. }
  rewrite Hs. cbn [shr_m loc_of_shr_record round_nearest_even Zdigits2 shr_record_of_loc].
  rewrite Hd.
  replace (fexp prec emax (53 + (e + Z.of_nat n)) - (e + Z.of_nat n)) with 0
    by (unfold fexp, emin, prec, emax; lia).
  cbn [shr shr_m].
  replace (e + Z.of_nat n <=? emax - prec) with true
    by (symmetry; apply Z.leb_le; unfold emax, prec; lia).
  reflexivity.
Qed.

(** The binary64 representation of a positive integer below 2^53: its digits
    shifted to the top of the 53-bit mantissa. *)
Definition canon (p : positive) : spec_float :=
  S754_finite false (shl p (Z.to_nat (53 - Zpos (digits2_pos p))))
              (Zpos (digits2_pos p) - 53).

Lemma round_aux_canon (r mz : positive) (ez : Z) :
  Zpos r < 2 ^ 53 -> ez <= Zpos (digits2_pos r) - 53 ->
  Zpos mz = Zpos r * 2 ^ (- ez) ->
  binary_round_aux prec emax false (Zpos mz) ez loc_Exact = canon r.
Proof.
  intros Hr He Hm. pose proof (digits_le r 53 ltac:(lia) Hr) as Hd.
  set (d := Zpos (digits2_pos r)) in *.
  assert (Hd1 : 1 <= d) by (unfold d; lia).
  set (q := shl r (Z.to_nat (53 - d))).
  set (n := Z.to_nat (d - 53 - ez)).
  assert (Hq : Zpos mz = Zpos (shl q n)).
  { rewrite Hm. unfold q, n. rewrite !shl_Z, !Z2Nat.id by lia.
    rewrite <- Z.mul_assoc, <- Z.pow_add_r by lia. f_equal. f_equal. lia. }
  rewrite Hq, round_aux_exact.
  - unfold canon. fold d. fold q. f_equal. unfold n. rewrite Z2Nat.id by lia. lia.
  - unfold q. rewrite digits_shl. fold d. rewrite Z2Nat.id by lia. lia.
  - unfold n. rewrite Z2Nat.id by lia. lia.
Qed.

Lemma iter_xO (m j : positive) : Pos.iter xO m j = shl m (Pos.to_nat j).
Proof. unfold shl. rewrite Pos2Nat.inj_iter. reflexivity. Qed.

Lemma round_canon (r : positive) (k : nat) :
  Zpos r < 2 ^ 53 ->
  binary_round prec emax false (shl r k) (- Z.of_nat k) = canon r.
Proof.
  intros Hr. pose proof (digits_le r 53 ltac:(lia) Hr) as Hd.
  unfold binary_round, shl_align. rewrite digits_shl.
  replace (fexp prec emax (Zpos (digits2_pos r) + Z.of_nat k + - Z.of_nat k))
    with (Zpos (digits2_pos r) - 53) by (unfold fexp, emin, prec, emax; lia).
  destruct (Zpos (digits2_pos r) - 53 - - Z.of_nat k) as [|j|j] eqn:E.
  - apply round_aux_canon; [exact Hr | lia |].
    rewrite shl_Z. f_equal. f_equal. lia.
  - apply round_aux_canon; [exact Hr | lia |].
    rewrite shl_Z. f_equal. f_equal. lia.
  - apply round_aux_canon; [exact Hr | lia |].
    rewrite iter_xO, !shl_Z, positive_nat_Z.
    rewrite <- Z.mul_assoc, <- Z.pow_add_r by lia. f_equal. f_equal. lia.
Qed.

Lemma of_Z_canon (p : positive) :
  Zpos p < 2 ^ 53 -> Prim2SF (Num.of_Z (Zpos p)) = canon p.
Proof.
  intros Hp. unfold Num.of_Z.
  rewrite of_uint63_spec, Uint63.of_Z_spec, Z.mod_small.
  - exact (round_canon p 0 Hp).
  - split; [lia|]. apply Z.lt_trans with (1 := Hp). reflexivity.
Qed.

Lemma pow2_lt_inv (x y : Z) : 0 <= y -> 2 ^ x < 2 ^ y -> x < y.
Proof. intros Hy H. apply (Z.pow_lt_mono_r_iff 2); trivial. lia. Qed.

Lemma mul_canon (a b : positive) :
  Zpos (a * b) < 2 ^ 53 -> SF64mul (canon a) (canon b) = canon (a * b).
Proof.
  intros H.
  assert (Ha : Zpos a < 2 ^ 53) by nia.
  assert (Hb : Zpos b < 2 ^ 53) by nia.
  pose proof (digits_le a 53 ltac:(lia) Ha) as Hda.
  pose proof (digits_le b 53 ltac:(lia) Hb) as Hdb.
  destruct (digits_bounds a) as [La _]. destruct (digits_bounds b) as [Lb _].
  assert (Hab : Zpos (digits2_pos a) + Zpos (digits2_pos b) - 2 < 53).
  { apply pow2_lt_inv; [lia|].
    replace (Zpos (digits2_pos a) + Zpos (digits2_pos b) - 2)
      with ((Zpos (digits2_pos a) - 1) + (Zpos (digits2_pos b) - 1)) by lia.
    rewrite Z.pow_add_r by lia.
    apply Z.le_lt_trans with (2 := H). rewrite Pos2Z.inj_mul.
    apply Z.mul_le_mono_nonneg; trivial; apply Z.pow_nonneg; lia. }
  unfold SF64mul, canon at 1 2. cbn [SFmul xorb].
  apply round_aux_canon; [exact H | lia |].
  rewrite !Pos2Z.inj_mul, !shl_Z, !Z2Nat.id by lia.
  replace (- (Zpos (digits2_pos a) - 53 + (Zpos (digits2_pos b) - 53)))
    with ((53 - Zpos (digits2_pos a)) + (53 - Zpos (digits2_pos b))) by lia.
  rewrite Z.pow_add_r by lia. ring.
Qed.

Lemma mul_of_Z (a b : positive) :
  Zpos (a * b) < 2 ^ 53 ->
  (Num.of_Z (Zpos a) * Num.of_Z (Zpos b))%float = Num.of_Z (Zpos (a * b)).
Proof.
  intros H. apply Prim2SF_inj.
  rewrite mul_spec, !of_Z_canon by nia. apply mul_canon, H.
Qed.

Lemma rem_of_Z (a b : positive) :
  Zpos a < 2 ^ 53 -> Zpos b < 2 ^ 53 ->
  Num.js_rem (Num.of_Z (Zpos a)) (Num.of_Z (Zpos b)) = Num.of_Z (Zpos a mod Zpos b).
Proof.
  intros Ha Hb.
  pose proof (digits_le a 53 ltac:(lia) Ha) as Hda.
  pose proof (digits_le b 53 ltac:(lia) Hb) as Hdb.
  unfold Num.js_rem. rewrite !of_Z_canon by assumption. unfold canon. cbv zeta.
  set (ea := Zpos (digits2_pos a) - 53). set (eb := Zpos (digits2_pos b) - 53).
  set (e := Z.min ea eb).
  assert (He : e <= ea /\ e <= eb /\ e <= 0) by (unfold e, ea, eb; lia).
  set (k := Z.to_nat (- e)).
  assert (Hk : Z.of_nat k = - e) by (unfold k; rewrite Z2Nat.id; lia).
  assert (HX : Zpos (shl a (Z.to_nat (53 - Zpos (digits2_pos a)))) * 2 ^ (ea - e)
               = Zpos a * 2 ^ Z.of_nat k).
  { rewrite shl_Z, Z2Nat.id by lia.
    rewrite <- Z.mul_assoc, <- Z.pow_add_r by lia. f_equal. f_equal. unfold ea in *. lia. }
  assert (HY : Zpos (shl b (Z.to_nat (53 - Zpos (digits2_pos b)))) * 2 ^ (eb - e)
               = Zpos b * 2 ^ Z.of_nat k).
  { rewrite shl_Z, Z2Nat.id by lia.
    rewrite <- Z.mul_assoc, <- Z.pow_add_r by lia. f_equal. f_equal. unfold eb in *. lia. }
  rewrite HX, HY.
  assert (H2 : 2 ^ Z.of_nat k <> 0) by (apply Z.pow_nonzero; lia).
  rewrite Z.mul_rem_distr_r by (trivial; lia).
  rewrite Z.rem_mod_nonneg by lia.
  pose proof (Z.mod_pos_bound (Zpos a) (Zpos b) ltac:(lia)) as Hm.
  destruct (Zpos a mod Zpos b) as [|r0|r0] eqn:Er; try lia.
  - reflexivity.
  - rewrite <- shl_Z. cbn [Z.eqb binary_normalize].
    replace e with (- Z.of_nat k) by lia.
    rewrite round_canon, <- of_Z_canon, SF2Prim_Prim2SF by lia. reflexivity.
Qed.

End F64Int.


(** * The operations on numbers, on values whose results JavaScript fixes *)

Module NumExamples.

Example rem_of_positive : Num.js_rem 5.5 2 = 1.5.
Proof. vm_compute. reflexivity. Qed.

Example rem_takes_the_sign_of_the_dividend :
  Num.js_rem (-7.5) 2 = -1.5 /\ Num.js_rem 5.5 (-2) = 1.5.
Proof. split; vm_compute; reflexivity. Qed.

Example rem_is_exact : Num.js_rem 1e22 7 = 4 /\ Num.js_rem 0.3 0.1 = 0.09999999999999998.
Proof. split; vm_compute; reflexivity. Qed.

Example rem_of_a_multiple_keeps_the_sign :
  Prim2SF (Num.js_rem (-4) 2) = S754_zero true /\ Prim2SF (Num.js_rem 4 2) = S754_zero false.
Proof. split; vm_compute; reflexivity. Qed.

Example rem_without_a_result :
  is_nan (Num.js_rem 1 0) = true /\ is_nan (Num.js_rem infinity 2) = true
  /\ Num.js_rem 2 infinity = 2.
Proof. repeat split. Qed.

Example first_state_of_seed_77 : MapGenerator.next 77 = 1294139.
Proof. vm_compute. reflexivity. Qed.

Example min_max_of_zeros :
  Prim2SF (Num.js_min zero neg_zero) = S754_zero true
  /\ Prim2SF (Num.js_max neg_zero zero) = S754_zero false.
Proof. split; reflexivity. Qed.

Example min_max_of_nan :
  is_nan (Num.js_min 1 nan) = true /\ is_nan (Num.js_max nan 1) = true.
Proof. split; reflexivity. Qed.

Example third_lines : map Num.third (seq 0 8) = [true; false; false; true; false; false; true; false].
Proof. reflexivity. Qed.

(** The lattice lines of the 1200 x 1200 map: the product rounds on three. *)
Example lattice_lines_1200 :
  map (fun f => f * 1200) MapGenerator.hYs
  = [72; 168.00000000000003; 264; 360; 456; 552; 648; 744; 840; 936; 1032; 1128]
  /\ map (fun f => f * 1200) MapGenerator.vXs = [96; 240; 384; 528; 672.0000000000001; 816.0000000000001; 960; 1104].
Proof. split; vm_compute; reflexivity. Qed.

End NumExamples.

(** * The router *)

Module RouterSpec.
Import Router.

(** The lattice lines of a grid: each stored fraction times the extent, as
    [buildGridRoute] computes them. *)
Definition lines (fracs : list float) (scale : float) : list float :=
  map (fun f => f * scale) fracs.

(** The distance the router compares: [Math.abs(line - target)]. *)
Definition dist (target l : float) : float := abs (l - target).

(** [best] is the nearest line to [target], the first one in lattice order
    among those equally near: no line is nearer, and every line before it
    is strictly farther. *)
Definition nearest_first (ls : list float) (target best : float) : Prop :=
  exists i, nth_error ls i = Some best
    /\ (forall j l, nth_error ls j = Some l -> (dist target best <=? dist target l) = true)
    /\ (forall j l, (j < i)%nat -> nth_error ls j = Some l ->
                    (dist target best <? dist target l) = true).

(** The scan of [nearest] over the lines themselves. *)
Definition scan (target : float) (ls : list float) (best : float) : float :=
  fold_left (fun b l => if dist target l <? dist target b then l else b) ls best.

(** Two values match within the tolerance 1e-6. *)
Definition near (a b : float) : bool := abs (a - b) <=? 1e-6.

(** The points strictly between the first and the last. *)
Definition interior {A : Type} (l : list A) : list A := removelast (tl l).

(** The waypoints of a route given the four snapped lines. *)
Definition waypoints (sx sy ex ey vRoad1 hMid vRoad2 hEnd : float) : list Point.t :=
  [Point.mk sx sy]
  ++ (if Num.gtb (abs (vRoad1 - sx)) 3 then [Point.mk vRoad1 sy] else [])
  ++ [Point.mk vRoad1 hMid; Point.mk vRoad2 hMid]
  ++ (if Num.gtb (abs (hEnd - hMid)) 20
      then Point.mk vRoad2 hEnd
           :: (if Num.gtb (abs (vRoad2 - ex)) 3 then [Point.mk ex hEnd] else [])
      else [])
  ++ [Point.mk ex ey].

Lemma nearest_scan (fracs : list float) (scale target : float) :
  nearest fracs scale target
  = scan target (lines fracs scale) (nth 0 fracs nan * scale).
Proof.
  unfold nearest, scan, lines. generalize (nth 0 fracs nan * scale).
  induction fracs as [|f fracs IH]; intros b; simpl; [reflexivity|].
  rewrite IH. reflexivity.
Qed.

Lemma scan_in (target : float) (ls : list float) :
  forall best, In (scan target ls best) (best :: ls).
Proof.
  unfold scan. induction ls as [|l ls IH]; intros best; simpl; [auto|].
  destruct (dist target l <? dist target best);
    destruct (IH l) as [H|H]; destruct (IH best) as [H'|H']; auto.
Qed.

Lemma nearest_in (fracs : list float) (scale target : float) :
  fracs <> [] -> In (nearest fracs scale target) (lines fracs scale).
Proof.
  intros Hne. rewrite nearest_scan.
  destruct fracs as [|f fracs]; [congruence|]. simpl nth.
  destruct (scan_in target (lines (f :: fracs) scale) (f * scale)) as [H|H].
  - rewrite <- H. left. reflexivity.
  - exact H.
Qed.

Lemma ltb_irrefl (a : float) : (a <? a) = false.
Proof.
  rewrite ltb_spec. unfold SFltb.
  pose proof (F64.SFcompare_antisym (Prim2SF a) (Prim2SF a)) as E.
  destruct (SFcompare (Prim2SF a) (Prim2SF a)) as [[]|]; simpl in E; congruence.
Qed.

(** The invariant of the scan: [best] is the first nearest line of the
    lines seen so far. *)
Lemma scan_nearest_first (target : float) (ls : list float) :
  forall (seen : list float) (best : float),
    (forall l, In l (seen ++ ls) -> F64.numeric (dist target l)) ->
    nearest_first seen target best ->
    nearest_first (seen ++ ls) target (scan target ls best).
Proof.
  induction ls as [|c ls IH]; intros seen best Hnum Hbest.
  - rewrite app_nil_r. exact Hbest.
  - replace (seen ++ c :: ls) with ((seen ++ [c]) ++ ls) in *
      by (rewrite <- app_assoc; reflexivity).
    unfold scan. simpl fold_left. fold (scan target ls).
    destruct Hbest as (i & Hi & Hle & Hlt).
    assert (Hi' : (i < length seen)%nat) by (apply nth_error_Some; congruence).
    assert (Nc : F64.numeric (dist target c))
      by (apply Hnum, in_or_app; left; apply in_or_app; right; left; reflexivity).
    destruct (dist target c <? dist target best) eqn:Hcmp; apply IH; trivial.
    + exists (length seen). split; [|split].
      * rewrite nth_error_app2, Nat.sub_diag by lia. reflexivity.
      * intros j l Hj.
        destruct (Nat.lt_ge_cases j (length seen)) as [Hlen|Hlen].
        -- rewrite nth_error_app1 in Hj by trivial.
           apply F64.ltb_leb, (F64.ltb_leb_trans _ _ _ Hcmp), (Hle j l Hj).
        -- rewrite nth_error_app2 in Hj by trivial.
           destruct (j - length seen)%nat as [|[|k]]; simpl in Hj; try discriminate.
           injection Hj as <-. apply F64.leb_refl, Nc.
      * intros j l Hlen Hj. rewrite nth_error_app1 in Hj by trivial.
        apply (F64.ltb_leb_trans _ _ _ Hcmp), (Hle j l Hj).
    + exists i. split; [|split].
      * rewrite nth_error_app1 by trivial. exact Hi.
      * intros j l Hj.
        destruct (Nat.lt_ge_cases j (length seen)) as [Hlen|Hlen].
        -- rewrite nth_error_app1 in Hj by trivial. apply (Hle j l Hj).
        -- rewrite nth_error_app2 in Hj by trivial.
           destruct (j - length seen)%nat as [|[|k]]; simpl in Hj; try discriminate.
           injection Hj as <-. apply F64.not_ltb_leb; trivial.
           apply Hnum, in_or_app. left. apply in_or_app. left.
           apply (nth_error_In _ _ Hi).
      * intros j l Hji Hj. rewrite nth_error_app1 in Hj by lia. apply (Hlt j l Hji Hj).
Qed.

(** [nearestVX] and [nearestHY] return the nearest line, the first one on a
    tie, when every compared distance is a number. *)
Lemma nearest_is_nearest_first (fracs : list float) (scale target : float) :
  fracs <> [] ->
  (forall l, In l (lines fracs scale) -> F64.numeric (dist target l)) ->
  nearest_first (lines fracs scale) target (nearest fracs scale target).
Proof.
  intros Hne Hnum. rewrite nearest_scan.
  destruct fracs as [|f fracs]; [congruence|]. simpl nth.
  change (lines (f :: fracs) scale) with ([f * scale] ++ lines fracs scale) in *.
  replace (scan target ([f * scale] ++ lines fracs scale) (f * scale))
    with (scan target (lines fracs scale) (f * scale))
    by (unfold scan; simpl; rewrite ltb_irrefl; reflexivity).
  apply scan_nearest_first; trivial.
  exists 0%nat. split; [reflexivity|split].
  - intros [|[|j]] l Hj; simpl in Hj; try discriminate. injection Hj as <-.
    apply F64.leb_refl, Hnum. left. reflexivity.
  - intros j l Hj. lia.
Qed.

(** The route is the waypoint list of the four snapped lines. *)
Lemma buildGridRoute_waypoints (sx sy ex ey : float) (hYs vXs : list float)
    (mapW mapH : float) :
  buildGridRoute sx sy ex ey hYs vXs mapW mapH
  = waypoints sx sy ex ey
      (nearest vXs mapW sx) (nearest hYs mapH ((sy + ey) * 0.45))
      (nearest vXs mapW ex) (nearest hYs mapH ey).
Proof.
  unfold buildGridRoute, waypoints.
  destruct (Num.gtb (abs (nearest vXs mapW sx - sx)) 3);
    destruct (Num.gtb (abs (nearest hYs mapH ey
                            - nearest hYs mapH ((sy + ey) * 0.45))) 20);
    destruct (Num.gtb (abs (nearest vXs mapW ex - ex)) 3); reflexivity.
Qed.

(** Four points are always there and three more may be. *)
Lemma route_length (sx sy ex ey : float) (hYs vXs : list float) (mapW mapH : float) :
  (4 <= length (buildGridRoute sx sy ex ey hYs vXs mapW mapH) <= 7)%nat.
Proof.
  rewrite buildGridRoute_waypoints. unfold waypoints.
  repeat match goal with |- context [if ?b then _ else _] => destruct b end;
    simpl; lia.
Qed.

Lemma near_in (v : float) (ls : list float) :
  In v ls -> F64.finite v -> existsb (near v) ls = true.
Proof.
  intros Hin Hfin. apply existsb_exists. exists v. split; trivial.
  apply F64.abs_sub_diag_le; trivial.
Qed.

End RouterSpec.

Module RouterProps.
Import Router RouterSpec.

(** The route [renderNavRoute] draws first: from (580, 850) to (260, 120) on
    the grid of the 1200 x 1200 map. *)
Definition reference_route : list Point.t :=
  let grid := MapGenerator.createFixedRoadGrid 1200 1200 in
  buildGridRoute 580 850 260 120 (Grid.hYs grid) (Grid.vXs grid) 1200 1200.

Example reference_route_points :
  reference_route
  = [Point.mk 580 850; Point.mk 528 850; Point.mk 528 456; Point.mk 240 456;
     Point.mk 240 72; Point.mk 260 72; Point.mk 260 120].
Proof. vm_compute. reflexivity. Qed.

(** C1 fails as stated: the route from (580, 850) to (260, 120) on the
    1200 x 1200 grid, the first one the program draws, has 7 points, beyond
    the claimed bound of 6. *)
Lemma reference_route_has_seven_points :
  ~ (2 <= length reference_route <= 6)%nat.
Proof.
  rewrite reference_route_points. simpl. lia.
Qed.

(** C1 (amended): for every start, end, grid and extent, [buildGridRoute]
    returns between 2 and 7 points inclusive. *)
Theorem route_length_bounds (sx sy ex ey : float) (hYs vXs : list float)
    (mapW mapH : float) :
  (2 <= length (buildGridRoute sx sy ex ey hYs vXs mapW mapH) <= 7)%nat.
Proof.
  pose proof (route_length sx sy ex ey hYs vXs mapW mapH). lia.
Qed.

(** The shortest routes have 4 points: a start and an end on lattice lines
    close together. *)
Example shortest_route :
  length (buildGridRoute 96 72 96 72 MapGenerator.hYs MapGenerator.vXs 1200 1200)
  = 4%nat.
Proof. vm_compute. reflexivity. Qed.

(** C2: on a grid with lattice lines (finite numbers), the route starts
    exactly at the requested start, ends exactly at the requested end, and
    every interior point has its x within 1e-6 of a vertical lattice line or
    its y within 1e-6 of a horizontal lattice line. *)
Theorem route_snaps_to_lattice (sx sy ex ey : float) (hYs vXs : list float)
    (mapW mapH : float) :
  hYs <> [] -> vXs <> [] ->
  (forall l, In l (lines vXs mapW) -> F64.finite l) ->
  (forall l, In l (lines hYs mapH) -> F64.finite l) ->
  let route := buildGridRoute sx sy ex ey hYs vXs mapW mapH in
  hd_error route = Some (Point.mk sx sy)
  /\ nth_error route (length route - 1) = Some (Point.mk ex ey)
  /\ forall p, In p (interior route) ->
       existsb (near (Point.x p)) (lines vXs mapW) = true
       \/ existsb (near (Point.y p)) (lines hYs mapH) = true.
Proof.
  intros Hh Hv Fv Fh route. subst route.
  rewrite buildGridRoute_waypoints. unfold waypoints.
  pose proof (nearest_in vXs mapW sx Hv) as V1.
  pose proof (nearest_in vXs mapW ex Hv) as V2.
  pose proof (nearest_in hYs mapH ey Hh) as H2.
  assert (X1 := near_in _ _ V1 (Fv _ V1)).
  assert (X2 := near_in _ _ V2 (Fv _ V2)).
  assert (Y2 := near_in _ _ H2 (Fh _ H2)).
  repeat match goal with |- context [if ?b then _ else _] => destruct b end;
    (split; [reflexivity | split; [reflexivity|]]);
    unfold interior; simpl; intros p Hp;
    repeat (destruct Hp as [<-|Hp]; [simpl; auto|]); contradiction.
Qed.

Lemma route_snaps_to_lattice_witness :
  hd_error reference_route = Some (Point.mk 580 850)
  /\ nth_error reference_route (length reference_route - 1) = Some (Point.mk 260 120)
  /\ forall p, In p (interior reference_route) ->
       existsb (near (Point.x p)) (lines MapGenerator.vXs 1200) = true
       \/ existsb (near (Point.y p)) (lines MapGenerator.hYs 1200) = true.
Proof.
  apply (route_snaps_to_lattice 580 850 260 120 MapGenerator.hYs MapGenerator.vXs
           1200 1200).
  - discriminate.
  - discriminate.
  - intros l H. simpl in H.
    repeat (destruct H as [<-|H]; [reflexivity|]). contradiction.
  - intros l H. simpl in H.
    repeat (destruct H as [<-|H]; [reflexivity|]). contradiction.
Defined.

Lemma dist_numeric (target l : float) :
  F64.finite l -> F64.numeric target -> F64.numeric (dist target l).
Proof.
  intros Hl Ht. apply F64.abs_numeric, F64.sub_numeric; trivial.
Qed.

(** C3: on a grid with lattice lines (finite numbers) and for coordinates
    that are numbers, the route is the waypoint list of [vRoad1], [hMid],
    [vRoad2] and [hEnd], where [vRoad1] is the vertical line nearest to
    [start.x] (the first one on a tie), [hMid] the horizontal line nearest
    to [0.45 * (start.y + end.y)], [vRoad2] the vertical line nearest to
    [end.x] and [hEnd] the horizontal line nearest to [end.y]; the list has
    [(vRoad1, start.y)] exactly when [|vRoad1 - start.x| > 3],
    [(vRoad2, hEnd)] exactly when [|hEnd - hMid| > 20], and then
    [(end.x, hEnd)] exactly when [|vRoad2 - end.x| > 3]. *)
Theorem route_waypoint_selection (sx sy ex ey : float) (hYs vXs : list float)
    (mapW mapH : float) :
  hYs <> [] -> vXs <> [] ->
  (forall l, In l (lines vXs mapW) -> F64.finite l) ->
  (forall l, In l (lines hYs mapH) -> F64.finite l) ->
  F64.numeric sx -> F64.numeric ex -> F64.numeric ey ->
  F64.numeric (0.45 * (sy + ey)) ->
  exists vRoad1 hMid vRoad2 hEnd,
    nearest_first (lines vXs mapW) sx vRoad1
    /\ nearest_first (lines hYs mapH) (0.45 * (sy + ey)) hMid
    /\ nearest_first (lines vXs mapW) ex vRoad2
    /\ nearest_first (lines hYs mapH) ey hEnd
    /\ buildGridRoute sx sy ex ey hYs vXs mapW mapH
       = [Point.mk sx sy]
         ++ (if 3 <? abs (vRoad1 - sx) then [Point.mk vRoad1 sy] else [])
         ++ [Point.mk vRoad1 hMid; Point.mk vRoad2 hMid]
         ++ (if 20 <? abs (hEnd - hMid)
             then Point.mk vRoad2 hEnd
                  :: (if 3 <? abs (vRoad2 - ex) then [Point.mk ex hEnd] else [])
             else [])
         ++ [Point.mk ex ey].
Proof.
  intros Hh Hv Fv Fh Nsx Nex Ney Nmid.
  exists (nearest vXs mapW sx), (nearest hYs mapH (0.45 * (sy + ey))),
         (nearest vXs mapW ex), (nearest hYs mapH ey).
  repeat split;
    try (apply nearest_is_nearest_first; trivial;
         intros l Hl; apply dist_numeric; auto).
  rewrite buildGridRoute_waypoints, (F64.mul_comm (sy + ey) 0.45). reflexivity.
Qed.

Lemma route_waypoint_selection_witness :
  exists vRoad1 hMid vRoad2 hEnd,
    nearest_first (lines MapGenerator.vXs 1200) 580 vRoad1
    /\ nearest_first (lines MapGenerator.hYs 1200) (0.45 * (850 + 120)) hMid
    /\ nearest_first (lines MapGenerator.vXs 1200) 260 vRoad2
    /\ nearest_first (lines MapGenerator.hYs 1200) 120 hEnd
    /\ buildGridRoute 580 850 260 120 MapGenerator.hYs MapGenerator.vXs 1200 1200
       = [Point.mk 580 850]
         ++ (if 3 <? abs (vRoad1 - 580) then [Point.mk vRoad1 850] else [])
         ++ [Point.mk vRoad1 hMid; Point.mk vRoad2 hMid]
         ++ (if 20 <? abs (hEnd - hMid)
             then Point.mk vRoad2 hEnd
                  :: (if 3 <? abs (vRoad2 - 260) then [Point.mk 260 hEnd] else [])
             else [])
         ++ [Point.mk 260 120].
Proof.
  apply (route_waypoint_selection 580 850 260 120 MapGenerator.hYs MapGenerator.vXs
           1200 1200); try discriminate; try reflexivity.
  - intros l H. simpl in H.
    repeat (destruct H as [<-|H]; [reflexivity|]). contradiction.
  - intros l H. simpl in H.
    repeat (destruct H as [<-|H]; [reflexivity|]). contradiction.
Defined.

(** C10: for every input the route contains the two waypoints
    [(vRoad1, hMid)] and [(vRoad2, hMid)] one after the other, so it has at
    least 4 points; and when [start.x] and [end.x] snap to the same vertical
    line the two are equal, so the route has two equal consecutive points. *)
Theorem route_has_both_turns (sx sy ex ey : float) (hYs vXs : list float)
    (mapW mapH : float) :
  let vRoad1 := nearest vXs mapW sx in
  let vRoad2 := nearest vXs mapW ex in
  let hMid := nearest hYs mapH ((sy + ey) * 0.45) in
  let route := buildGridRoute sx sy ex ey hYs vXs mapW mapH in
  (exists before after,
      route = before ++ [Point.mk vRoad1 hMid; Point.mk vRoad2 hMid] ++ after)
  /\ (4 <= length route)%nat
  /\ (vRoad1 = vRoad2 ->
      exists before p after, route = before ++ [p; p] ++ after).
Proof.
  intros vRoad1 vRoad2 hMid route.
  assert (E : exists before after,
             route = before ++ [Point.mk vRoad1 hMid; Point.mk vRoad2 hMid] ++ after).
  { subst route. rewrite buildGridRoute_waypoints. unfold waypoints.
    fold vRoad1 vRoad2 hMid.
    eexists ([Point.mk sx sy] ++ _), _. rewrite <- app_assoc. reflexivity. }
  split; [exact E|split].
  - apply route_length.
  - intros Heq. destruct E as (before & after & E).
    exists before, (Point.mk vRoad1 hMid), after. rewrite E, Heq. reflexivity.
Qed.

(** The degenerate case happens: both ends snapping to the line x = 528. *)
Example degenerate_route :
  buildGridRoute 520 850 530 120 MapGenerator.hYs MapGenerator.vXs 1200 1200
  = [Point.mk 520 850; Point.mk 528 850; Point.mk 528 456; Point.mk 528 456;
     Point.mk 528 72; Point.mk 530 120].
Proof. vm_compute. reflexivity. Qed.

End RouterProps.

(** * The map generator *)

Module MapGeneratorProps.
Import MapGenerator.

(** ** The road grid *)

(** The segment drawn along the horizontal lattice line [y]. *)
Definition horizontal (mapW y : float) (isMain : bool) : Road.t :=
  Road.mk [Point.mk (-50) y; Point.mk (mapW + 50) y] (if isMain then 8 else 3) isMain.

(** The segment drawn along the vertical lattice line [x]. *)
Definition vertical (mapH x : float) (isMain : bool) : Road.t :=
  Road.mk [Point.mk x (-50); Point.mk x (mapH + 50)] (if isMain then 7 else 2.5) isMain.

Lemma hRoad_horizontal (mapW mapH frac : float) (i : nat) :
  hRoad mapW mapH frac i = horizontal mapW (frac * mapH) (Nat.eqb (i mod 3) 0).
Proof.
  unfold hRoad, horizontal, Num.third. rewrite (F64.mul_comm mapH frac). reflexivity.
Qed.

Lemma vRoad_vertical (mapW mapH frac : float) (i : nat) :
  vRoad mapW mapH frac i = vertical mapH (frac * mapW) (Nat.eqb (i mod 3) 0).
Proof.
  unfold vRoad, vertical, Num.third. rewrite (F64.mul_comm mapW frac). reflexivity.
Qed.

(** C5: the grid of an extent has the 12 fixed horizontal fractions and the 8
    fixed vertical ones, whatever the extent; its 22 segments are, in order,
    one horizontal segment per horizontal lattice line (the i-th segment on
    the i-th line [frac * mapH], from x = -50 to x = mapW + 50), one vertical
    segment per vertical lattice line (segment 12 + j on the j-th line
    [frac * mapW], from y = -50 to y = mapH + 50), and the two angled ones;
    a line is main exactly when its index is a multiple of 3. *)
Theorem road_grid_structure (mapW mapH : float) :
  let grid := createFixedRoadGrid mapW mapH in
  Grid.hYs grid
  = [0.06; 0.14; 0.22; 0.30; 0.38; 0.46; 0.54; 0.62; 0.70; 0.78; 0.86; 0.94]
  /\ Grid.vXs grid = [0.08; 0.20; 0.32; 0.44; 0.56; 0.68; 0.80; 0.92]
  /\ length (Grid.hYs grid) = 12%nat
  /\ length (Grid.vXs grid) = 8%nat
  /\ length (Grid.roads grid) = 22%nat
  /\ (forall i frac, nth_error (Grid.hYs grid) i = Some frac ->
        nth_error (Grid.roads grid) i
        = Some (horizontal mapW (frac * mapH) (Nat.eqb (i mod 3) 0)))
  /\ (forall j frac, nth_error (Grid.vXs grid) j = Some frac ->
        nth_error (Grid.roads grid) (12 + j)
        = Some (vertical mapH (frac * mapW) (Nat.eqb (j mod 3) 0)))
  /\ nth_error (Grid.roads grid) 20
     = Some (Road.mk [Point.mk (mapW * 0.08) (mapH * 0.08);
                      Point.mk (mapW * 0.55) (mapH * 0.42)] 4 false)
  /\ nth_error (Grid.roads grid) 21
     = Some (Road.mk [Point.mk (mapW * 0.65) (mapH * 0.15);
                      Point.mk (mapW * 0.88) (mapH * 0.65)] 3.5 false).
Proof.
  cbv zeta.
  split; [reflexivity|]. split; [reflexivity|]. split; [reflexivity|].
  split; [reflexivity|]. split; [reflexivity|].
  split; [|split; [|split; reflexivity]].
  - intros i frac H. cbn [createFixedRoadGrid Grid.hYs hYs] in H.
    do 12 (destruct i as [|i];
           [injection H as <-;
            cbn [createFixedRoadGrid Grid.roads mapi mapi_from hYs vXs app nth_error];
            apply f_equal, hRoad_horizontal|]; cbn [nth_error] in H).
    destruct i; discriminate.
  - intros j frac H. cbn [createFixedRoadGrid Grid.vXs vXs] in H.
    do 8 (destruct j as [|j];
          [injection H as <-;
           cbn [createFixedRoadGrid Grid.roads mapi mapi_from hYs vXs app nth_error
                Nat.add];
           apply f_equal, vRoad_vertical|]; cbn [nth_error] in H).
    destruct j; discriminate.
Qed.

(** On the 1200 x 1200 map of the navigation screen the lattice lines are
    pairwise distinct, so each line carries exactly one segment of the grid. *)
Definition same_points (a b : list Point.t) : bool :=
  Nat.eqb (length a) (length b)
  && forallb (fun pq => Leibniz.eqb (Point.x (fst pq)) (Point.x (snd pq))
                        && Leibniz.eqb (Point.y (fst pq)) (Point.y (snd pq)))
             (combine a b).

Definition segments_on (pts : list Point.t) (roads : list Road.t) : nat :=
  length (filter (fun r => same_points (Road.points r) pts) roads).

Example one_segment_per_line_1200 :
  let grid := createFixedRoadGrid 1200 1200 in
  forallb (fun frac =>
             Nat.eqb (segments_on [Point.mk (-50) (frac * 1200); Point.mk 1250 (frac * 1200)]
                                  (Grid.roads grid)) 1) (Grid.hYs grid)
  && forallb (fun frac =>
                Nat.eqb (segments_on [Point.mk (frac * 1200) (-50); Point.mk (frac * 1200) 1250]
                                     (Grid.roads grid)) 1) (Grid.vXs grid)
  = true.
Proof. vm_compute. reflexivity. Qed.

(** ** The buildings *)

(** The state of the generator after [k] draws. *)
Definition state_after (seed : float) (k : nat) : float := Nat.iter k next seed.

(** The [k]-th draw (from 0) of the generator seeded with [seed]. *)
Definition draw (seed : float) (k : nat) : float :=
  (state_after seed (S k) - 1) / 2147483646.

(** The building made of eight consecutive draws, the first being draw [k]. *)
Definition building_of_draws (mapW mapH seed : float) (k : nat) : Building.t :=
  Building.mk (draw seed k * (mapW + 80) - 40)
              (draw seed (k + 1) * (mapH + 80) - 40)
              (12 + draw seed (k + 2) * 50)
              (12 + draw seed (k + 3) * 40)
              (Building.mkHsl (215 + draw seed (k + 4) * 25)
                              (12 + draw seed (k + 5) * 12)
                              (10 + draw seed (k + 6) * 10))
              (0.65 <? draw seed (k + 7)).

Lemma state_after_add (seed : float) (a b : nat) :
  state_after (state_after seed a) b = state_after seed (a + b).
Proof.
  unfold state_after. rewrite Nat.add_comm. symmetry. apply Nat.iter_add.
Qed.

Lemma draw_shift (seed : float) (a k : nat) :
  draw (state_after seed a) k = draw seed (a + k).
Proof.
  unfold draw. rewrite state_after_add, Nat.add_succ_r. reflexivity.
Qed.

Lemma building_draws (mapW mapH s : float) :
  building mapW mapH s = (building_of_draws mapW mapH s 0, state_after s 8).
Proof.
  cbv [building rng building_of_draws draw state_after Nat.iter nat_rect Nat.add
       Num.gtb].
  reflexivity.
Qed.

Lemma buildings_loop_S (n : nat) (mapW mapH s : float) :
  buildings_loop (S n) mapW mapH s
  = building_of_draws mapW mapH s 0 :: buildings_loop n mapW mapH (state_after s 8).
Proof.
  cbn [buildings_loop]. rewrite building_draws. reflexivity.
Qed.

Lemma buildings_loop_length (n : nat) (mapW mapH : float) :
  forall s, length (buildings_loop n mapW mapH s) = n.
Proof.
  induction n as [|n IH]; intros s; [reflexivity|].
  rewrite buildings_loop_S. cbn [length]. rewrite IH. reflexivity.
Qed.

Lemma buildings_loop_nth (n : nat) (mapW mapH : float) :
  forall s i, (i < n)%nat ->
    nth_error (buildings_loop n mapW mapH s) i
    = Some (building_of_draws mapW mapH s (8 * i)).
Proof.
  induction n as [|n IH]; intros s i Hi; [lia|].
  rewrite buildings_loop_S.
  destruct i as [|i]; [reflexivity|].
  cbn [nth_error]. rewrite IH by lia.
  unfold building_of_draws. rewrite !draw_shift.
  replace (8 * S i)%nat with (8 + 8 * i)%nat by lia.
  rewrite <- !Nat.add_assoc. reflexivity.
Qed.

(** C4: [createFixedBuildings] is a function of the extent and the seed alone;
    it yields exactly 110 buildings, and the [i]-th one is made of the draws
    [8 i] to [8 i + 7] of the generator [s := (s * 16807) % 2147483647] started
    at the seed, each draw being [(s - 1) / 2147483646]: position, size,
    colour, and the lit flag, which is true exactly when its draw exceeds
    0.65. *)
Theorem buildings_follow_generator (mapW mapH seed : float) :
  let buildings := createFixedBuildings mapW mapH seed in
  length buildings = 110%nat
  /\ (forall k, state_after seed (S k)
                = Num.js_rem (state_after seed k * 16807) 2147483647)
  /\ state_after seed 0 = seed
  /\ (forall i, (i < 110)%nat ->
        nth_error buildings i = Some (building_of_draws mapW mapH seed (8 * i)))
  /\ (forall i b, nth_error buildings i = Some b ->
        Building.lit b = true <-> (0.65 <? draw seed (8 * i + 7)) = true).
Proof.
  unfold createFixedBuildings.
  assert (Hlt : forall i b, nth_error (buildings_loop 110 mapW mapH seed) i = Some b ->
                            (i < 110)%nat).
  { intros i b H. rewrite <- (buildings_loop_length 110 mapW mapH seed).
    apply nth_error_Some. congruence. }
  split; [apply buildings_loop_length|].
  split; [intros k; reflexivity|].
  split; [reflexivity|].
  split; [intros i Hi; apply buildings_loop_nth, Hi|].
  intros i b H.
  rewrite (buildings_loop_nth 110 mapW mapH seed i (Hlt i b H)) in H.
  injection H as <-. reflexivity.
Qed.

(** The Park-Miller generator on the integers. *)
Definition lehmer (s : Z) : Z := ((s * 16807) mod 2147483647)%Z.

(** One step of the generator on an integer state is the Lehmer step: the
    product stays below 2^46 and the remainder is exact. *)
Lemma next_of_Z (s : Z) :
  (0 <= s < 2147483647)%Z -> next (Num.of_Z s) = Num.of_Z (lehmer s).
Proof.
  intros Hs. unfold next, lehmer.
  destruct s as [|p|p]; try lia.
  - reflexivity.
  - change 16807 with (Num.of_Z 16807).
    change 2147483647 with (Num.of_Z 2147483647).
    assert (Hp : (Zpos (p * 16807) < 2 ^ 53)%Z).
    { rewrite Pos2Z.inj_mul.
      apply Z.lt_trans with (2147483647 * 16807)%Z; [lia | reflexivity]. }
    rewrite F64Int.mul_of_Z by exact Hp.
    rewrite F64Int.rem_of_Z; [reflexivity | exact Hp | reflexivity].
Qed.

Lemma lehmer_range (s : Z) : (0 <= lehmer s < 2147483647)%Z.
Proof. unfold lehmer. apply Z.mod_pos_bound. lia. Qed.

(** For every integer seed of the generator's range, the binary64 states of
    the program are the states of the integer generator, at every step. *)
Lemma lehmer_states (seed : Z) (k : nat) :
  (0 <= seed < 2147483647)%Z ->
  state_after (Num.of_Z seed) k = Num.of_Z (Nat.iter k lehmer seed)
  /\ (0 <= Nat.iter k lehmer seed < 2147483647)%Z.
Proof.
  intros Hs. induction k as [|k [IH R]]; [split; [reflexivity | exact Hs]|].
  split; [|apply lehmer_range].
  unfold state_after in *. cbn [Nat.iter nat_rect].
  change (nat_rect _ ?x (fun _ => ?f) ?n) with (Nat.iter n f x).
  rewrite IH. apply next_of_Z, R.
Qed.

(** In particular for the two seeds the program uses, 42 on the home screen
    and 77 on the navigation screen. *)
Lemma lehmer_states_of_the_program (k : nat) :
  state_after 42 k = Num.of_Z (Nat.iter k lehmer 42%Z)
  /\ state_after 77 k = Num.of_Z (Nat.iter k lehmer 77%Z).
Proof.
  split.
  - change 42 with (Num.of_Z 42). apply lehmer_states. lia.
  - change 77 with (Num.of_Z 77). apply lehmer_states. lia.
Qed.

(** Of the 110 buildings of the navigation map, 32 are lit. *)
Example lit_buildings_of_the_map :
  length (filter Building.lit (createFixedBuildings 1200 1200 77)) = 32%nat.
Proof. vm_compute. reflexivity. Qed.

(** The first building of the home screen's map of a 1200 x 1200 extent. *)
Example first_building_seed_42 :
  option_map Building.x (hd_error (createFixedBuildings 1200 1200 42))
  = Some ((Num.of_Z (lehmer 42%Z) - 1) / 2147483646 * (1200 + 80) - 40).
Proof. vm_compute. reflexivity. Qed.

End MapGeneratorProps.

(** * The camera *)

Module CameraProps.
Import App.










End CameraProps.

(** * The GPS drift *)

Module DriftProps.
Import App.

(** [v] clamped to [lo, hi]. *)
Definition clamp (lo hi v : float) : float :=
  if hi <? v then hi else if v <? lo then lo else v.

Definition within (lo hi v : float) : Prop :=
  (lo <=? v) = true /\ (v <=? hi) = true.

(** The stored drift lies in [-100, 100] x [-150, 150]. *)
Definition bounded (s : state) : Prop :=
  within (-100) 100 (gpsOffsetX s) /\ within (-150) 150 (gpsOffsetY s).

Definition numeric_point (p : Point.t) : Prop :=
  F64.numeric (Point.x p) /\ F64.numeric (Point.y p).

Lemma ltb_asym (a b : float) : (a <? b) = true -> (b <? a) = false.
Proof.
  rewrite !ltb_spec. unfold SFltb.
  rewrite (F64.SFcompare_antisym (Prim2SF a) (Prim2SF b)).
  destruct (SFcompare (Prim2SF a) (Prim2SF b)) as [[]|]; simpl; congruence.
Qed.

(** [Math.max(lo, Math.min(hi, v))] on a number [v], for bounds [lo < hi]
    that are not zeros (negative [lo], positive [hi]). *)
Lemma max_min_clamp (lo hi v : float) :
  (lo <? hi) = true -> get_sign lo = true -> get_sign hi = false ->
  F64.numeric v ->
  Num.js_max lo (Num.js_min hi v) = clamp lo hi v /\ within lo hi (clamp lo hi v).
Proof.
  intros Hlh Slo Shi Nv.
  destruct (F64.ltb_numeric lo hi Hlh) as [Nlo Nhi].
  unfold Num.js_min, Num.js_max, clamp, within.
  unfold F64.numeric in Nlo, Nhi, Nv. rewrite Nhi, Nv. cbn [orb].
  destruct (hi <? v) eqn:Hhv.
  - rewrite Nlo, Nhi, Hlh. cbn [orb]. split; [reflexivity|].
    split; [apply F64.ltb_leb, Hlh | apply F64.leb_refl, Nhi].
  - assert (Hvh : (v <=? hi) = true) by (apply F64.not_ltb_leb; trivial).
    replace (if v <? hi then v else if get_sign hi then hi else v) with v
      by (rewrite Shi; destruct (v <? hi); reflexivity).
    rewrite Nlo, Nv. cbn [orb].
    destruct (lo <? v) eqn:Hlv.
    + rewrite (ltb_asym lo v Hlv). split; [reflexivity|].
      split; [apply F64.ltb_leb, Hlv | exact Hvh].
    + destruct (v <? lo) eqn:Hvl.
      * split; [reflexivity|].
        split; [apply F64.leb_refl, Nlo | apply F64.ltb_leb, Hlh].
      * rewrite Slo. split; [reflexivity|].
        split; [apply F64.not_ltb_leb; trivial | exact Hvh].
Qed.

Section Callback.
(** [Math.cos] is the platform's. *)
Variable cos : float -> float.

(** A run of position fixes, each handed to the callback of
    [watchPosition]. *)
Definition onPositions (fixes : list (float * float)) (s : state) : state :=
  fold_left (fun s f => onPosition cos (fst f) (snd f) s) fixes s.

(** No fix of the run has a raw offset with NaN in it.  Without a baseline
    the first fix becomes the baseline and has no raw offset. *)
Fixpoint numeric_run (base : option latlng) (fixes : list (float * float)) : Prop :=
  match fixes with
  | [] => True
  | f :: rest =>
      match base with
      | None => numeric_run (Some (mkLatLng (fst f) (snd f))) rest
      | Some b => numeric_point (rawOffset cos b (fst f) (snd f)) /\ numeric_run base rest
      end
  end.

Lemma updateMapTransform_offsets (s : state) :
  gpsOffsetX (updateMapTransform s) = gpsOffsetX s
  /\ gpsOffsetY (updateMapTransform s) = gpsOffsetY s
  /\ gpsBaseLatLng (updateMapTransform s) = gpsBaseLatLng s.
Proof.
  unfold updateMapTransform. destruct (mapTransformEl s) as [[]|]; repeat split.
Qed.

(** What the callback stores, with a baseline: lines 49-54. *)
Lemma onPosition_offsets (base : latlng) (lat lng : float) (s : state) :
  gpsBaseLatLng s = Some base ->
  gpsOffsetX (onPosition cos lat lng s)
  = Num.js_max (-100) (Num.js_min 100 (Point.x (rawOffset cos base lat lng)))
  /\ gpsOffsetY (onPosition cos lat lng s)
     = Num.js_max (-150) (Num.js_min 150 (Point.y (rawOffset cos base lat lng)))
  /\ gpsBaseLatLng (onPosition cos lat lng s) = Some base.
Proof.
  intros H. unfold onPosition. rewrite H.
  match goal with
  | |- context [updateMapTransform ?S] =>
      destruct (updateMapTransform_offsets S) as (-> & -> & ->)
  end.
  destruct s. cbn in H. subst. repeat split.
Qed.

(** Without a baseline the callback stores the baseline and nothing else. *)
Lemma onPosition_first (lat lng : float) (s : state) :
  gpsBaseLatLng s = None ->
  gpsOffsetX (onPosition cos lat lng s) = gpsOffsetX s
  /\ gpsOffsetY (onPosition cos lat lng s) = gpsOffsetY s
  /\ gpsBaseLatLng (onPosition cos lat lng s) = Some (mkLatLng lat lng).
Proof. intros H. unfold onPosition. rewrite H. destruct s. repeat split. Qed.

Lemma onPosition_clamps (base : latlng) (lat lng : float) (s : state) :
  gpsBaseLatLng s = Some base -> numeric_point (rawOffset cos base lat lng) ->
  gpsOffsetX (onPosition cos lat lng s)
  = clamp (-100) 100 (Point.x (rawOffset cos base lat lng))
  /\ gpsOffsetY (onPosition cos lat lng s)
     = clamp (-150) 150 (Point.y (rawOffset cos base lat lng))
  /\ bounded (onPosition cos lat lng s).
Proof.
  intros Hb [Nx Ny]. destruct (onPosition_offsets base lat lng s Hb) as (Ex & Ey & _).
  destruct (max_min_clamp (-100) 100 _ eq_refl eq_refl eq_refl Nx) as [Cx Wx].
  destruct (max_min_clamp (-150) 150 _ eq_refl eq_refl eq_refl Ny) as [Cy Wy].
  unfold bounded. rewrite Ex, Ey, Cx, Cy. repeat split; trivial; apply Wx || apply Wy.
Qed.

Lemma onPositions_bounded (fixes : list (float * float)) :
  forall s, bounded s -> numeric_run (gpsBaseLatLng s) fixes ->
  bounded (onPositions fixes s).
Proof.
  unfold onPositions. induction fixes as [|[lat lng] rest IH]; intros s Hs Hn; [exact Hs|].
  cbn [fold_left fst snd]. cbn [numeric_run fst snd] in Hn.
  destruct (gpsBaseLatLng s) as [base|] eqn:Hb.
  - destruct Hn as [Hraw Hn].
    destruct (onPosition_offsets base lat lng s Hb) as (_ & _ & Eb).
    apply IH; [apply (onPosition_clamps base), Hraw; exact Hb | rewrite Eb; exact Hn].
  - destruct (onPosition_first lat lng s Hb) as (Ex & Ey & Eb).
    apply IH; [unfold bounded; rewrite Ex, Ey; exact Hs | rewrite Eb; exact Hn].
Qed.

(** C7: with a baseline, the position callback stores the raw offset of the
    fix clamped componentwise, x to [-100, 100] and y to [-150, 150], when
    the raw offset has no NaN in it; a raw offset of (500, -900) is stored as
    (100, -150); and after any run of fixes whose raw offsets have no NaN,
    from the state the callback leaves, from any state whose offset lies
    within the bounds and from the initial state, the stored offset lies
    within the bounds. *)
Theorem drift_is_clamped (base : latlng) (lat lng : float)
    (fixes : list (float * float)) (s : state) :
  gpsBaseLatLng s = Some base ->
  numeric_point (rawOffset cos base lat lng) ->
  numeric_run (Some base) fixes ->
  let raw := rawOffset cos base lat lng in
  let s' := onPosition cos lat lng s in
  gpsOffsetX s' = clamp (-100) 100 (Point.x raw)
  /\ gpsOffsetY s' = clamp (-150) 150 (Point.y raw)
  /\ bounded s'
  /\ (raw = Point.mk 500 (-900) -> gpsOffsetX s' = 100 /\ gpsOffsetY s' = -150)
  /\ bounded (onPositions fixes s')
  /\ (forall s0 run,
        bounded s0 -> numeric_run (gpsBaseLatLng s0) run -> bounded (onPositions run s0))
  /\ (forall el run, numeric_run None run -> bounded (onPositions run (init el))).
Proof.
  intros Hb Hraw Hrun raw s'.
  destruct (onPosition_clamps base lat lng s Hb Hraw) as (Cx & Cy & B).
  destruct (onPosition_offsets base lat lng s Hb) as (_ & _ & Eb).
  fold raw s' in Cx, Cy, B, Eb.
  split; [exact Cx|]. split; [exact Cy|]. split; [exact B|].
  split; [intros E; rewrite Cx, Cy, E; split; reflexivity|].
  split; [apply onPositions_bounded; [exact B | rewrite Eb; exact Hrun]|].
  split; [intros s0 run; apply onPositions_bounded|].
  intros el run Hn. apply onPositions_bounded; [|exact Hn]. repeat split.
Qed.

End Callback.

(** A screen with a baseline at (0, 0), a fix whose raw offset is exactly
    (500, -900) where the cosine is 1, and two more fixes. *)
Definition at_the_origin : state :=
  set_gpsBaseLatLng (Some (mkLatLng 0 0))
    (set_mapTransformEl (Some MapCanvas)
       (set_currentCarPos (Point.mk 580 850)
          (set_screenH 844
             (set_screenW 390
                (init (mkElement (Canvas.fresh 300 150) None None None None)))))).

Lemma drift_is_clamped_witness :
  let lat := 0x1.613af6b5951c7p-9 in
  let lng := 0x1.887a67746cca4p-10 in
  let s' := onPosition (fun _ => 1) lat lng at_the_origin in
  rawOffset (fun _ => 1) (mkLatLng 0 0) lat lng = Point.mk 500 (-900)
  /\ gpsOffsetX s' = 100 /\ gpsOffsetY s' = -150
  /\ bounded (onPositions (fun _ => 1) [(0.0001, 0.0002); (-1, 1)] s').
Proof.
  intros lat lng s'.
  assert (E : rawOffset (fun _ => 1) (mkLatLng 0 0) lat lng = Point.mk 500 (-900))
    by (vm_compute; reflexivity).
  destruct (drift_is_clamped (fun _ => 1) (mkLatLng 0 0) lat lng
              [(0.0001, 0.0002); (-1, 1)] at_the_origin)
    as (_ & _ & _ & H & Hb & _).
  - reflexivity.
  - split; reflexivity.
  - cbn [numeric_run fst snd]. repeat split; reflexivity.
  - destruct (H E) as [Hx Hy]. split; [exact E|]. split; [exact Hx|].
    split; [exact Hy | exact Hb].
Defined.

(** A coordinate that is not a number is stored as such: [Math.min] and
    [Math.max] return NaN on NaN. *)
Example nan_is_not_clamped (cos : float -> float) (lng : float) (s : state) :
  gpsBaseLatLng s <> None ->
  is_nan (gpsOffsetY (onPosition cos nan lng s)) = true.
Proof.
  destruct (gpsBaseLatLng s) as [base|] eqn:Hb; [intros _ | congruence].
  destruct (onPosition_offsets cos base nan lng s Hb) as (_ & -> & _).
  unfold rawOffset. cbn [Point.y].
  assert (N : forall a, nan - a = nan)
    by (intros a; apply Prim2SF_inj; rewrite sub_spec; reflexivity).
  assert (M : forall a, nan * a = nan)
    by (intros a; apply Prim2SF_inj; rewrite mul_spec; reflexivity).
  rewrite N, M. reflexivity.
Qed.

End DriftProps.

(** * The renderer *)

Module RendererProps.
Import Canvas Ctx Renderer.
#[local] Open Scope canvas_scope.

(** ** [drawMap] returns *)

(** A command that returns, whatever the canvas. *)
Definition returns (m : M unit) : Prop := forall c, exists c', m c = Some (tt, c').

Lemma returns_bind (m k : M unit) : returns m -> returns k -> returns (m ;; k).
Proof.
  intros Hm Hk c. unfold bind. destruct (Hm c) as [c' ->]. apply Hk.
Qed.

Lemma returns_ret : returns (ret tt).
Proof. intros c. eexists. reflexivity. Qed.

Lemma returns_when (b : bool) (m : M unit) : (b = true -> returns m) -> returns (when b m).
Proof.
  destruct b; simpl; intros H; [apply H; reflexivity | apply returns_ret].
Qed.

Lemma returns_whenSome {A : Type} (o : option A) (f : A -> M unit) :
  (forall a, o = Some a -> returns (f a)) -> returns (whenSome o f).
Proof.
  destruct o as [a|]; simpl; intros H; [apply H; reflexivity | apply returns_ret].
Qed.

Lemma returns_forEach {A : Type} (l : list A) (f : A -> M unit) :
  (forall a, In a l -> returns (f a)) -> returns (forEach l f).
Proof.
  induction l as [|a l IH]; intros H; simpl; [apply returns_ret|].
  apply returns_bind; [apply H; left; reflexivity|].
  apply IH. intros b Hb. apply H. right. exact Hb.
Qed.

(** Does the loop [for (v; v < limit; v += step)] end within the fuel? *)
Fixpoint loop_ok (fuel : nat) (v limit step : float) : bool :=
  if v <? limit then
    match fuel with
    | O => false
    | S fuel' => loop_ok fuel' (v + step) limit step
    end
  else true.

Lemma returns_for_lt (fuel : nat) (limit step : float) (body : float -> M unit) :
  (forall v, returns (body v)) ->
  forall v, loop_ok fuel v limit step = true -> returns (for_lt fuel v limit step body).
Proof.
  intros Hbody. induction fuel as [|fuel IH]; intros v; simpl;
    destruct (v <? limit); intros H; try apply returns_ret; try discriminate.
  apply returns_bind; [apply Hbody | apply IH, H].
Qed.

Lemma returns_guarded (args : list float) (m : M unit) :
  returns m -> returns (guarded args m).
Proof.
  unfold guarded. destruct (all_finite args); [trivial | intros _; apply returns_ret].
Qed.

(** The assignments and the paints always return. *)
Ltac prim :=
  cbv [set_fillStyle set_strokeStyle set_lineWidth setLineDash Ctx.scale fillRect
       strokeRect moveTo lineTo fillText guarded];
  repeat match goal with |- context [if ?b then _ else _] => destruct b end;
  intros ?c; eexists; reflexivity.

(** An arc returns unless its radius is negative. *)
Lemma returns_arc (x y r a0 a1 : float) :
  (r <? zero) = false -> returns (arc x y r a0 a1).
Proof.
  intros H. unfold arc. rewrite H. apply returns_guarded.
  intros c. eexists. reflexivity.
Qed.

Lemma returns_ellipse (x y rx ry rot a0 a1 : float) :
  (rx <? zero) = false -> (ry <? zero) = false ->
  returns (ellipse x y rx ry rot a0 a1).
Proof.
  intros H H'. unfold ellipse. rewrite H, H'. apply returns_guarded.
  intros c. eexists. reflexivity.
Qed.

Create HintDb returns.
#[local] Hint Resolve returns_bind returns_ret : returns.
#[local] Hint Extern 1 (returns (set_fillStyle _)) => prim : returns.
#[local] Hint Extern 1 (returns (set_strokeStyle _)) => prim : returns.
#[local] Hint Extern 1 (returns (set_lineWidth _)) => prim : returns.
#[local] Hint Extern 1 (returns (set_lineCap _)) => prim : returns.
#[local] Hint Extern 1 (returns (set_lineJoin _)) => prim : returns.
#[local] Hint Extern 1 (returns (setLineDash _)) => prim : returns.
#[local] Hint Extern 1 (returns (set_font _)) => prim : returns.
#[local] Hint Extern 1 (returns beginPath) => prim : returns.
#[local] Hint Extern 1 (returns (moveTo _ _)) => prim : returns.
#[local] Hint Extern 1 (returns (lineTo _ _)) => prim : returns.
#[local] Hint Extern 1 (returns (arc _ _ _ _ _)) =>
  apply returns_arc; first [assumption | reflexivity] : returns.
#[local] Hint Extern 1 (returns (ellipse _ _ _ _ _ _ _)) =>
  apply returns_ellipse; reflexivity : returns.
#[local] Hint Extern 1 (returns (fillRect _ _ _ _)) => prim : returns.
#[local] Hint Extern 1 (returns (strokeRect _ _ _ _)) => prim : returns.
#[local] Hint Extern 1 (returns fill) => prim : returns.
#[local] Hint Extern 1 (returns stroke) => prim : returns.
#[local] Hint Extern 1 (returns (fillText _ _ _)) => prim : returns.
#[local] Hint Extern 1 (returns (Ctx.scale _ _)) => prim : returns.

Lemma returns_scale (a b : float) : returns (Ctx.scale a b).
Proof. prim. Qed.

Lemma returns_clearRect (x y w h : float) : returns (clearRect x y w h).
Proof.
  unfold clearRect. apply returns_guarded.
  intros c. destruct (covers c x y w h); eexists; reflexivity.
Qed.
#[local] Hint Resolve returns_clearRect : returns.

Lemma returns_polyline (pts : list Point.t) : pts <> [] -> returns (polyline pts).
Proof.
  destruct pts as [|p rest]; [congruence|]. intros _. unfold polyline.
  apply returns_bind; [solve [auto with returns]|].
  apply returns_forEach. auto with returns.
Qed.

(** The window loops of a building end within the fuel. *)
Definition windows_ok (fuel : nat) (b : Building.t) : bool :=
  negb (Building.lit b && Num.gtb (Building.w b) 22 && Num.gtb (Building.h b) 18)
  || (loop_ok fuel (Building.x b + 3) (Building.x b + Building.w b - 3) 7
      && loop_ok fuel (Building.y b + 3) (Building.y b + Building.h b - 3) 6).

Lemma returns_drawBuilding (fuel : nat) (b : Building.t) :
  windows_ok fuel b = true -> returns (drawBuilding fuel b).
Proof.
  destruct b as [x y w h color lit]. unfold windows_ok, drawBuilding.
  cbn [Building.x Building.y Building.w Building.h Building.lit]. intros H.
  repeat (apply returns_bind; [solve [auto with returns]|]).
  apply returns_when. intros Hlit. rewrite Hlit in H. cbn [negb orb] in H.
  apply andb_true_iff in H. destruct H as [Hx Hy].
  apply returns_bind; [solve [auto with returns]|].
  apply returns_for_lt; [|exact Hx]. intros wx.
  apply returns_for_lt; [|exact Hy]. auto with returns.
Qed.

Lemma returns_drawRoad (r : Road.t) : Road.points r <> [] -> returns (drawRoad r).
Proof.
  intros H. unfold drawRoad.
  pose proof (returns_polyline _ H).
  repeat (apply returns_bind; [solve [auto with returns]|]).
  apply returns_when. intros _.
  repeat (apply returns_bind; [solve [auto with returns]|]). auto with returns.
Qed.

Lemma returns_drawRoute (rp : list Point.t) : rp <> [] -> returns (drawRoute rp).
Proof.
  intros H. unfold drawRoute. pose proof (returns_polyline _ H).
  repeat (apply returns_bind; [solve [auto with returns]|]). auto with returns.
Qed.

Lemma returns_drawPin (colour : string) (outer inner : float) (p : Point.t) :
  (outer <? zero) = false -> (inner <? zero) = false ->
  returns (drawPin colour outer inner p).
Proof.
  intros Ho Hi. unfold drawPin. repeat (apply returns_bind; [solve [auto with returns]|]). auto with returns.
Qed.

(** [drawMap] returns as soon as every road and the route have a first point,
    no park has a negative radius and the window loops of the buildings end. *)
Lemma drawMap_returns (fuel : nat) (mapW mapH : float) (roads : list Road.t)
    (buildings : list Building.t) (options : options) :
  forallb (windows_ok fuel) buildings = true ->
  (forall r, In r roads -> Road.points r <> []) ->
  (forall ps p, parks options = Some ps -> In p ps -> (park_r p <? zero) = false) ->
  route options <> Some [] ->
  returns (drawMap fuel mapW mapH roads buildings options).
Proof.
  intros Hb Hr Hp Hroute. unfold drawMap.
  repeat (apply returns_bind; [solve [auto with returns]|]).
  apply returns_bind.
  { apply returns_when. intros _.
    repeat (apply returns_bind; [solve [auto with returns]|]). auto with returns. }
  apply returns_bind.
  { apply returns_forEach. intros b Hin. apply returns_drawBuilding.
    rewrite forallb_forall in Hb. apply Hb, Hin. }
  apply returns_bind.
  { apply returns_whenSome. intros ps E. apply returns_forEach. intros p Hin.
    pose proof (Hp ps p E Hin). unfold drawPark.
    repeat (apply returns_bind; [solve [auto with returns]|]).
    auto with returns. }
  apply returns_bind.
  { apply returns_forEach. intros r Hin. apply returns_drawRoad, Hr, Hin. }
  apply returns_bind.
  { apply returns_whenSome. intros rp E. apply returns_drawRoute. congruence. }
  apply returns_bind;
    [apply returns_whenSome; intros; apply returns_drawPin; reflexivity|].
  apply returns_bind;
    [apply returns_whenSome; intros; apply returns_drawPin; reflexivity|].
  apply returns_whenSome. intros ls _. apply returns_forEach. intros l _.
  unfold drawLabel. repeat (apply returns_bind; [solve [auto with returns]|]).
  auto with returns.
Qed.

(** ** What a second call draws *)

(** The call [clearRect(x, y, w, h)] takes effect and covers the bitmap. *)
Definition erases (c : t) (x y w h : float) : bool :=
  all_finite [x; y; w; h] && covers c x y w h.

Lemma clearRect_erases (x y w h : float) (c : t) :
  erases c x y w h = true -> clearRect x y w h c = Some (tt, set_painted [] c).
Proof.
  unfold erases, clearRect, guarded. intros H. apply andb_true_iff in H.
  destruct H as [-> ->]. reflexivity.
Qed.

(** With a rectangle that covers the bitmap, [drawMap] starts from an empty
    surface: what was painted before the call leaves no trace. *)
Lemma drawMap_forgets_surface (fuel : nat) (mapW mapH : float) (roads : list Road.t)
    (buildings : list Building.t) (options : options) (c : t) (before : list paint) :
  erases c 0 0 mapW mapH = true ->
  drawMap fuel mapW mapH roads buildings options (set_painted before c)
  = drawMap fuel mapW mapH roads buildings options c.
Proof.
  intros Hc. unfold drawMap.
  set (rest := (set_fillStyle (Css "#0d1520") ;; _)).
  assert (E : forall c0, (clearRect 0 0 mapW mapH ;; rest) c0
                         = match clearRect 0 0 mapW mapH c0 with
                           | Some (_, c') => rest c'
                           | None => None
                           end) by reflexivity.
  rewrite !E, (clearRect_erases _ _ _ _ c Hc).
  rewrite (clearRect_erases _ _ _ _ (set_painted before c))
    by (rewrite <- Hc; destruct c; reflexivity).
  destruct c; reflexivity.
Qed.


(** The map of the navigation screen, drawn without overlay on the context of
    a new canvas of 1200 x 1200 pixels. *)
Definition draw_the_map : M unit :=
  drawMap 8 1200 1200 (Grid.roads (MapGenerator.createFixedRoadGrid 1200 1200))
    (MapGenerator.createFixedBuildings 1200 1200 77) no_options.




(** ** What a call reads from the context *)

(** Which attributes of two contexts are known to be equal, besides the
    bitmap size, the scale, the line cap, join and dash, and the surface. *)
Record known : Type :=
  K { k_fill : bool; k_stroke : bool; k_width : bool; k_font : bool; k_path : bool }.

Definition nothing : known := K false false false false false.

Definition agree (k : known) (c1 c2 : t) : Prop :=
  width c1 = width c2 /\ height c1 = height c2 /\ Canvas.scale c1 = Canvas.scale c2
  /\ lineCap c1 = lineCap c2 /\ lineJoin c1 = lineJoin c2 /\ lineDash c1 = lineDash c2
  /\ painted c1 = painted c2
  /\ (k_fill k = true -> fillStyle c1 = fillStyle c2)
  /\ (k_stroke k = true -> strokeStyle c1 = strokeStyle c2)
  /\ (k_width k = true -> lineWidth c1 = lineWidth c2)
  /\ (k_font k = true -> font c1 = font c2)
  /\ (k_path k = true -> path c1 = path c2).

(** Two runs end alike: both fail, or both return, in agreeing contexts. *)
Definition alike (k : known) (r1 r2 : option (unit * t)) : Prop :=
  match r1, r2 with
  | Some (_, c1), Some (_, c2) => agree k c1 c2
  | None, None => True
  | _, _ => False
  end.

(** From contexts agreeing on [k] the command ends alike, agreeing on [k']. *)
Definition sync (k k' : known) (m : M unit) : Prop :=
  forall c1 c2, agree k c1 c2 -> alike k' (m c1) (m c2).

Lemma agree_nothing (k : known) (c1 c2 : t) : agree k c1 c2 -> agree nothing c1 c2.
Proof.
  unfold agree. cbn. intros H. decompose [and] H.
  repeat split; trivial; discriminate.
Qed.

Lemma sync_bind (k k' k'' : known) (m n : M unit) :
  sync k k' m -> sync k' k'' n -> sync k k'' (m ;; n).
Proof.
  intros Hm Hn c1 c2 H. specialize (Hm c1 c2 H). unfold bind, alike in *.
  destruct (m c1) as [[[] c1']|], (m c2) as [[[] c2']|]; try contradiction; trivial.
  apply Hn, Hm.
Qed.

Lemma sync_ret (k : known) : sync k k (ret tt).
Proof. intros c1 c2 H. exact H. Qed.

Lemma sync_forget (k k' : known) (m : M unit) : sync k k' m -> sync k nothing m.
Proof.
  intros Hm c1 c2 H. specialize (Hm c1 c2 H). unfold alike in *.
  destruct (m c1) as [[[] c1']|], (m c2) as [[[] c2']|]; trivial.
  apply (agree_nothing k'), Hm.
Qed.

(** Knowing less. *)
Definition less (k k' : known) : bool :=
  implb (k_fill k) (k_fill k') && implb (k_stroke k) (k_stroke k')
  && implb (k_width k) (k_width k') && implb (k_font k) (k_font k')
  && implb (k_path k) (k_path k').

Lemma agree_less (k k' : known) (c1 c2 : t) :
  less k k' = true -> agree k' c1 c2 -> agree k c1 c2.
Proof.
  destruct k as [[] [] [] [] []], k' as [[] [] [] [] []]; cbn; intros L;
    try discriminate L; unfold agree; cbn; intros H; decompose [and] H;
    repeat split; trivial; discriminate.
Qed.

Lemma sync_post (k k' k'' : known) (m : M unit) :
  less k'' k' = true -> sync k k' m -> sync k k'' m.
Proof.
  intros L Hm c1 c2 H. specialize (Hm c1 c2 H). unfold alike in *.
  destruct (m c1) as [[[] c1']|], (m c2) as [[[] c2']|]; trivial.
  apply (agree_less k'' k'); trivial.
Qed.

Lemma sync_pre (k0 k k' : known) (m : M unit) :
  less k0 k = true -> sync k0 k' m -> sync k k' m.
Proof.
  intros L Hm c1 c2 H. apply Hm, (agree_less k0 k); trivial.
Qed.

Lemma sync_when (b : bool) (k : known) (m : M unit) : sync k k m -> sync k k (when b m).
Proof. destruct b; simpl; [trivial | intros _; apply sync_ret]. Qed.

Lemma sync_whenSome {A : Type} (o : option A) (k : known) (f : A -> M unit) :
  (forall a, sync k k (f a)) -> sync k k (whenSome o f).
Proof. destruct o; simpl; [trivial | intros _; apply sync_ret]. Qed.

Lemma sync_forEach {A : Type} (l : list A) (k : known) (f : A -> M unit) :
  (forall a, In a l -> sync k k (f a)) -> sync k k (forEach l f).
Proof.
  induction l as [|a l IH]; intros H; simpl; [apply sync_ret|].
  apply (sync_bind k k k); [apply H; left; reflexivity|].
  apply IH. intros b Hb. apply H. right. exact Hb.
Qed.

Lemma sync_guarded (args : list float) (k : known) (m : M unit) :
  sync k k m -> sync k k (guarded args m).
Proof.
  unfold guarded. destruct (all_finite args); [trivial | intros _; apply sync_ret].
Qed.

Lemma sync_for_lt (fuel : nat) (limit step : float) (k : known) (body : float -> M unit) :
  (forall v, sync k k (body v)) -> forall v, sync k k (for_lt fuel v limit step body).
Proof.
  intros H. induction fuel as [|fuel IH]; intros v; simpl; destruct (v <? limit);
    try apply sync_ret.
  - intros c1 c2 _. exact I.
  - apply (sync_bind k k k); [apply H | apply IH].
Qed.

(** The commands of the context. *)
Ltac use_known :=
  repeat match goal with
         | H : true = true -> _ |- _ => specialize (H eq_refl)
         end.

Ltac prim_sync :=
  intros [] [] H; unfold agree, alike in *; cbn in *; decompose [and] H; clear H;
  use_known; subst; repeat split; intros; cbn; auto; try congruence.

Lemma sync_set_fillStyle v s w n p f :
  valid_style v = true -> sync (K f s w n p) (K true s w n p) (set_fillStyle v).
Proof. unfold set_fillStyle. intros ->. prim_sync. Qed.
Lemma sync_set_strokeStyle v f w n p s :
  valid_style v = true -> sync (K f s w n p) (K f true w n p) (set_strokeStyle v).
Proof. unfold set_strokeStyle. intros ->. prim_sync. Qed.
Lemma sync_set_lineWidth v f s n p w :
  valid_width v = true -> sync (K f s w n p) (K f s true n p) (set_lineWidth v).
Proof. unfold set_lineWidth. intros ->. prim_sync. Qed.
Lemma sync_set_font v f s w p n :
  sync (K f s w n p) (K f s w true p) (set_font v).
Proof. prim_sync. Qed.
Lemma sync_beginPath f s w n p : sync (K f s w n p) (K f s w n true) beginPath.
Proof. prim_sync. Qed.
Lemma sync_set_lineCap v k : sync k k (set_lineCap v).
Proof. destruct k. prim_sync. Qed.
Lemma sync_set_lineJoin v k : sync k k (set_lineJoin v).
Proof. destruct k. prim_sync. Qed.
Lemma sync_setLineDash v k : sync k k (setLineDash v).
Proof.
  unfold setLineDash. destruct (valid_dash v); [|apply sync_ret]. destruct k. prim_sync.
Qed.
Lemma sync_add_seg sg f s w n : sync (K f s w n true) (K f s w n true) (add_seg sg).
Proof. prim_sync. Qed.
Lemma sync_moveTo x y f s w n : sync (K f s w n true) (K f s w n true) (moveTo x y).
Proof. apply sync_guarded, sync_add_seg. Qed.
Lemma sync_lineTo x y f s w n : sync (K f s w n true) (K f s w n true) (lineTo x y).
Proof. apply sync_guarded, sync_add_seg. Qed.
Lemma sync_arc x y r a0 a1 f s w n :
  sync (K f s w n true) (K f s w n true) (arc x y r a0 a1).
Proof.
  apply sync_guarded. destruct (r <? zero); [|apply sync_add_seg].
  intros c1 c2 _. exact I.
Qed.
Lemma sync_ellipse x y rx ry rot a0 a1 f s w n :
  sync (K f s w n true) (K f s w n true) (ellipse x y rx ry rot a0 a1).
Proof.
  apply sync_guarded. destruct ((rx <? zero) || (ry <? zero)); [|apply sync_add_seg].
  intros c1 c2 _. exact I.
Qed.
Lemma sync_fillRect x y w0 h s w n p :
  sync (K true s w n p) (K true s w n p) (fillRect x y w0 h).
Proof. apply sync_guarded. prim_sync. Qed.
Lemma sync_strokeRect x y w0 h f n p :
  sync (K f true true n p) (K f true true n p) (strokeRect x y w0 h).
Proof. apply sync_guarded. prim_sync. Qed.
Lemma sync_fill s w n : sync (K true s w n true) (K true s w n true) fill.
Proof. prim_sync. Qed.
Lemma sync_stroke f n : sync (K f true true n true) (K f true true n true) stroke.
Proof. prim_sync. Qed.
Lemma sync_fillText txt x y s w p :
  sync (K true s w true p) (K true s w true p) (fillText txt x y).
Proof. apply sync_guarded. prim_sync. Qed.

Create HintDb sync.
#[local] Hint Resolve sync_set_font sync_beginPath sync_set_lineCap sync_set_lineJoin
  sync_setLineDash sync_moveTo sync_lineTo sync_arc sync_ellipse sync_fillRect
  sync_strokeRect sync_fill sync_stroke sync_fillText sync_ret : sync.
#[local] Hint Extern 1 (sync _ _ (set_fillStyle _)) =>
  apply sync_set_fillStyle; first [assumption | reflexivity] : sync.
#[local] Hint Extern 1 (sync _ _ (set_strokeStyle _)) =>
  apply sync_set_strokeStyle; first [assumption | reflexivity] : sync.
#[local] Hint Extern 1 (sync _ _ (set_lineWidth _)) =>
  apply sync_set_lineWidth; first [assumption | reflexivity] : sync.

(** One command after the other, the known attributes growing. *)
Ltac chain := repeat (eapply sync_bind; [solve [auto with sync]|]); auto with sync.

Lemma sync_polyline (pts : list Point.t) f s w n :
  sync (K f s w n true) (K f s w n true) (polyline pts).
Proof.
  destruct pts as [|q rest]; simpl.
  - intros c1 c2 _. exact I.
  - eapply sync_bind; [auto with sync|].
    apply sync_forEach. intros a _. auto with sync.
Qed.
#[local] Hint Resolve sync_polyline : sync.

(** The colour of the building and the width of the road are valid. *)
Definition valid_building (b : Building.t) : bool := valid_style (Hsl (Building.color b)).
Definition valid_road (r : Road.t) : bool := valid_width (Road.width r).

Lemma sync_drawBuilding (fuel : nat) (b : Building.t) :
  valid_building b = true -> sync nothing nothing (drawBuilding fuel b).
Proof.
  destruct b as [x y w h color lit]. unfold valid_building, drawBuilding, nothing.
  cbn [Building.color]. intros Hv.
  apply (sync_forget _ (K true true true false false)).
  chain. apply sync_when. chain.
  apply sync_for_lt. intros wx. apply sync_for_lt. intros wy. auto with sync.
Qed.

Lemma sync_drawPark (p : park) : sync nothing nothing (drawPark p).
Proof.
  unfold drawPark, nothing. apply (sync_forget _ (K true false false false true)). chain.
Qed.

Lemma sync_drawRoad (r : Road.t) :
  valid_road r = true -> sync nothing nothing (drawRoad r).
Proof.
  unfold valid_road, drawRoad, nothing. intros Hv. apply (sync_forget _ (K false true true false true)).
  chain. apply sync_when. chain.
Qed.

Lemma sync_drawRoute (rp : list Point.t) : sync nothing nothing (drawRoute rp).
Proof.
  unfold drawRoute, nothing. apply (sync_forget _ (K false true true false true)). chain.
Qed.

Lemma sync_drawPin (colour : string) (outer inner : float) (p : Point.t) :
  sync nothing nothing (drawPin colour outer inner p).
Proof.
  unfold drawPin, nothing. apply (sync_forget _ (K true true true false true)). chain.
Qed.

Lemma sync_drawLabel (l : label) : sync nothing nothing (drawLabel l).
Proof.
  unfold drawLabel, nothing. apply (sync_forget _ (K true false false true false)). chain.
Qed.

(** The line attributes the context enters with, its scale and its size. *)
Definition same_pen (c1 c2 : t) : Prop :=
  width c1 = width c2 /\ height c1 = height c2 /\ Canvas.scale c1 = Canvas.scale c2
  /\ lineCap c1 = lineCap c2 /\ lineJoin c1 = lineJoin c2 /\ lineDash c1 = lineDash c2.

Lemma clearRect_alike (x y w h : float) (c1 c2 : t) :
  same_pen c1 c2 -> erases c1 x y w h = true ->
  alike nothing (clearRect x y w h c1) (clearRect x y w h c2).
Proof.
  intros Hpen He.
  assert (He' : erases c2 x y w h = true).
  { rewrite <- He. destruct c1, c2. unfold same_pen in Hpen. cbn in Hpen.
    decompose [and] Hpen. subst. reflexivity. }
  rewrite (clearRect_erases _ _ _ _ _ He), (clearRect_erases _ _ _ _ _ He').
  destruct c1, c2. unfold same_pen in Hpen. unfold alike, agree. cbn in *.
  decompose [and] Hpen. repeat split; trivial; discriminate.
Qed.

(** What [drawMap] paints is a function of its arguments and of the size,
    scale, line cap, line join and dash of the context it is given, and of
    nothing else in the context or on the surface. *)
Lemma drawMap_reads_the_pen (fuel : nat) (mapW mapH : float) (roads : list Road.t)
    (buildings : list Building.t) (options : options) (c1 c2 : t) :
  forallb valid_building buildings = true ->
  forallb valid_road roads = true ->
  same_pen c1 c2 -> erases c1 0 0 mapW mapH = true ->
  alike nothing (drawMap fuel mapW mapH roads buildings options c1)
                (drawMap fuel mapW mapH roads buildings options c2).
Proof.
  intros Hb Hr Hpen Hcov. unfold drawMap.
  rewrite forallb_forall in Hb, Hr.
  set (rest := (set_fillStyle (Css "#0d1520") ;; _)).
  assert (Hrest : sync nothing nothing rest).
  { subst rest. unfold nothing.
    eapply sync_bind; [auto with sync|].
    eapply sync_bind; [auto with sync|].
    apply (sync_pre (K false false false false false)); [reflexivity|].
    fold nothing.
    apply (sync_bind _ nothing).
    { apply sync_when. unfold nothing.
      apply (sync_post _ (K true false false false true)); [reflexivity|]. chain. }
    apply (sync_bind _ nothing);
      [apply sync_forEach; intros b Hin; apply sync_drawBuilding, Hb, Hin|].
    apply (sync_bind _ nothing);
      [apply sync_whenSome; intros; apply sync_forEach; intros; apply sync_drawPark|].
    apply (sync_bind _ nothing);
      [apply sync_forEach; intros r Hin; apply sync_drawRoad, Hr, Hin|].
    apply (sync_bind _ nothing); [apply sync_whenSome; intros; apply sync_drawRoute|].
    apply (sync_bind _ nothing); [apply sync_whenSome; intros; apply sync_drawPin|].
    apply (sync_bind _ nothing); [apply sync_whenSome; intros; apply sync_drawPin|].
    apply sync_whenSome. intros. apply sync_forEach. intros. apply sync_drawLabel. }
  pose proof (clearRect_alike 0 0 mapW mapH c1 c2 Hpen Hcov) as H0.
  assert (E : forall c0, (clearRect 0 0 mapW mapH ;; rest) c0
                         = match clearRect 0 0 mapW mapH c0 with
                           | Some (_, c') => rest c'
                           | None => None
                           end) by reflexivity.
  rewrite !E. unfold alike in H0.
  destruct (clearRect 0 0 mapW mapH c1) as [[[] c1']|],
           (clearRect 0 0 mapW mapH c2) as [[[] c2']|]; try contradiction.
  - apply Hrest, H0.
  - exact I.
Qed.

(** ** The pen a call leaves behind *)

Section RoundPen.
Variables (w0 h0 : Z) (sc0 : float * float).

(** A context of the given size and scale whose line cap and join are round
    and whose dash list is [d]. *)
Definition round_pen (d : list float) (c : t) : Prop :=
  width c = w0 /\ height c = h0 /\ Canvas.scale c = sc0
  /\ lineCap c = RoundCap /\ lineJoin c = RoundJoin /\ lineDash c = d.

(** From a round pen with dash [d] the command, when it returns, leaves a
    round pen with dash [d']. *)
Definition keeps (d d' : list float) (m : M unit) : Prop :=
  forall c c', round_pen d c -> m c = Some (tt, c') -> round_pen d' c'.

Lemma keeps_bind (d d' d'' : list float) (m n : M unit) :
  keeps d d' m -> keeps d' d'' n -> keeps d d'' (m ;; n).
Proof.
  intros Hm Hn c c' H. unfold bind. destruct (m c) as [[[] c1]|] eqn:E; [|discriminate].
  apply Hn, (Hm c c1 H E).
Qed.

Lemma keeps_ret (d : list float) : keeps d d (ret tt).
Proof. intros c c' H E. injection E as <-. exact H. Qed.

Lemma keeps_when (b : bool) (d : list float) (m : M unit) :
  keeps d d m -> keeps d d (when b m).
Proof. destruct b; simpl; [trivial | intros _; apply keeps_ret]. Qed.

Lemma keeps_whenSome {A : Type} (o : option A) (d : list float) (f : A -> M unit) :
  (forall a, keeps d d (f a)) -> keeps d d (whenSome o f).
Proof. destruct o; simpl; [trivial | intros _; apply keeps_ret]. Qed.

Lemma keeps_forEach {A : Type} (l : list A) (d : list float) (f : A -> M unit) :
  (forall a, keeps d d (f a)) -> keeps d d (forEach l f).
Proof.
  intros H. induction l as [|a l IH]; simpl; [apply keeps_ret|].
  apply (keeps_bind d d d); [apply H | exact IH].
Qed.

Lemma keeps_for_lt (fuel : nat) (limit step : float) (d : list float)
    (body : float -> M unit) :
  (forall v, keeps d d (body v)) -> forall v, keeps d d (for_lt fuel v limit step body).
Proof.
  intros H. induction fuel as [|fuel IH]; intros v; simpl; destruct (v <? limit);
    try apply keeps_ret.
  - intros c c' _ E. discriminate E.
  - apply (keeps_bind d d d); [apply H | apply IH].
Qed.

Lemma keeps_guarded (args : list float) (d : list float) (m : M unit) :
  keeps d d m -> keeps d d (guarded args m).
Proof.
  unfold guarded. destruct (all_finite args); [trivial | intros _; apply keeps_ret].
Qed.

Ltac prim_keeps :=
  intros [] c' H E; unfold round_pen in *; cbn in *; injection E as <-; cbn;
  decompose [and] H; repeat split; trivial.

Lemma keeps_set_fillStyle v d : keeps d d (set_fillStyle v).
Proof.
  unfold set_fillStyle. destruct (valid_style v); [prim_keeps | apply keeps_ret].
Qed.
Lemma keeps_set_strokeStyle v d : keeps d d (set_strokeStyle v).
Proof.
  unfold set_strokeStyle. destruct (valid_style v); [prim_keeps | apply keeps_ret].
Qed.
Lemma keeps_set_lineWidth v d : keeps d d (set_lineWidth v).
Proof.
  unfold set_lineWidth. destruct (valid_width v); [prim_keeps | apply keeps_ret].
Qed.
Lemma keeps_set_font v d : keeps d d (set_font v).
Proof. prim_keeps. Qed.
Lemma keeps_beginPath d : keeps d d beginPath.
Proof. prim_keeps. Qed.
Lemma keeps_set_lineCap d : keeps d d (set_lineCap RoundCap).
Proof. prim_keeps. Qed.
Lemma keeps_set_lineJoin d : keeps d d (set_lineJoin RoundJoin).
Proof. prim_keeps. Qed.
Lemma keeps_setLineDash v d :
  valid_dash v = true -> Nat.odd (length v) = false -> keeps d v (setLineDash v).
Proof. unfold setLineDash. intros -> ->. prim_keeps. Qed.
Lemma keeps_add_seg sg d : keeps d d (add_seg sg).
Proof. prim_keeps. Qed.
Lemma keeps_moveTo x y d : keeps d d (moveTo x y).
Proof. apply keeps_guarded, keeps_add_seg. Qed.
Lemma keeps_lineTo x y d : keeps d d (lineTo x y).
Proof. apply keeps_guarded, keeps_add_seg. Qed.
Lemma keeps_arc x y r a0 a1 d : keeps d d (arc x y r a0 a1).
Proof.
  apply keeps_guarded. destruct (r <? zero); [|apply keeps_add_seg].
  intros c c' _ E. discriminate E.
Qed.
Lemma keeps_ellipse x y rx ry rot a0 a1 d : keeps d d (ellipse x y rx ry rot a0 a1).
Proof.
  apply keeps_guarded. destruct ((rx <? zero) || (ry <? zero)); [|apply keeps_add_seg].
  intros c c' _ E. discriminate E.
Qed.
Lemma keeps_fillRect x y w h d : keeps d d (fillRect x y w h).
Proof. apply keeps_guarded. prim_keeps. Qed.
Lemma keeps_strokeRect x y w h d : keeps d d (strokeRect x y w h).
Proof. apply keeps_guarded. prim_keeps. Qed.
Lemma keeps_fill d : keeps d d fill.
Proof. prim_keeps. Qed.
Lemma keeps_stroke d : keeps d d stroke.
Proof. prim_keeps. Qed.
Lemma keeps_fillText txt x y d : keeps d d (fillText txt x y).
Proof. apply keeps_guarded. prim_keeps. Qed.
Lemma keeps_clearRect x y w h d : keeps d d (clearRect x y w h).
Proof.
  apply keeps_guarded.
  intros [] c' H E; unfold round_pen in *; cbn in *.
  destruct (covers _ _ _ _ _); injection E as <-; cbn;
    decompose [and] H; repeat split; trivial.
Qed.

End RoundPen.

Create HintDb keeps.
#[local] Hint Resolve keeps_set_fillStyle keeps_set_strokeStyle keeps_set_lineWidth
  keeps_set_font keeps_beginPath keeps_set_lineCap keeps_set_lineJoin
  keeps_moveTo keeps_lineTo keeps_arc keeps_ellipse
  keeps_fillRect keeps_strokeRect keeps_fill keeps_stroke keeps_fillText keeps_clearRect
  keeps_ret : keeps.
#[local] Hint Extern 1 (keeps _ _ _ _ _ (setLineDash _)) =>
  apply keeps_setLineDash; reflexivity : keeps.

Ltac kept := repeat (eapply keeps_bind; [solve [auto with keeps]|]); auto with keeps.

Lemma keeps_polyline w0 h0 sc0 (pts : list Point.t) d : keeps w0 h0 sc0 d d (polyline pts).
Proof.
  destruct pts as [|q rest]; simpl.
  - intros c c' _ E. discriminate E.
  - eapply keeps_bind; [auto with keeps|].
    apply keeps_forEach. intros a. auto with keeps.
Qed.
#[local] Hint Resolve keeps_polyline : keeps.

(** [drawMap] leaves a round pen without dash as it found it. *)
Lemma drawMap_keeps_the_round_pen w0 h0 sc0 (fuel : nat) (mapW mapH : float)
    (roads : list Road.t) (buildings : list Building.t) (options : options) :
  keeps w0 h0 sc0 [] [] (drawMap fuel mapW mapH roads buildings options).
Proof.
  unfold drawMap.
  eapply keeps_bind; [auto with keeps|].
  eapply keeps_bind; [auto with keeps|].
  eapply keeps_bind; [auto with keeps|].
  apply (keeps_bind _ _ _ _ []); [apply keeps_when; kept|].
  apply (keeps_bind _ _ _ _ []).
  { apply keeps_forEach. intros [x y w h color lit]. unfold drawBuilding.
    kept. apply keeps_when. kept.
    apply keeps_for_lt. intros wx. apply keeps_for_lt. intros wy. auto with keeps. }
  apply (keeps_bind _ _ _ _ []).
  { apply keeps_whenSome. intros ps. apply keeps_forEach. intros p.
    unfold drawPark. kept. }
  apply (keeps_bind _ _ _ _ []).
  { apply keeps_forEach. intros r. unfold drawRoad. kept. apply keeps_when. kept. }
  apply (keeps_bind _ _ _ _ []).
  { apply keeps_whenSome. intros rp. unfold drawRoute. kept. }
  apply (keeps_bind _ _ _ _ []);
    [apply keeps_whenSome; intros p; unfold drawPin; kept|].
  apply (keeps_bind _ _ _ _ []);
    [apply keeps_whenSome; intros p; unfold drawPin; kept|].
  apply keeps_whenSome. intros ls. apply keeps_forEach. intros l.
  unfold drawLabel. kept.
Qed.

(** On a context whose line cap and join are round and whose dash list is
    empty, as [drawMap] itself leaves it once it has drawn a road, a second
    call with the same arguments paints the same operations as the first. *)
Lemma drawMap_twice_with_a_round_pen (fuel : nat) (mapW mapH : float)
    (roads : list Road.t) (buildings : list Building.t) (options : options)
    (c c1 : t) :
  forallb valid_building buildings = true ->
  forallb valid_road roads = true ->
  erases c 0 0 mapW mapH = true ->
  lineCap c = RoundCap -> lineJoin c = RoundJoin -> lineDash c = [] ->
  drawMap fuel mapW mapH roads buildings options c = Some (tt, c1) ->
  exists c2, drawMap fuel mapW mapH roads buildings options c1 = Some (tt, c2)
             /\ painted c2 = painted c1.
Proof.
  intros Hb Hr Hcov Hcap Hjoin Hdash E.
  assert (P : round_pen (width c) (height c) (Canvas.scale c) [] c)
    by (repeat split; trivial).
  pose proof (drawMap_keeps_the_round_pen _ _ _ fuel mapW mapH roads buildings options
                c c1 P E) as P1.
  assert (S : same_pen c c1).
  { destruct P as (_ & _ & _ & C & J & D), P1 as (W & H & Sc & C1 & J1 & D1).
    unfold same_pen. rewrite W, H, Sc, C, J, D, C1, J1, D1. repeat split. }
  pose proof (drawMap_reads_the_pen fuel mapW mapH roads buildings options c c1
                Hb Hr S Hcov) as A.
  rewrite E in A. unfold alike in A.
  destruct (drawMap fuel mapW mapH roads buildings options c1) as [[[] c2]|];
    [|contradiction].
  exists c2. split; [reflexivity|]. symmetry. apply A.
Qed.

(** So it is for the map of the navigation screen: from the second call on,
    every call paints what the call before it painted. *)
Lemma draw_the_map_again_and_again (c1 c2 : t) :
  draw_the_map (fresh 1200 1200) = Some (tt, c1) ->
  draw_the_map c1 = Some (tt, c2) ->
  exists c3, draw_the_map c2 = Some (tt, c3) /\ painted c3 = painted c2.
Proof.
  intros E1 E2.
  assert (P0 : lineCap c1 = RoundCap /\ lineJoin c1 = RoundJoin /\ lineDash c1 = []
               /\ erases c1 0 0 1200 1200 = true).
  { replace c1 with (match draw_the_map (fresh 1200 1200) with
                     | Some (_, c) => c
                     | None => fresh 0 0
                     end) by (rewrite E1; reflexivity).
    vm_compute. repeat split. }
  destruct P0 as (C & J & D & Er).
  apply (drawMap_twice_with_a_round_pen 8 1200 1200 _ _ _ c1 c2); trivial;
    vm_compute; reflexivity.
Qed.

(** ** A render repeats on the same pen *)





(** The rectangle to clear has to cover the bitmap: on a canvas of
    2000 x 2000 pixels the map of 1200 x 1200 leaves in place what was
    painted before, under what it paints. *)
Example drawMap_keeps_what_it_does_not_cover :
  let before := Fill (1, 1) (Css "#fff") [Arc 1600 1600 50 0 TWO_PI] in
  exists c, draw_the_map (set_painted [before] (fresh 2000 2000)) = Some (tt, c)
            /\ hd_error (painted c) = Some before.
Proof.
  intros before.
  destruct (draw_the_map (set_painted [before] (fresh 2000 2000))) as [[[] c]|] eqn:E;
    [|vm_compute in E; discriminate].
  exists c. split; [reflexivity|].
  replace c with (match draw_the_map (set_painted [before] (fresh 2000 2000)) with
                  | Some (_, c) => c
                  | None => fresh 0 0
                  end) by (rewrite E; reflexivity).
  vm_compute. reflexivity.
Qed.

End RendererProps.

(** * The navigation screen *)

Module NavProps.
Import App.

(** The camera as a render leaves it. *)
Definition camera_reset (routeStart : Point.t) (s : state) : Prop :=
  currentCarPos s = routeStart
  /\ gpsOffsetX s = 0
  /\ gpsOffsetY s = 0
  /\ gpsBaseLatLng s = None.

Lemma windows_of_the_map_end :
  forallb (RendererProps.windows_ok 8) (MapGenerator.createFixedBuildings MAP_SCALE MAP_SCALE 77)
  = true.
Proof. vm_compute. reflexivity. Qed.

Lemma roads_of_the_map_have_points (r : Road.t) :
  In r (Grid.roads (MapGenerator.createFixedRoadGrid MAP_SCALE MAP_SCALE)) ->
  Road.points r <> [].
Proof.
  cbn [MapGenerator.createFixedRoadGrid Grid.roads mapi mapi_from MapGenerator.hYs
       MapGenerator.vXs app]. intros H.
  repeat (destruct H as [<-|H]; [discriminate|]). contradiction.
Qed.

(** The drawing of a navigation scene returns, whatever the route's ends,
    the labels, the pixel ratio and the canvas. *)
Lemma drawNavScene_returns (dpr : float) (routeStart routeEnd : Point.t)
    (labels : option (list Renderer.label)) :
  RendererProps.returns (drawNavScene 8 dpr MAP_SCALE MAP_SCALE routeStart routeEnd labels).
Proof.
  unfold drawNavScene. apply RendererProps.returns_bind.
  - apply RendererProps.returns_scale.
  - apply RendererProps.drawMap_returns.
    + exact windows_of_the_map_end.
    + exact roads_of_the_map_have_points.
    + cbn [Renderer.parks]. intros ps p E Hin. injection E as <-.
      destruct Hin as [<-|[<-|[]]]; reflexivity.
    + cbn [Renderer.route]. intros E. injection E as E.
      apply (f_equal (@length Point.t)) in E.
      match type of E with
      | length (Router.buildGridRoute ?a ?b ?c ?d ?h ?v ?w ?hh) = _ =>
          pose proof (RouterSpec.route_length a b c d h v w hh) as Hlen
      end.
      rewrite E in Hlen. simpl in Hlen. lia.
Qed.

Lemma updateMapTransform_camera (s : state) :
  currentCarPos (updateMapTransform s) = currentCarPos s
  /\ gpsOffsetX (updateMapTransform s) = gpsOffsetX s
  /\ gpsOffsetY (updateMapTransform s) = gpsOffsetY s
  /\ gpsBaseLatLng (updateMapTransform s) = gpsBaseLatLng s.
Proof.
  unfold updateMapTransform. destruct (mapTransformEl s) as [[]|]; repeat split.
Qed.

(** Whatever the fuel, a render that returns leaves the camera reset. *)
Lemma renderNavRoute_post (fuel : nat) (e : env) (routeStart routeEnd : Point.t)
    (labels : option (list Renderer.label)) (s s' : state) :
  renderNavRoute fuel e routeStart routeEnd labels s = Some s' ->
  camera_reset routeStart s'.
Proof.
  unfold renderNavRoute. cbv zeta.
  destruct (drawNavScene _ _ _ _ _ _ _ _) as [[u c]|]; [|discriminate].
  intros E. injection E as <-. unfold camera_reset.
  match goal with
  | |- context [updateMapTransform ?S] =>
      destruct (updateMapTransform_camera S) as (-> & -> & -> & ->)
  end.
  destruct routeStart. repeat split.
Qed.

(** C9: a render of a navigation scene returns, and whatever the camera was
    before, it leaves the tracked position at the start of the new route, the
    drift at (0, 0) and the drift baseline cleared. *)
Theorem render_resets_camera (e : env) (routeStart routeEnd : Point.t)
    (labels : option (list Renderer.label)) (s : state) :
  exists s', renderNavRoute 8 e routeStart routeEnd labels s = Some s'
             /\ currentCarPos s' = routeStart
             /\ gpsOffsetX s' = 0
             /\ gpsOffsetY s' = 0
             /\ gpsBaseLatLng s' = None.
Proof.
  assert (R : exists s', renderNavRoute 8 e routeStart routeEnd labels s = Some s').
  { unfold renderNavRoute. cbv zeta.
    match goal with
    | |- context [drawNavScene 8 ?d ?w ?h ?a ?b ?l ?c] =>
        destruct (drawNavScene_returns d a b l c) as [c' ->]
    end.
    eexists. reflexivity. }
  destruct R as [s' E]. exists s'. split; [exact E|].
  exact (renderNavRoute_post _ _ _ _ _ _ _ E).
Qed.

End NavProps.

(** * More of the router *)

Module RouterExtra.
Import Router RouterSpec.

(** A leg is horizontal or vertical when its ends share a coordinate. *)
Definition axis_aligned (p q : Point.t) : Prop :=
  Point.x p = Point.x q \/ Point.y p = Point.y q.

(** Every leg of the polyline is horizontal or vertical. *)
Fixpoint rectilinear (l : list Point.t) : Prop :=
  match l with
  | p :: (q :: _) as l' => axis_aligned p q /\ rectilinear l'
  | _ => True
  end.

(** NaN absorbs the arithmetic of the router. *)
Lemma nan_mul (a : float) : nan * a = nan.
Proof. apply Prim2SF_inj. rewrite mul_spec. reflexivity. Qed.

Lemma nan_sub (a : float) : nan - a = nan.
Proof. apply Prim2SF_inj. rewrite sub_spec. reflexivity. Qed.

Lemma sub_nan (a : float) : a - nan = nan.
Proof.
  apply Prim2SF_inj. rewrite sub_spec. change (Prim2SF nan) with S754_nan.
  destruct (Prim2SF a); reflexivity.
Qed.

Lemma gtb_abs_nan (a : float) : Num.gtb (abs nan) a = false.
Proof.
  unfold Num.gtb. rewrite ltb_spec. change (Prim2SF (abs nan)) with S754_nan.
  unfold SFltb. destruct (Prim2SF a); reflexivity.
Qed.

Lemma nearest_nil (scale target : float) : nearest [] scale target = nan.
Proof. unfold nearest. cbn [fold_left nth]. apply nan_mul. Qed.

(** A route with all three optional waypoints (7 points) turns only at right
    angles: its six legs are horizontal and vertical in turn. *)
Theorem full_route_is_rectilinear (sx sy ex ey : float) (hYs vXs : list float)
    (mapW mapH : float) :
  length (buildGridRoute sx sy ex ey hYs vXs mapW mapH) = 7%nat ->
  rectilinear (buildGridRoute sx sy ex ey hYs vXs mapW mapH).
Proof.
  rewrite buildGridRoute_waypoints. unfold waypoints.
  repeat match goal with |- context [if ?b then _ else _] => destruct b end;
    simpl; intros H; try discriminate H;
    unfold axis_aligned; simpl; repeat split; auto.
Qed.

Lemma full_route_is_rectilinear_witness :
  rectilinear (buildGridRoute 580 850 260 120 MapGenerator.hYs MapGenerator.vXs 1200 1200).
Proof.
  apply (full_route_is_rectilinear 580 850 260 120 MapGenerator.hYs MapGenerator.vXs
           1200 1200).
  vm_compute. reflexivity.
Defined.

(** With a jog left out the route may cut a corner: the last leg of this one
    runs from (528, 72) to (530, 120). *)
Example short_route_has_a_slanted_leg :
  ~ rectilinear
      (buildGridRoute 520 850 530 120 MapGenerator.hYs MapGenerator.vXs 1200 1200).
Proof.
  replace (buildGridRoute 520 850 530 120 MapGenerator.hYs MapGenerator.vXs 1200 1200)
    with [Point.mk 520 850; Point.mk 528 850; Point.mk 528 456; Point.mk 528 456;
          Point.mk 528 72; Point.mk 530 120] by (vm_compute; reflexivity).
  simpl. unfold axis_aligned. simpl. intros (_ & _ & _ & _ & [H|H] & _).
  - apply (f_equal Prim2SF) in H. vm_compute in H. discriminate H.
  - apply (f_equal Prim2SF) in H. vm_compute in H. discriminate H.
Qed.

(** On a grid that lacks the vertical lines, or the horizontal ones, the
    snapped coordinate is NaN ([undefined * extent]): the router does not
    throw, and no comparison with NaN adds a waypoint. *)
Theorem route_on_missing_lines (sx sy ex ey : float) (hYs vXs : list float)
    (mapW mapH : float) :
  (let hMid := nearest hYs mapH ((sy + ey) * 0.45) in
   let hEnd := nearest hYs mapH ey in
   buildGridRoute sx sy ex ey hYs [] mapW mapH
   = [Point.mk sx sy; Point.mk nan hMid; Point.mk nan hMid]
     ++ (if Num.gtb (abs (hEnd - hMid)) 20 then [Point.mk nan hEnd] else [])
     ++ [Point.mk ex ey])
  /\ (let vRoad1 := nearest vXs mapW sx in
      let vRoad2 := nearest vXs mapW ex in
      buildGridRoute sx sy ex ey [] vXs mapW mapH
      = [Point.mk sx sy]
        ++ (if Num.gtb (abs (vRoad1 - sx)) 3 then [Point.mk vRoad1 sy] else [])
        ++ [Point.mk vRoad1 nan; Point.mk vRoad2 nan; Point.mk ex ey]).
Proof.
  split; cbv zeta; rewrite buildGridRoute_waypoints; unfold waypoints;
    rewrite !nearest_nil, ?nan_sub, ?sub_nan, !gtb_abs_nan.
  - destruct (Num.gtb _ 20); reflexivity.
  - destruct (Num.gtb _ 3); reflexivity.
Qed.

End RouterExtra.

(** * More of the map generator *)

Module GeneratorExtra.
Import MapGenerator MapGeneratorProps.

(** The generator never reaches 0 from a seed of its range: 16807 and the
    modulus are coprime. *)
Lemma lehmer_positive (s : Z) :
  (1 <= s <= 2147483646)%Z -> (1 <= lehmer s <= 2147483646)%Z.
Proof.
  intros Hs. pose proof (lehmer_range s) as R.
  assert (N : lehmer s <> 0%Z).
  { unfold lehmer. intros E.
    apply Z.mod_divide in E; [|lia].
    rewrite Z.mul_comm in E. apply Z.gauss in E; [|reflexivity].
    destruct E as [q E]. nia. }
  lia.
Qed.

Lemma lehmer_iter_positive (seed : Z) (k : nat) :
  (1 <= seed <= 2147483646)%Z -> (1 <= Nat.iter k lehmer seed <= 2147483646)%Z.
Proof.
  intros Hs. induction k as [|k IH]; [exact Hs|].
  cbn [Nat.iter nat_rect]. apply lehmer_positive, IH.
Qed.

(** For a whole seed from 1 to 2^31 - 2, every state of the generator is the
    state of the integer Lehmer generator, computed without rounding, and
    lies from 1 to 2^31 - 2 again: the stream never collapses to 0. *)
Theorem generator_is_exact_on_whole_seeds (seed : Z) (k : nat) :
  (1 <= seed <= 2147483646)%Z ->
  state_after (Num.of_Z seed) k = Num.of_Z (Nat.iter k lehmer seed)
  /\ (1 <= Nat.iter k lehmer seed <= 2147483646)%Z.
Proof.
  intros Hs. split.
  - apply lehmer_states. lia.
  - apply lehmer_iter_positive, Hs.
Qed.

Lemma generator_is_exact_on_whole_seeds_witness :
  state_after (Num.of_Z 77) 3 = Num.of_Z (Nat.iter 3 lehmer 77%Z)
  /\ (1 <= Nat.iter 3 lehmer 77%Z <= 2147483646)%Z.
Proof.
  apply (generator_is_exact_on_whole_seeds 77 3). lia.
Defined.

(** The draw of the stuck generator. *)
Definition stuck_draw : float := (0 - 1) / 2147483646.

(** The seed 0 is a fixed point of the generator: every draw is the same
    (slightly negative) number, and the 110 buildings are one unlit building
    repeated, whatever the extent. *)
Theorem seed_zero_repeats_one_building (mapW mapH : float) :
  createFixedBuildings mapW mapH 0
  = repeat (Building.mk (stuck_draw * (mapW + 80) - 40) (stuck_draw * (mapH + 80) - 40)
              (12 + stuck_draw * 50) (12 + stuck_draw * 40)
              (Building.mkHsl (215 + stuck_draw * 25) (12 + stuck_draw * 12)
                 (10 + stuck_draw * 10))
              false) 110.
Proof.
  assert (N : next 0 = 0) by (vm_compute; reflexivity).
  assert (L : Num.gtb stuck_draw 0.65 = false) by (vm_compute; reflexivity).
  assert (B : building mapW mapH 0
              = (Building.mk (stuck_draw * (mapW + 80) - 40)
                   (stuck_draw * (mapH + 80) - 40)
                   (12 + stuck_draw * 50) (12 + stuck_draw * 40)
                   (Building.mkHsl (215 + stuck_draw * 25) (12 + stuck_draw * 12)
                      (10 + stuck_draw * 10))
                   false, 0)).
  { unfold building, rng. rewrite !N. fold stuck_draw. rewrite L. reflexivity. }
  unfold createFixedBuildings. generalize 110%nat. intros n.
  induction n as [|n IH]; [reflexivity|].
  cbn [buildings_loop repeat]. rewrite B, IH. reflexivity.
Qed.

End GeneratorExtra.

(** * More of the renderer *)

Module RendererExtra.
Import Canvas Ctx Renderer RendererProps.
#[local] Open Scope canvas_scope.

(** ** When [drawMap] throws *)

Lemma bind_fails_left (m k : M unit) (c : t) : m c = None -> (m ;; k) c = None.
Proof. unfold bind. intros ->. reflexivity. Qed.

Lemma bind_fails_right (m k : M unit) :
  (forall c, k c = None) -> forall c, (m ;; k) c = None.
Proof. intros H c. unfold bind. destruct (m c) as [[[] c1]|]; [apply H | reflexivity]. Qed.

Lemma forEach_fails {A : Type} (l : list A) (f : A -> M unit) (a : A) :
  In a l -> (forall c, f a c = None) -> forall c, forEach l f c = None.
Proof.
  intros Hin Ha. induction l as [|b l IH]; [contradiction|].
  destruct Hin as [->|Hin]; cbn [forEach]; intros c.
  - apply bind_fails_left, Ha.
  - apply bind_fails_right, IH, Hin.
Qed.

Lemma drawRoad_fails (r : Road.t) : Road.points r = [] -> forall c, drawRoad r c = None.
Proof. intros H c. unfold drawRoad. rewrite H. reflexivity. Qed.

Lemma drawRoute_fails : forall c, drawRoute [] c = None.
Proof. intros c. reflexivity. Qed.

Lemma drawPark_fails (p : park) :
  all_finite [park_x p; park_y p; park_r p; 0; TWO_PI] = true ->
  (park_r p <? zero) = true -> forall c, drawPark p c = None.
Proof.
  intros Hf Hr c. unfold drawPark, arc, guarded. rewrite Hf, Hr. reflexivity.
Qed.

(** What a call of [drawMap] cannot draw: a road or a route without a first
    point, or a park whose radius is a negative number. *)
Definition undrawable (roads : list Road.t) (options : options) : Prop :=
  (exists r, In r roads /\ Road.points r = [])
  \/ route options = Some []
  \/ (exists ps p, parks options = Some ps /\ In p ps
                   /\ all_finite [park_x p; park_y p; park_r p] = true
                   /\ (park_r p <? zero) = true).

(** [drawMap] does not return when a road has no point or the route is empty
    (reading [points[0].x] throws a [TypeError]) or when a park has a
    negative radius ([arc] throws an [IndexSizeError]), whatever the rest of
    the input and the state of the context. *)
Theorem drawMap_throws_on_undrawable_input (fuel : nat) (mapW mapH : float)
    (roads : list Road.t) (buildings : list Building.t) (options : options) (c : t) :
  undrawable roads options ->
  drawMap fuel mapW mapH roads buildings options c = None.
Proof.
  intros H. unfold drawMap. revert c.
  do 5 apply bind_fails_right.
  destruct H as [(r & Hin & Hr)|[Hroute|(ps & p & Hps & Hin & Hf & Hr)]].
  - apply bind_fails_right. intros c. apply bind_fails_left.
    apply (forEach_fails roads drawRoad r Hin (drawRoad_fails r Hr)).
  - do 2 apply bind_fails_right. intros c. apply bind_fails_left.
    rewrite Hroute. reflexivity.
  - intros c. apply bind_fails_left. rewrite Hps. cbn [whenSome].
    apply (forEach_fails ps drawPark p Hin). apply drawPark_fails; trivial.
Qed.

Lemma drawMap_throws_on_undrawable_input_witness :
  drawMap 8 1200 1200 [Road.mk [] 3 false] [] no_options (fresh 1200 1200) = None.
Proof.
  apply (drawMap_throws_on_undrawable_input 8 1200 1200 [Road.mk [] 3 false] []
           no_options (fresh 1200 1200)).
  left. exists (Road.mk [] 3 false). split; [left|]; reflexivity.
Defined.

(** ** When it returns *)

(** The grid of any extent can be drawn: each road has its two points. *)
Lemma grid_roads_have_points (mapW mapH : float) (r : Road.t) :
  In r (Grid.roads (MapGenerator.createFixedRoadGrid mapW mapH)) -> Road.points r <> [].
Proof.
  cbn [MapGenerator.createFixedRoadGrid Grid.roads mapi mapi_from MapGenerator.hYs
       MapGenerator.vXs app]. intros H.
  repeat (destruct H as [<-|H]; [discriminate|]). contradiction.
Qed.

(** [drawMap] returns, on any context, as soon as every road and the route
    have a first point, no park has a negative radius and the window loops
    of the buildings end within the fuel. *)
Theorem drawMap_returns_on_drawable_input (fuel : nat) (mapW mapH : float)
    (roads : list Road.t) (buildings : list Building.t) (options : options) (c : t) :
  forallb (windows_ok fuel) buildings = true ->
  (forall r, In r roads -> Road.points r <> []) ->
  (forall ps p, parks options = Some ps -> In p ps -> (park_r p <? zero) = false) ->
  route options <> Some [] ->
  exists c', drawMap fuel mapW mapH roads buildings options c = Some (tt, c').
Proof.
  intros Hb Hr Hp Hroute.
  exact (drawMap_returns fuel mapW mapH roads buildings options Hb Hr Hp Hroute c).
Qed.

Lemma drawMap_returns_on_drawable_input_witness :
  exists c',
    drawMap 8 1200 1200 (Grid.roads (MapGenerator.createFixedRoadGrid 1200 1200))
      (MapGenerator.createFixedBuildings 1200 1200 77)
      (mkOptions true (Some [mkPark 300 420 30]) (Some [Point.mk 0 0; Point.mk 96 0])
         None (Some (Point.mk 96 72)) None)
      (fresh 1200 1200)
    = Some (tt, c').
Proof.
  apply (drawMap_returns_on_drawable_input 8 1200 1200).
  - vm_compute. reflexivity.
  - apply grid_roads_have_points.
  - intros ps p E Hin. cbn [parks] in E. injection E as <-.
    destruct Hin as [<-|[]]. reflexivity.
  - discriminate.
Defined.

(** ** The pen [drawMap] leaves behind *)

(** The line cap, the line join and the dash list of a context. *)
Definition look : Type := (cap * join * list float)%type.

Section Pen.
Variables (w0 h0 : Z) (sc0 : float * float).

(** A context of the given size and scale with the given look. *)
Definition pen_is (l : look) (c : t) : Prop :=
  width c = w0 /\ height c = h0 /\ Canvas.scale c = sc0
  /\ (lineCap c, lineJoin c, lineDash c) = l.

(** From a context with look [l] the command, when it returns, leaves the
    size and the scale as they were and the look [l']. *)
Definition turns (l l' : look) (m : M unit) : Prop :=
  forall c c', pen_is l c -> m c = Some (tt, c') -> pen_is l' c'.

Lemma turns_bind (l l' l'' : look) (m n : M unit) :
  turns l l' m -> turns l' l'' n -> turns l l'' (m ;; n).
Proof.
  intros Hm Hn c c' H. unfold bind. destruct (m c) as [[[] c1]|] eqn:E; [|discriminate].
  apply Hn, (Hm c c1 H E).
Qed.

Lemma turns_ret (l : look) : turns l l (ret tt).
Proof. intros c c' H E. injection E as <-. exact H. Qed.

Lemma turns_when (b : bool) (l : look) (m : M unit) :
  turns l l m -> turns l l (when b m).
Proof. destruct b; simpl; [trivial | intros _; apply turns_ret]. Qed.

Lemma turns_whenSome {A : Type} (o : option A) (l : look) (f : A -> M unit) :
  (forall a, turns l l (f a)) -> turns l l (whenSome o f).
Proof. destruct o; simpl; [trivial | intros _; apply turns_ret]. Qed.

Lemma turns_forEach {A : Type} (xs : list A) (l : look) (f : A -> M unit) :
  (forall a, turns l l (f a)) -> turns l l (forEach xs f).
Proof.
  intros H. induction xs as [|a xs IH]; simpl; [apply turns_ret|].
  apply (turns_bind l l l); [apply H | exact IH].
Qed.

Lemma turns_for_lt (fuel : nat) (limit step : float) (l : look)
    (body : float -> M unit) :
  (forall v, turns l l (body v)) -> forall v, turns l l (for_lt fuel v limit step body).
Proof.
  intros H. induction fuel as [|fuel IH]; intros v; simpl; destruct (v <? limit);
    try apply turns_ret.
  - intros c c' _ E. discriminate E.
  - apply (turns_bind l l l); [apply H | apply IH].
Qed.

Lemma turns_guarded (args : list float) (l : look) (m : M unit) :
  turns l l m -> turns l l (guarded args m).
Proof.
  unfold guarded. destruct (all_finite args); [trivial | intros _; apply turns_ret].
Qed.

Ltac prim_turns :=
  intros [] c' H E; unfold pen_is in *; cbn in *; injection E as <-; cbn;
  decompose [and] H; repeat split; trivial.

Lemma turns_set_fillStyle v l : turns l l (set_fillStyle v).
Proof.
  unfold set_fillStyle. destruct (valid_style v); [prim_turns | apply turns_ret].
Qed.
Lemma turns_set_strokeStyle v l : turns l l (set_strokeStyle v).
Proof.
  unfold set_strokeStyle. destruct (valid_style v); [prim_turns | apply turns_ret].
Qed.
Lemma turns_set_lineWidth v l : turns l l (set_lineWidth v).
Proof.
  unfold set_lineWidth. destruct (valid_width v); [prim_turns | apply turns_ret].
Qed.
Lemma turns_set_font v l : turns l l (set_font v).
Proof. prim_turns. Qed.
Lemma turns_beginPath l : turns l l beginPath.
Proof. prim_turns. Qed.
Lemma turns_set_lineCap v k j d : turns (k, j, d) (v, j, d) (set_lineCap v).
Proof.
  intros [] c' H E; unfold pen_is in *; cbn in *; injection E as <-; cbn.
  decompose [and] H. repeat split; trivial. congruence.
Qed.
Lemma turns_set_lineJoin v k j d : turns (k, j, d) (k, v, d) (set_lineJoin v).
Proof.
  intros [] c' H E; unfold pen_is in *; cbn in *; injection E as <-; cbn.
  decompose [and] H. repeat split; trivial. congruence.
Qed.
Lemma turns_setLineDash v k j d :
  valid_dash v = true -> Nat.odd (length v) = false ->
  turns (k, j, d) (k, j, v) (setLineDash v).
Proof.
  unfold setLineDash. intros -> ->.
  intros [] c' H E; unfold pen_is in *; cbn in *; injection E as <-; cbn.
  decompose [and] H. repeat split; trivial. congruence.
Qed.
Lemma turns_add_seg sg l : turns l l (add_seg sg).
Proof. prim_turns. Qed.
Lemma turns_moveTo x y l : turns l l (moveTo x y).
Proof. apply turns_guarded, turns_add_seg. Qed.
Lemma turns_lineTo x y l : turns l l (lineTo x y).
Proof. apply turns_guarded, turns_add_seg. Qed.
Lemma turns_arc x y r a0 a1 l : turns l l (arc x y r a0 a1).
Proof.
  apply turns_guarded. destruct (r <? zero); [|apply turns_add_seg].
  intros c c' _ E. discriminate E.
Qed.
Lemma turns_ellipse x y rx ry rot a0 a1 l : turns l l (ellipse x y rx ry rot a0 a1).
Proof.
  apply turns_guarded. destruct ((rx <? zero) || (ry <? zero)); [|apply turns_add_seg].
  intros c c' _ E. discriminate E.
Qed.
Lemma turns_fillRect x y w h l : turns l l (fillRect x y w h).
Proof. apply turns_guarded. prim_turns. Qed.
Lemma turns_strokeRect x y w h l : turns l l (strokeRect x y w h).
Proof. apply turns_guarded. prim_turns. Qed.
Lemma turns_fill l : turns l l fill.
Proof. prim_turns. Qed.
Lemma turns_stroke l : turns l l stroke.
Proof. prim_turns. Qed.
Lemma turns_fillText txt x y l : turns l l (fillText txt x y).
Proof. apply turns_guarded. prim_turns. Qed.
Lemma turns_clearRect x y w h l : turns l l (clearRect x y w h).
Proof.
  apply turns_guarded.
  intros [] c' H E; unfold pen_is in *; cbn in *.
  destruct (covers _ _ _ _ _); injection E as <-; cbn;
    decompose [and] H; repeat split; trivial.
Qed.

End Pen.

Create HintDb turns.
#[local] Hint Resolve turns_set_fillStyle turns_set_strokeStyle turns_set_lineWidth
  turns_set_font turns_beginPath turns_set_lineCap turns_set_lineJoin
  turns_moveTo turns_lineTo turns_arc turns_ellipse
  turns_fillRect turns_strokeRect turns_fill turns_stroke turns_fillText turns_clearRect
  turns_ret : turns.
#[local] Hint Extern 1 (turns _ _ _ _ _ (setLineDash _)) =>
  apply turns_setLineDash; reflexivity : turns.

Ltac turned := repeat (eapply turns_bind; [solve [auto with turns]|]); auto with turns.

Lemma turns_polyline w0 h0 sc0 (pts : list Point.t) l : turns w0 h0 sc0 l l (polyline pts).
Proof.
  destruct pts as [|q rest]; simpl.
  - intros c c' _ E. discriminate E.
  - eapply turns_bind; [auto with turns|].
    apply turns_forEach. intros a. auto with turns.
Qed.
#[local] Hint Resolve turns_polyline : turns.

(** A road is stroked with round caps and joins; a main road leaves the dash
    list empty after its centre line. *)
Lemma turns_drawRoad w0 h0 sc0 (r : Road.t) k j d :
  turns w0 h0 sc0 (k, j, d) (RoundCap, RoundJoin, if Road.main r then [] else d)
    (drawRoad r).
Proof.
  unfold drawRoad. turned. destruct (Road.main r); cbn [when]; [turned | auto with turns].
Qed.

Lemma turns_roads w0 h0 sc0 (roads : list Road.t) : forall k j d,
  turns w0 h0 sc0 (k, j, d)
    (match roads with [] => k | _ => RoundCap end,
     match roads with [] => j | _ => RoundJoin end,
     if existsb Road.main roads then [] else d)
    (forEach roads drawRoad).
Proof.
  induction roads as [|r roads IH]; intros k j d; cbn [forEach existsb].
  - apply turns_ret.
  - eapply turns_bind; [apply turns_drawRoad|].
    replace (if Road.main r || existsb Road.main roads then [] else d)
      with (if existsb Road.main roads then [] else if Road.main r then [] else d)
      by (destruct (Road.main r), (existsb Road.main roads); reflexivity).
    replace RoundCap with (match roads with [] => RoundCap | _ => RoundCap end) at 2
      by (destruct roads; reflexivity).
    replace RoundJoin with (match roads with [] => RoundJoin | _ => RoundJoin end) at 2
      by (destruct roads; reflexivity).
    apply IH.
Qed.

(** Does the call stroke a line: has it a road or a route to draw? *)
Definition strokes_a_line (roads : list Road.t) (options : options) : bool :=
  match roads, route options with
  | [], None => false
  | _, _ => true
  end.

(** The look after [drawMap]. *)
Definition look_after (roads : list Road.t) (options : options) (l : look) : look :=
  let '(k, j, d) := l in
  (if strokes_a_line roads options then RoundCap else k,
   if strokes_a_line roads options then RoundJoin else j,
   if existsb Road.main roads then [] else d).

Lemma drawMap_turns w0 h0 sc0 (fuel : nat) (mapW mapH : float)
    (roads : list Road.t) (buildings : list Building.t) (options : options) (l : look) :
  turns w0 h0 sc0 l (look_after roads options l)
    (drawMap fuel mapW mapH roads buildings options).
Proof.
  destruct l as [[k j] d]. unfold drawMap.
  eapply turns_bind; [auto with turns|].
  eapply turns_bind; [auto with turns|].
  eapply turns_bind; [auto with turns|].
  eapply turns_bind; [apply turns_when; turned|].
  eapply turns_bind.
  { apply turns_forEach. intros [x y w h color lit]. unfold drawBuilding.
    turned. apply turns_when. turned.
    apply turns_for_lt. intros wx. apply turns_for_lt. intros wy. auto with turns. }
  eapply turns_bind.
  { apply turns_whenSome. intros ps. apply turns_forEach. intros p.
    unfold drawPark. turned. }
  eapply turns_bind; [apply turns_roads|].
  apply (turns_bind _ _ _ _ (look_after roads options (k, j, d))).
  { unfold look_after, strokes_a_line.
    destruct (route options) as [rp|]; cbn [whenSome].
    - unfold drawRoute.
      eapply turns_bind; [auto with turns|].
      eapply turns_bind; [auto with turns|].
      eapply turns_bind; [auto with turns|].
      eapply turns_bind; [auto with turns|].
      eapply turns_bind; [apply turns_set_lineCap|].
      eapply turns_bind; [apply turns_set_lineJoin|].
      destruct roads; turned.
    - destruct roads; apply turns_ret. }
  eapply turns_bind; [apply turns_whenSome; intros p; unfold drawPin; turned|].
  eapply turns_bind; [apply turns_whenSome; intros p; unfold drawPin; turned|].
  apply turns_whenSome. intros ls. apply turns_forEach. intros a.
  unfold drawLabel. turned.
Qed.

(** When [drawMap] returns it has changed neither the size of the bitmap nor
    the scale; the line cap and the line join are round if it had a road or
    a route to stroke, and as it found them otherwise; the dash list is empty
    if it drew a main road, and as it found it otherwise. *)
Theorem drawMap_pen_after (fuel : nat) (mapW mapH : float) (roads : list Road.t)
    (buildings : list Building.t) (options : options) (c c' : t) :
  drawMap fuel mapW mapH roads buildings options c = Some (tt, c') ->
  width c' = width c /\ height c' = height c /\ Canvas.scale c' = Canvas.scale c
  /\ lineCap c' = (if strokes_a_line roads options then RoundCap else lineCap c)
  /\ lineJoin c' = (if strokes_a_line roads options then RoundJoin else lineJoin c)
  /\ lineDash c' = (if existsb Road.main roads then [] else lineDash c).
Proof.
  intros E.
  assert (P : pen_is (width c) (height c) (Canvas.scale c)
                (lineCap c, lineJoin c, lineDash c) c) by (repeat split).
  destruct (drawMap_turns _ _ _ fuel mapW mapH roads buildings options _ c c' P E)
    as (W & H & S & L).
  cbn [look_after] in L. injection L as -> -> ->. repeat split; trivial.
Qed.

(** The context the first call on a new canvas leaves, and the second. *)
Definition after_first : t :=
  match draw_the_map (fresh 1200 1200) with Some (_, c) => c | None => fresh 0 0 end.

Definition after_second : t :=
  match draw_the_map after_first with Some (_, c) => c | None => fresh 0 0 end.

Lemma drawMap_pen_after_witness :
  width after_first = width (fresh 1200 1200)
  /\ height after_first = height (fresh 1200 1200)
  /\ Canvas.scale after_first = Canvas.scale (fresh 1200 1200)
  /\ lineCap after_first = RoundCap
  /\ lineJoin after_first = RoundJoin
  /\ lineDash after_first = [].
Proof.
  apply (drawMap_pen_after 8 1200 1200
           (Grid.roads (MapGenerator.createFixedRoadGrid 1200 1200))
           (MapGenerator.createFixedBuildings 1200 1200 77) no_options
           (fresh 1200 1200) after_first).
  vm_compute. reflexivity.
Defined.

Lemma erases_same (c1 c2 : t) (x y w h : float) :
  width c1 = width c2 -> height c1 = height c2 -> Canvas.scale c1 = Canvas.scale c2 ->
  erases c1 x y w h = erases c2 x y w h.
Proof.
  destruct c1, c2. cbn. intros -> -> ->. reflexivity.
Qed.

(** The effect of the first call on the pen is the only one: when [drawMap]
    has a line to stroke, and a main road among the roads or no dash to start
    with, a third call with the same arguments paints exactly what the second
    call painted, whatever the pen of the context was before the first. *)
Theorem drawMap_repeats_after_the_first_call (fuel : nat) (mapW mapH : float)
    (roads : list Road.t) (buildings : list Building.t) (options : options)
    (c c1 c2 : t) :
  forallb valid_building buildings = true ->
  forallb valid_road roads = true ->
  erases c 0 0 mapW mapH = true ->
  strokes_a_line roads options = true ->
  existsb Road.main roads = true \/ lineDash c = [] ->
  drawMap fuel mapW mapH roads buildings options c = Some (tt, c1) ->
  drawMap fuel mapW mapH roads buildings options c1 = Some (tt, c2) ->
  exists c3, drawMap fuel mapW mapH roads buildings options c2 = Some (tt, c3)
             /\ painted c3 = painted c2.
Proof.
  intros Hb Hr Hcov Hline Hdash E1 E2.
  assert (P : pen_is (width c) (height c) (Canvas.scale c)
                (lineCap c, lineJoin c, lineDash c) c) by (repeat split).
  destruct (drawMap_turns _ _ _ fuel mapW mapH roads buildings options _ c c1 P E1)
    as (W & H & S & L).
  cbn [look_after] in L. rewrite Hline in L. injection L as Hcap Hjoin Hd.
  apply (drawMap_twice_with_a_round_pen fuel mapW mapH roads buildings options c1 c2);
    trivial.
  - rewrite <- Hcov. apply erases_same; trivial.
  - rewrite Hd. destruct Hdash as [->| ->]; [reflexivity|].
    destruct (existsb Road.main roads); reflexivity.
Qed.

Lemma drawMap_repeats_after_the_first_call_witness :
  exists c3, draw_the_map after_second = Some (tt, c3)
             /\ painted c3 = painted after_second.
Proof.
  apply (drawMap_repeats_after_the_first_call 8 1200 1200
           (Grid.roads (MapGenerator.createFixedRoadGrid 1200 1200))
           (MapGenerator.createFixedBuildings 1200 1200 77) no_options
           (fresh 1200 1200) after_first after_second).
  - vm_compute. reflexivity.
  - vm_compute. reflexivity.
  - vm_compute. reflexivity.
  - reflexivity.
  - left. reflexivity.
  - vm_compute. reflexivity.
  - vm_compute. reflexivity.
Defined.

(** An example of [drawMap_forgets_surface]: what the new canvas holds does
    not matter to the map of the navigation screen. *)
Lemma drawMap_forgets_surface_witness :
  drawMap 8 1200 1200 (Grid.roads (MapGenerator.createFixedRoadGrid 1200 1200))
    (MapGenerator.createFixedBuildings 1200 1200 77) no_options
    (set_painted [Fill (1, 1) (Css "#fff") [Arc 600 600 50 0 TWO_PI]] (fresh 1200 1200))
  = drawMap 8 1200 1200 (Grid.roads (MapGenerator.createFixedRoadGrid 1200 1200))
      (MapGenerator.createFixedBuildings 1200 1200 77) no_options (fresh 1200 1200).
Proof.
  apply (drawMap_forgets_surface 8 1200 1200). vm_compute. reflexivity.
Defined.

End RendererExtra.

(** * More of the navigation screen *)

Module NavExtra.
Import App.

(** The transform that [updateMapTransform] computes in a state. *)
Definition transform_of (s : state) : Camera.transform :=
  Camera.mkTransform
    (screenW s / 2 - Point.x (currentCarPos s) * ZOOM + gpsOffsetX s)
    (screenH s / 2 - Point.y (currentCarPos s) * ZOOM + gpsOffsetY s)
    ZOOM.

(** The transform that a render computes: the route start at the centre of
    the screen that the page reports, without drift. *)
Definition first_transform (e : env) (routeStart : Point.t) : Camera.transform :=
  Camera.mkTransform (clientWidth e / 2 - Point.x routeStart * ZOOM + 0)
    (clientHeight e / 2 - Point.y routeStart * ZOOM + 0) ZOOM.

(** When the transform it computes is one the page accepts (finite numbers),
    the result of [renderNavRoute] is a function of its arguments and of what
    the page reports (pixel ratio, size of the parent): assigning the width
    and the height resets the canvas, and every variable the function reads
    it has written before.  So the state it is called in does not matter, and
    rendering the same route again changes nothing.  (A transform that is not
    accepted would leave the one of the state in place.) *)
Theorem render_forgets_the_state (fuel : nat) (e : env) (routeStart routeEnd : Point.t)
    (labels : option (list Renderer.label)) (s1 s2 : state) :
  Camera.valid (first_transform e routeStart) = true ->
  renderNavRoute fuel e routeStart routeEnd labels s1
  = renderNavRoute fuel e routeStart routeEnd labels s2.
Proof.
  unfold first_transform. intros Hv. unfold renderNavRoute. cbv zeta.
  destruct s1 as [b1 x1 y1 n1 w1 h1 p1 t1 [c1 sw1 sh1 st1 so1]].
  destruct s2 as [b2 x2 y2 n2 w2 h2 p2 t2 [c2 sw2 sh2 st2 so2]].
  cbn [set_screenW set_screenH set_navCtx set_mapCanvas set_canvas set_style_size
       mapCanvas canvas Canvas.set_width Canvas.set_height Canvas.width Canvas.height
       Canvas.fresh gpsBaseLatLng gpsOffsetX gpsOffsetY navCtx screenW screenH
       currentCarPos mapTransformEl style_width style_height style_transform
       style_transformOrigin].
  destruct (drawNavScene _ _ _ _ _ _ _ _) as [[u c]|]; [|reflexivity].
  cbv beta iota zeta delta
    [updateMapTransform set_style_transform set_style_transformOrigin
     set_screenW set_screenH set_navCtx set_mapCanvas set_canvas set_style_size
     set_currentCarPos set_mapTransformEl set_gpsBaseLatLng set_gpsOffsetX
     set_gpsOffsetY mapCanvas canvas gpsBaseLatLng gpsOffsetX gpsOffsetY navCtx
     screenW screenH currentCarPos mapTransformEl style_width style_height
     style_transform style_transformOrigin Point.x Point.y] in Hv |- *.
  rewrite Hv. reflexivity.
Qed.

Lemma render_forgets_the_state_witness :
  renderNavRoute 8 (mkEnv 3 390 844) (Point.mk 580 850) (Point.mk 260 120) None
    (init (mkElement (Canvas.fresh 300 150) None None None None))
  = renderNavRoute 8 (mkEnv 3 390 844) (Point.mk 580 850) (Point.mk 260 120) None
      (set_gpsOffsetX 40
         (set_screenW 1000
            (init (mkElement (Canvas.fresh 10 10) (Some 5) None
                     (Some (Camera.mkTransform 1 2 2.2)) None)))).
Proof.
  apply (render_forgets_the_state 8 (mkEnv 3 390 844) (Point.mk 580 850)
           (Point.mk 260 120) None).
  reflexivity.
Defined.

Section Fixes.
Variable cos : float -> float.

(** With a baseline, the state after a fix depends on the baseline and on
    that fix alone, when the transform the fix computes is one the page
    accepts: the fix erases what the fix before it did.  (A transform that is
    not accepted, with NaN for a latitude say, leaves the one of the fix
    before in place.) *)
Theorem last_fix_wins (lat1 lng1 lat2 lng2 : float) (s : state) :
  gpsBaseLatLng s <> None ->
  Camera.valid (transform_of (onPosition cos lat2 lng2 s)) = true ->
  onPosition cos lat2 lng2 (onPosition cos lat1 lng1 s) = onPosition cos lat2 lng2 s.
Proof.
  destruct s as [b x y n w h p t [c sw sh st so]]. cbn [gpsBaseLatLng].
  destruct b as [base|]; [intros _ | congruence].
  unfold onPosition, transform_of.
  cbv beta iota zeta delta
    [updateMapTransform set_style_transform set_style_transformOrigin
     set_mapCanvas set_gpsOffsetX set_gpsOffsetY mapCanvas canvas gpsBaseLatLng
     gpsOffsetX gpsOffsetY navCtx screenW screenH currentCarPos mapTransformEl
     style_width style_height style_transform style_transformOrigin].
  destruct t as [[]|]; [|reflexivity].
  intros Hv. rewrite !Hv.
  match goal with
  | |- context [if Camera.valid ?t1 then _ else _] => destruct (Camera.valid t1)
  end; reflexivity.
Qed.

Lemma sub_self (a : float) : F64.finite a -> a - a = zero.
Proof. intros H. apply Prim2SF_inj. rewrite (F64.sub_diag a H). reflexivity. Qed.

Lemma zero_mul_finite (a : float) : F64.finite a -> zero * a = zero \/ zero * a = neg_zero.
Proof.
  intros H.
  assert (E : exists sg, Prim2SF (zero * a) = S754_zero sg).
  { rewrite mul_spec. change (Prim2SF zero) with (S754_zero false).
    destruct (F64.finite_SF a H) as [[sg ->]|(sg & m & e & ->)]; eexists; reflexivity. }
  destruct E as [[] E]; [right | left]; apply Prim2SF_inj; rewrite E; reflexivity.
Qed.

(** A fix at the baseline itself gives no drift: the offsets are zeros (of
    either sign), as they are after a render. *)
Theorem fix_at_the_baseline_has_no_drift (base : latlng) (s : state) :
  gpsBaseLatLng s = Some base ->
  F64.finite (lat base) -> F64.finite (lng base) ->
  F64.finite (cos (lat base * PI / 180)) ->
  is_zero (gpsOffsetX (onPosition cos (lat base) (lng base) s)) = true
  /\ is_zero (gpsOffsetY (onPosition cos (lat base) (lng base) s)) = true.
Proof.
  intros Hb Hlat Hlng Hcos. unfold onPosition. rewrite Hb.
  match goal with
  | |- context [updateMapTransform ?S] =>
      destruct (NavProps.updateMapTransform_camera S) as (_ & -> & -> & _)
  end.
  destruct s as [b x y n w h p t el].
  cbn [gpsBaseLatLng set_gpsOffsetX set_gpsOffsetY gpsOffsetX gpsOffsetY rawOffset
       Point.x Point.y].
  rewrite (sub_self _ Hlat), (sub_self _ Hlng).
  change (zero * 111320) with zero.
  destruct (zero_mul_finite _ Hcos) as [-> | ->]; split; reflexivity.
Qed.

End Fixes.

Definition blank : element := mkElement (Canvas.fresh 300 150) None None None None.

(** A navigation screen of 390 x 844 pixels after a render, with a baseline
    and a transform from an earlier fix. *)
Definition tracking : state :=
  set_gpsBaseLatLng (Some (mkLatLng 19 72.8))
    (set_mapTransformEl (Some MapCanvas)
       (set_currentCarPos (Point.mk 580 850)
          (set_screenH 844
             (set_screenW 390
                (init (mkElement (Canvas.fresh 300 150) (Some 1200) (Some 1200)
                         (Some (Camera.mkTransform 1 2 2.2)) (Some (0, 0)))))))).

Lemma last_fix_wins_witness :
  onPosition (fun _ => 1) 19.002 72.8 (onPosition (fun _ => 1) 19.001 72.8 tracking)
  = onPosition (fun _ => 1) 19.002 72.8 tracking.
Proof.
  apply (last_fix_wins (fun _ => 1) 19.001 72.8 19.002 72.8 tracking).
  - discriminate.
  - vm_compute. reflexivity.
Defined.

Lemma fix_at_the_baseline_has_no_drift_witness :
  let s := set_gpsOffsetX 40 (set_gpsBaseLatLng (Some (mkLatLng 19 72.8)) (init blank)) in
  is_zero (gpsOffsetX (onPosition (fun _ => 1) 19 72.8 s)) = true
  /\ is_zero (gpsOffsetY (onPosition (fun _ => 1) 19 72.8 s)) = true.
Proof.
  apply (fix_at_the_baseline_has_no_drift (fun _ => 1) (mkLatLng 19 72.8)
           (set_gpsOffsetX 40 (set_gpsBaseLatLng (Some (mkLatLng 19 72.8)) (init blank))));
    reflexivity.
Defined.

End NavExtra.

(** * The home screen *)

Module HomeProps.
Import Canvas Ctx Renderer RendererProps RendererExtra Home.
#[local] Open Scope canvas_scope.

#[local] Hint Resolve turns_set_fillStyle turns_set_strokeStyle turns_set_lineWidth
  turns_beginPath turns_arc turns_fill turns_stroke turns_ret : turns.

(** The three paints of the driver dot: a halo, the dot and its outline. *)
Definition driver_dot (sc : float * float) (k : cap) (j : join) (d : list float)
    (x y : float) : list paint :=
  [Fill sc (Css "rgba(59, 130, 246, 0.2)") [Arc x y 10 0 TWO_PI];
   Fill sc (Css "#3b82f6") [Arc x y 6 0 TWO_PI];
   Stroke sc (mkPen (Css "#fff") 2 k j d) [Arc x y 6 0 TWO_PI]].

Lemma drawDriverDot_paints (dp : Point.t) (c : t) :
  F64.finite (Point.x dp) -> F64.finite (Point.y dp) ->
  exists c', drawDriverDot dp c = Some (tt, c')
             /\ painted c'
                = painted c ++ driver_dot (Canvas.scale c) (lineCap c) (lineJoin c)
                                 (lineDash c) (Point.x dp) (Point.y dp).
Proof.
  unfold F64.finite. intros Hx Hy. destruct c.
  unfold drawDriverDot, arc, guarded, all_finite. cbn [forallb]. rewrite Hx, Hy.
  cbn. eexists. split; [reflexivity|]. cbn. rewrite <- !app_assoc. reflexivity.
Qed.

(** [startHomeMap] returns when the window loops of its buildings end, and
    the last thing it paints, over the map, its pin and its labels, is the
    driver dot 25 to the left of the pickup pin and 35 below it: a halo, the
    dot and a white outline of width 2, stroked with the round caps and
    joins and the empty dash list that the roads leave. *)
Theorem home_map_ends_with_the_driver_dot (fuel : nat)
    (devicePixelRatio w h : float) (homeMapCanvas : t) :
  forallb (windows_ok fuel) (MapGenerator.createFixedBuildings w h 42) = true ->
  F64.finite (w * 0.48 - 25) -> F64.finite (h * 0.35 + 35) ->
  exists c' map,
    startHomeMap fuel devicePixelRatio w h homeMapCanvas = Some (tt, c')
    /\ painted c'
       = map ++ driver_dot (Canvas.scale c') RoundCap RoundJoin []
                  (w * 0.48 - 25) (h * 0.35 + 35).
Proof.
  intros Hwin Hx Hy. unfold startHomeMap, drawHomeScene. cbv zeta.
  set (c0 := set_height _ (set_width _ _)).
  set (opts := mkOptions _ _ _ _ _ _).
  set (roads := Grid.roads _).
  destruct (returns_scale (App.or1 devicePixelRatio) (App.or1 devicePixelRatio) c0)
    as [c1 E1].
  assert (R : returns (drawMap fuel w h roads (MapGenerator.createFixedBuildings w h 42)
                         opts)).
  { apply drawMap_returns; trivial.
    - apply grid_roads_have_points.
    - intros ps p E Hin. cbn [parks opts] in E. injection E as <-.
      destruct Hin as [<-|[]]. reflexivity.
    - discriminate. }
  destruct (R c1) as [c2 E2].
  assert (P : pen_is (width c1) (height c1) (Canvas.scale c1)
                (lineCap c1, lineJoin c1, lineDash c1) c1) by (repeat split).
  destruct (drawMap_turns _ _ _ fuel w h roads _ opts _ c1 c2 P E2) as (_ & _ & S & L).
  cbn in L. injection L as Hcap Hjoin Hdash.
  destruct (drawDriverDot_paints (Point.mk (w * 0.48 - 25) (h * 0.35 + 35)) c2 Hx Hy)
    as (c3 & E3 & P3).
  exists c3, (painted c2). split.
  - unfold bind. rewrite E1. fold roads. rewrite E2. exact E3.
  - rewrite P3. cbn [Point.x Point.y]. rewrite Hcap, Hjoin, Hdash.
    f_equal. f_equal.
    assert (T : turns (width c2) (height c2) (Canvas.scale c2)
                  (RoundCap, RoundJoin, []) (RoundCap, RoundJoin, [])
                  (drawDriverDot (Point.mk (w * 0.48 - 25) (h * 0.35 + 35)))).
    { unfold drawDriverDot. turned. }
    assert (P2 : pen_is (width c2) (height c2) (Canvas.scale c2)
                   (RoundCap, RoundJoin, []) c2)
      by (repeat split; rewrite Hcap, Hjoin, Hdash; reflexivity).
    destruct (T c2 c3 P2 E3) as (_ & _ & S3 & _). symmetry. exact S3.
Qed.

Lemma home_map_ends_with_the_driver_dot_witness :
  exists c' map,
    startHomeMap 8 3 390 844 (fresh 300 150) = Some (tt, c')
    /\ painted c'
       = map ++ driver_dot (Canvas.scale c') RoundCap RoundJoin []
                  (390 * 0.48 - 25) (844 * 0.35 + 35).
Proof.
  apply (home_map_ends_with_the_driver_dot 8 3 390 844 (fresh 300 150)).
  - vm_compute. reflexivity.
  - reflexivity.
  - reflexivity.
Defined.

End HomeProps.

(** * The timers of the screens, whatever happens *)

Module UiInvariant.
Import Dom Ui.
#[local] Open Scope nat_scope.

(** The four intervals of the script, and its timeouts. *)
Inductive kind : Type := Request | Road | Trip | Glitch | Once.

Definition kind_of (cb : callback) : kind :=
  match cb with
  | RequestTick _ => Request
  | RoadTick _ _ _ => Road
  | TripTick _ _ _ _ => Trip
  | GlitchTick _ _ => Glitch
  | _ => Once
  end.

Definition kind_eqb (a b : kind) : bool :=
  match a, b with
  | Request, Request | Road, Road | Trip, Trip | Glitch, Glitch | Once, Once => true
  | _, _ => false
  end.

Lemma kind_eqb_eq (a b : kind) : kind_eqb a b = true <-> a = b.
Proof. destruct a, b; simpl; split; congruence. Qed.

Definition is_kind (k : kind) (t : timer) : bool := kind_eqb (kind_of (run t)) k.

(** How many timers of a kind are armed. *)
Definition count (k : kind) (ts : list timer) : nat := length (filter (is_kind k) ts).

(** The timers left by [clearInterval(i)]. *)
Definition without (i : nat) (ts : list timer) : list timer :=
  filter (fun t => negb (Nat.eqb (id t) i)) ts.

(** A closure that names its own interval names the timer it is armed on. *)
Definition named (t : timer) : Prop :=
  match run t with
  | RequestTick i => i = id t
  | GlitchTick g _ => g = id t
  | _ => True
  end.

(** The progress interval and the rotation interval are the ones that the
    variables [tripInterval] and [roadRotationInterval] hold. *)
Definition owned (trip road : option nat) (t : timer) : Prop :=
  match run t with
  | TripTick _ _ _ _ => trip = Some (id t)
  | RoadTick _ _ _ => road = Some (id t)
  | _ => True
  end.

(** A variable holds the id of a timer of its kind, armed or not any more. *)
Definition holds (v : option nat) (k : kind) (nid : nat) (ts : list timer) : Prop :=
  forall j, v = Some j ->
    j < nid /\ forall t, In t ts -> id t = j -> kind_of (run t) = k.

(** The invariant, on the timers, the next id and the variables. *)
Record wf_core (ts : list timer) (nid : nat) (trip road : option nat) (req : nat)
    (triggered : bool) : Prop :=
  mkWf { wf_fresh : forall t, In t ts -> id t < nid;
         wf_nodup : NoDup (map id ts);
         wf_named : forall t, In t ts -> named t;
         wf_owned : forall t, In t ts -> owned trip road t;
         wf_repeats : forall t, In t ts -> kind_of (run t) <> Once -> every t <> None;
         wf_request : count Request ts <= 1;
         wf_glitch : count Glitch ts <= (if triggered then 1 else 0);
         wf_trip : holds trip Trip nid ts;
         wf_road : holds road Road nid ts;
         wf_req : holds (Some req) Request nid ts }.

Definition wf (s : state) : Prop :=
  wf_core (timers s) (nextId s) (tripInterval s) (roadRotationInterval s)
    (reqTimerInterval s) (glitchTriggered s).

(** What a callback may do to the timers: disarm some, and arm new ones;
    and it does not reset [glitchTriggered]. *)
Definition ext (s0 s : state) : Prop :=
  (nextId s0 <= nextId s
   /\ forall u, In u (timers s) -> In u (timers s0) \/ nextId s0 <= id u)
  /\ (glitchTriggered s0 = true -> glitchTriggered s = true).

(** The request countdown runs on an interval that the variable
    [reqTimerInterval] does not hold. *)
Definition alive (s : state) : Prop :=
  1 <= count Request (timers s)
  /\ (forall u, In u (timers s) -> id u <> reqTimerInterval s)
  /\ reqTimerInterval s < nextId s.

(** The state [s] that a piece of script reaches from [s0]; with the flag
    set, the piece has not disarmed the request countdown. *)
Definition inv (strict : bool) (s0 s : state) : Prop :=
  wf s /\ ext s0 s /\ (strict = true -> alive s0 -> alive s).

(** ** Lists of timers *)

Lemma in_without (i : nat) (ts : list timer) (t : timer) :
  In t (without i ts) <-> In t ts /\ id t <> i.
Proof.
  unfold without. rewrite filter_In.
  destruct (Nat.eqb_spec (id t) i); simpl; intuition congruence.
Qed.

Lemma nodup_without (i : nat) (ts : list timer) :
  NoDup (map id ts) -> NoDup (map id (without i ts)).
Proof.
  induction ts as [|t ts IH]; simpl; intros H; [constructor|].
  inversion H as [|? ? Hn Hd]; subst.
  destruct (negb (Nat.eqb (id t) i)); simpl; [|auto].
  constructor; [|auto]. intros Hin. apply Hn.
  apply in_map_iff in Hin. destruct Hin as (u & Hu & Hin).
  apply in_without in Hin. apply in_map_iff. exists u. tauto.
Qed.

Lemma count_without_le (k : kind) (i : nat) (ts : list timer) :
  count k (without i ts) <= count k ts.
Proof.
  unfold count, without. induction ts as [|t ts IH]; simpl; [lia|].
  destruct (negb (Nat.eqb (id t) i)); simpl; destruct (is_kind k t); simpl; lia.
Qed.

Lemma count_snoc (k : kind) (ts : list timer) (t : timer) :
  count k (ts ++ [t]) = count k ts + (if is_kind k t then 1 else 0).
Proof.
  unfold count. rewrite filter_app, length_app. simpl.
  destruct (is_kind k t); reflexivity.
Qed.

Lemma without_absent (i : nat) (ts : list timer) :
  ~ In i (map id ts) -> without i ts = ts.
Proof.
  induction ts as [|t ts IH]; simpl; intros H; [reflexivity|].
  destruct (Nat.eqb_spec (id t) i) as [E|E]; simpl; [tauto|].
  rewrite IH; tauto.
Qed.

(** Clearing the id of an armed timer takes that timer away, and no other. *)
Lemma count_without (k : kind) (ts : list timer) (t : timer) :
  NoDup (map id ts) -> In t ts ->
  count k (without (id t) ts) + (if is_kind k t then 1 else 0) = count k ts.
Proof.
  induction ts as [|u ts IH]; simpl; intros Hd Hin; [contradiction|].
  inversion Hd as [|? ? Hn Hd']; subst.
  destruct Hin as [->|Hin].
  - unfold count, without. simpl. rewrite Nat.eqb_refl. simpl.
    fold (without (id t) ts). rewrite (without_absent _ _ Hn).
    destruct (is_kind k t); simpl; lia.
  - assert (E : id u <> id t).
    { intros E. apply Hn. rewrite E. apply in_map, Hin. }
    specialize (IH Hd' Hin). unfold count, without in *. simpl.
    destruct (Nat.eqb_spec (id u) (id t)); [contradiction|]. simpl.
    destruct (is_kind k u); simpl; lia.
Qed.

Lemma count_without_other (k : kind) (i : nat) (ts : list timer) :
  (forall u, In u ts -> id u = i -> kind_of (run u) <> k) ->
  count k (without i ts) = count k ts.
Proof.
  unfold count, without. induction ts as [|t ts IH]; simpl; intros H; [reflexivity|].
  destruct (Nat.eqb_spec (id t) i) as [E|E]; simpl.
  - assert (K : is_kind k t = false).
    { unfold is_kind. destruct (kind_eqb (kind_of (run t)) k) eqn:Ek; trivial.
      apply kind_eqb_eq in Ek. exfalso. apply (H t); auto. }
    rewrite K. apply IH. intros u Hu. apply H. auto.
  - destruct (is_kind k t); simpl; rewrite IH; trivial; intros u Hu; apply H; auto.
Qed.

Lemma nodup_snoc (ts : list timer) (t : timer) :
  NoDup (map id ts) -> ~ In (id t) (map id ts) -> NoDup (map id (ts ++ [t])).
Proof.
  intros Hd Hn. rewrite map_app. apply NoDup_app; trivial.
  - simpl. constructor; [tauto | constructor].
  - intros a Ha [<-|[]]. contradiction.
Qed.

Lemma fresh_absent (ts : list timer) (nid : nat) :
  (forall t, In t ts -> id t < nid) -> ~ In nid (map id ts).
Proof.
  intros H Hin. apply in_map_iff in Hin. destruct Hin as (u & Hu & Hin).
  specialize (H u Hin). lia.
Qed.

(** ** The invariant under the operations on timers *)

Section Core.
Variables (ts : list timer) (nid : nat) (trip road : option nat) (req : nat)
  (triggered : bool).
Hypothesis W : wf_core ts nid trip road req triggered.

Lemma holds_without (v : option nat) (k : kind) (i : nat) :
  holds v k nid ts -> holds v k nid (without i ts).
Proof.
  intros H j E. destruct (H j E) as [L K]. split; [exact L|].
  intros t Hin. apply in_without in Hin. apply K, Hin.
Qed.

Lemma core_without (i : nat) : wf_core (without i ts) nid trip road req triggered.
Proof.
  destruct W as [F D N O R Q G T Rd Rq]. constructor.
  - intros t Hin. apply in_without in Hin. apply F, Hin.
  - apply nodup_without, D.
  - intros t Hin. apply in_without in Hin. apply N, Hin.
  - intros t Hin. apply in_without in Hin. apply O, Hin.
  - intros t Hin. apply in_without in Hin. apply R, Hin.
  - pose proof (count_without_le Request i ts). lia.
  - pose proof (count_without_le Glitch i ts). destruct triggered; lia.
  - apply holds_without, T.
  - apply holds_without, Rd.
  - apply holds_without, Rq.
Qed.

Lemma holds_snoc (v : option nat) (k : kind) (t : timer) :
  id t = nid -> holds v k nid ts -> holds v k (S nid) (ts ++ [t]).
Proof.
  intros Ht H j E. destruct (H j E) as [L K]. split; [lia|].
  intros u Hin Hu. apply in_app_iff in Hin. destruct Hin as [Hin|[<-|[]]].
  - apply K; trivial.
  - lia.
Qed.

(** Arming a timer of a kind that is not armed yet (or a timeout), on the
    next id, with the variable of its kind set to it. *)
Lemma core_snoc (d : Z) (e : option Z) (cb : callback) (trip' road' : option nat)
    (triggered' : bool) :
  let t := mkTimer nid d e cb in
  named t -> (kind_of cb <> Once -> e <> None) ->
  (kind_of cb = Request -> count Request ts = 0) ->
  (kind_of cb = Glitch -> count Glitch ts = 0 /\ triggered' = true) ->
  (kind_of cb <> Glitch -> triggered' = triggered) ->
  (kind_of cb = Trip -> count Trip ts = 0 /\ trip' = Some nid) ->
  (kind_of cb <> Trip -> trip' = trip) ->
  (kind_of cb = Road -> count Road ts = 0 /\ road' = Some nid) ->
  (kind_of cb <> Road -> road' = road) ->
  wf_core (ts ++ [t]) (S nid) trip' road' req triggered'.
Proof.
  intros t Hn He Hq Hg Hg' Ht Ht' Hr Hr'.
  destruct W as [F D N O R Q G T Rd Rq].
  assert (Z0 : forall k u, count k ts = 0 -> In u ts -> kind_of (run u) <> k).
  { intros k u Hc Hin Hk. unfold count in Hc.
    assert (Hf : In u (filter (is_kind k) ts)).
    { apply filter_In. split; trivial. unfold is_kind. apply kind_eqb_eq, Hk. }
    destruct (filter (is_kind k) ts); [contradiction | discriminate]. }
  constructor.
  - intros u Hin. apply in_app_iff in Hin. destruct Hin as [Hin|[<-|[]]].
    + specialize (F u Hin). lia.
    + simpl. lia.
  - apply nodup_snoc; trivial. apply fresh_absent, F.
  - intros u Hin. apply in_app_iff in Hin. destruct Hin as [Hin|[<-|[]]]; auto.
  - intros u Hin. apply in_app_iff in Hin. destruct Hin as [Hin|[<-|[]]].
    + specialize (O u Hin). unfold owned in *.
      destruct (run u) eqn:Eu; trivial.
      * destruct (kind_of cb) eqn:Ek;
          try (rewrite Hr' by congruence; exact O).
        destruct (Hr eq_refl) as [Hc _]. exfalso.
        apply (Z0 Road u Hc Hin). rewrite Eu. reflexivity.
      * destruct (kind_of cb) eqn:Ek;
          try (rewrite Ht' by congruence; exact O).
        destruct (Ht eq_refl) as [Hc _]. exfalso.
        apply (Z0 Trip u Hc Hin). rewrite Eu. reflexivity.
    + unfold owned, t. simpl. destruct cb; trivial.
      * apply Hr. reflexivity.
      * apply Ht. reflexivity.
  - intros u Hin. apply in_app_iff in Hin. destruct Hin as [Hin|[<-|[]]]; auto.
  - rewrite count_snoc. unfold is_kind, t. simpl.
    destruct (kind_of cb) eqn:Ek; simpl; try lia.
    rewrite (Hq eq_refl). lia.
  - rewrite count_snoc. unfold is_kind, t. simpl.
    destruct (kind_of cb) eqn:Ek; simpl;
      try (rewrite Hg' by congruence; destruct triggered; lia).
    destruct (Hg eq_refl) as [-> ->]. lia.
  - destruct (kind_of cb) eqn:Ek;
      try (rewrite Ht' by congruence; apply holds_snoc; trivial).
    destruct (Ht eq_refl) as [_ ->]. intros j E. injection E as <-. split; [lia|].
    intros u Hin Hu. apply in_app_iff in Hin. destruct Hin as [Hin|[<-|[]]].
    + specialize (F u Hin). lia.
    + exact Ek.
  - destruct (kind_of cb) eqn:Ek;
      try (rewrite Hr' by congruence; apply holds_snoc; trivial).
    destruct (Hr eq_refl) as [_ ->]. intros j E. injection E as <-. split; [lia|].
    intros u Hin Hu. apply in_app_iff in Hin. destruct Hin as [Hin|[<-|[]]].
    + specialize (F u Hin). lia.
    + exact Ek.
  - apply holds_snoc; trivial.
Qed.

(** Clearing what the variable of a kind holds leaves no timer of the kind. *)
Lemma no_trip_left :
  count Trip (match trip with Some i => without i ts | None => ts end) = 0.
Proof.
  destruct W as [F D N O R Q G T Rd Rq].
  unfold count. apply length_zero_iff_nil.
  destruct (filter _ _) as [|u l] eqn:E; [reflexivity|]. exfalso.
  assert (Hin : In u (filter (is_kind Trip)
                        (match trip with Some i => without i ts | None => ts end)))
    by (rewrite E; left; reflexivity).
  apply filter_In in Hin. destruct Hin as [Hin Hk].
  unfold is_kind in Hk. apply kind_eqb_eq in Hk.
  destruct trip as [i|].
  - apply in_without in Hin. destruct Hin as [Hin Hi].
    specialize (O u Hin). unfold owned in O.
    destruct (run u); try discriminate Hk. congruence.
  - specialize (O u Hin). unfold owned in O.
    destruct (run u); try discriminate Hk. discriminate O.
Qed.

Lemma no_road_left :
  count Road (match road with Some i => without i ts | None => ts end) = 0.
Proof.
  destruct W as [F D N O R Q G T Rd Rq].
  unfold count. apply length_zero_iff_nil.
  destruct (filter _ _) as [|u l] eqn:E; [reflexivity|]. exfalso.
  assert (Hin : In u (filter (is_kind Road)
                        (match road with Some i => without i ts | None => ts end)))
    by (rewrite E; left; reflexivity).
  apply filter_In in Hin. destruct Hin as [Hin Hk].
  unfold is_kind in Hk. apply kind_eqb_eq in Hk.
  destruct road as [i|].
  - apply in_without in Hin. destruct Hin as [Hin Hi].
    specialize (O u Hin). unfold owned in O.
    destruct (run u); try discriminate Hk. congruence.
  - specialize (O u Hin). unfold owned in O.
    destruct (run u); try discriminate Hk. discriminate O.
Qed.

(** An interval that fired is armed again, with its closure as the callback
    left it. *)
Lemma core_rearm (t : timer) (d : Z) (cb : callback) :
  In t ts -> kind_of cb = kind_of (run t) ->
  named (mkTimer (id t) d (every t) cb) ->
  wf_core (without (id t) ts ++ [mkTimer (id t) d (every t) cb]) nid trip road req
    triggered.
Proof.
  intros Hin Hk Hn. destruct W as [F D N O R Q G T Rd Rq].
  assert (C : forall k, count k (without (id t) ts ++ [mkTimer (id t) d (every t) cb])
                        = count k ts).
  { intros k. rewrite count_snoc, <- (count_without k ts t D Hin).
    unfold is_kind. simpl. rewrite Hk. reflexivity. }
  assert (H' : forall v k, holds v k nid ts ->
                 holds v k nid (without (id t) ts ++ [mkTimer (id t) d (every t) cb])).
  { intros v k H j E. destruct (H j E) as [L K]. split; [exact L|].
    intros u Hu Hj. apply in_app_iff in Hu. destruct Hu as [Hu|[<-|[]]].
    - apply in_without in Hu. apply K; tauto.
    - simpl in *. rewrite Hk. apply K; trivial. }
  constructor.
  - intros u Hu. apply in_app_iff in Hu. destruct Hu as [Hu|[<-|[]]].
    + apply in_without in Hu. apply F, Hu.
    + simpl. apply F, Hin.
  - apply nodup_snoc; [apply nodup_without, D|].
    simpl. intros Hi. apply in_map_iff in Hi. destruct Hi as (u & Hu & Hi).
    apply in_without in Hi. tauto.
  - intros u Hu. apply in_app_iff in Hu. destruct Hu as [Hu|[<-|[]]]; trivial.
    apply in_without in Hu. apply N, Hu.
  - intros u Hu. apply in_app_iff in Hu. destruct Hu as [Hu|[<-|[]]].
    + apply in_without in Hu. apply O, Hu.
    + specialize (O t Hin). unfold owned in *. simpl.
      destruct cb, (run t); simpl in Hk; try discriminate Hk; trivial.
  - intros u Hu. apply in_app_iff in Hu. destruct Hu as [Hu|[<-|[]]].
    + apply in_without in Hu. apply R, Hu.
    + simpl. rewrite Hk. apply R, Hin.
  - rewrite C. exact Q.
  - rewrite C. exact G.
  - apply H', T.
  - apply H', Rd.
  - apply H', Rq.
Qed.

End Core.

(** ** The invariant under the script *)

(** Two states with the same timers and the same variables about them. *)
Definition same_core (x y : state) : Prop :=
  timers y = timers x /\ nextId y = nextId x /\ tripInterval y = tripInterval x
  /\ roadRotationInterval y = roadRotationInterval x
  /\ reqTimerInterval y = reqTimerInterval x /\ glitchTriggered y = glitchTriggered x.

Lemma inv_refl (b : bool) (s : state) : wf s -> inv b s s.
Proof.
  intros H. split; [exact H|]. split; [|auto]. split; [|auto]. split; [lia | auto].
Qed.

Lemma inv_wf (b : bool) (s0 x : state) : inv b s0 x -> wf x.
Proof. intros [W _]. exact W. Qed.

Lemma inv_weaken (b : bool) (s0 x : state) : inv b s0 x -> inv false s0 x.
Proof.
  intros (W & E & _). split; [exact W|]. split; [exact E|]. intros Hb. discriminate Hb.
Qed.

Lemma inv_alive (s0 x : state) :
  inv false s0 x -> (alive s0 -> alive x) -> inv true s0 x.
Proof. intros (W & E & _) A. split; [exact W|]. split; [exact E|]. intros _. exact A. Qed.

Lemma inv_frame (b : bool) (s0 x y : state) : same_core x y -> inv b s0 x -> inv b s0 y.
Proof.
  intros (T & N & Tr & Rd & Rq & G) (W & E & A). unfold inv, wf, ext, alive in *.
  rewrite T, N, Tr, Rd, Rq, G. split; [exact W|]. split; [exact E|]. exact A.
Qed.

Ltac frame := apply inv_frame; match goal with |- same_core ?x _ => destruct x end;
              repeat split.

Lemma inv_write_text b s0 el v x : inv b s0 x -> inv b s0 (write_text el v x).
Proof. frame. Qed.
Lemma inv_write_style b s0 el prop v x : inv b s0 x -> inv b s0 (write_style el prop v x).
Proof. frame. Qed.
Lemma inv_write_text_if_found b s0 el v x :
  inv b s0 x -> inv b s0 (write_text_if_found el v x).
Proof. unfold write_text_if_found. destruct (found _ _); [frame | trivial]. Qed.
Lemma inv_classes_add b s0 el token x : inv b s0 x -> inv b s0 (classes_add el token x).
Proof. frame. Qed.
Lemma inv_classes_remove b s0 el tokens x :
  inv b s0 x -> inv b s0 (classes_remove el tokens x).
Proof. frame. Qed.
Lemma inv_set_page b s0 p x : inv b s0 x -> inv b s0 (set_page p x).
Proof. frame. Qed.
Lemma inv_set_requestTimer b s0 v x : inv b s0 x -> inv b s0 (set_requestTimer v x).
Proof. frame. Qed.
Lemma inv_set_nav b s0 v x : inv b s0 x -> inv b s0 (set_nav v x).
Proof. frame. Qed.
Lemma inv_set_watches b s0 v x : inv b s0 x -> inv b s0 (set_watches v x).
Proof. frame. Qed.
Lemma inv_set_now b s0 v x : inv b s0 x -> inv b s0 (set_now v x).
Proof. frame. Qed.

(** [clearInterval(i)], whatever [i]. *)
Lemma inv_clearInterval s0 i x : inv false s0 x -> inv false s0 (clearInterval i x).
Proof.
  intros (W & E & _). destruct x as [pg gt rt ri rr ti nv w nw nid ts].
  unfold inv, wf, ext, clearInterval in *. cbn in *. split; [|split].
  - apply (core_without _ _ _ _ _ _ W).
  - destruct E as [[L K] G]. split; [|exact G]. split; [exact L|]. intros u Hu.
    apply (in_without i ts) in Hu. apply K, Hu.
  - discriminate.
Qed.

Lemma clearInterval_core (i : nat) (x : state) :
  timers (clearInterval i x) = without i (timers x)
  /\ reqTimerInterval (clearInterval i x) = reqTimerInterval x
  /\ nextId (clearInterval i x) = nextId x.
Proof. destruct x. repeat split. Qed.

(** [clearInterval(i)] when no request countdown is armed on [i]. *)
Lemma inv_clear_other b s0 i x :
  (forall u, In u (timers x) -> id u = i -> kind_of (run u) <> Request) ->
  inv b s0 x -> inv b s0 (clearInterval i x).
Proof.
  intros Hi H. destruct (inv_clearInterval s0 i x (inv_weaken b s0 x H)) as (W & E & _).
  split; [exact W|]. split; [exact E|]. intros Hb A0.
  destruct H as (_ & _ & A). specialize (A Hb A0).
  destruct (clearInterval_core i x) as (T & R & N).
  unfold alive in *. rewrite T, R, N. destruct A as (C & I & L).
  rewrite (count_without_other Request i (timers x) Hi).
  repeat split; trivial. intros u Hu. apply in_without in Hu. apply I, Hu.
Qed.

(** [clearInterval(reqTimerInterval)]. *)
Lemma inv_clear_req b s0 x : inv b s0 x -> inv b s0 (clearInterval (reqTimerInterval x) x).
Proof.
  intros H. destruct (inv_clearInterval s0 (reqTimerInterval x) x (inv_weaken b s0 x H))
    as (W & E & _).
  split; [exact W|]. split; [exact E|]. intros Hb A0.
  destruct H as (_ & _ & A). specialize (A Hb A0).
  destruct (clearInterval_core (reqTimerInterval x) x) as (T & R & N).
  unfold alive in *. rewrite T, R, N. destruct A as (C & I & L).
  rewrite (count_without_other Request (reqTimerInterval x) (timers x))
    by (intros u Hu Eu; exfalso; apply (I u Hu Eu)).
  repeat split; trivial. intros u Hu. apply in_without in Hu. apply I, Hu.
Qed.

(** [if (tripInterval) clearInterval(tripInterval)], and the same on
    [roadRotationInterval]. *)
Lemma inv_clear_trip b s0 x : inv b s0 x -> inv b s0 (clearInterval_if (tripInterval x) x).
Proof.
  intros H. destruct (tripInterval x) as [i|] eqn:Ei; cbn [clearInterval_if]; trivial.
  apply inv_clear_other; trivial. intros u Hu Eu.
  destruct H as ([_ _ _ _ _ _ _ T _ _] & _). destruct (T i Ei) as [_ K].
  rewrite (K u Hu Eu). discriminate.
Qed.

Lemma inv_clear_road b s0 x :
  inv b s0 x -> inv b s0 (clearInterval_if (roadRotationInterval x) x).
Proof.
  intros H. destruct (roadRotationInterval x) as [i|] eqn:Ei; cbn [clearInterval_if]; trivial.
  apply inv_clear_other; trivial. intros u Hu Eu.
  destruct H as ([_ _ _ _ _ _ _ _ Rd _] & _). destruct (Rd i Ei) as [_ K].
  rewrite (K u Hu Eu). discriminate.
Qed.

Lemma arm_core (cb : callback) (ms : Z) (e : option Z) (x : state)
    (trip' road' : option nat) (triggered' : bool) :
  let y := set_glitchTriggered triggered'
             (set_roadRotationInterval road'
                (set_tripInterval trip' (snd (arm cb ms e x)))) in
  timers y = timers x ++ [mkTimer (nextId x) (now x + ms) e cb]
  /\ reqTimerInterval y = reqTimerInterval x /\ nextId y = S (nextId x).
Proof. destruct x. repeat split. Qed.

(** Arming, for a callback whose kind is not armed. *)
Lemma inv_arm b s0 (cb : callback) (ms : Z) (e : option Z) (x : state)
    (trip' road' : option nat) (triggered' : bool) :
  named (mkTimer (nextId x) (now x + ms) e cb) -> (kind_of cb <> Once -> e <> None) ->
  (kind_of cb = Request -> count Request (timers x) = 0) ->
  (kind_of cb = Glitch -> count Glitch (timers x) = 0 /\ triggered' = true) ->
  (kind_of cb <> Glitch -> triggered' = glitchTriggered x) ->
  (kind_of cb = Trip -> count Trip (timers x) = 0 /\ trip' = Some (nextId x)) ->
  (kind_of cb <> Trip -> trip' = tripInterval x) ->
  (kind_of cb = Road -> count Road (timers x) = 0 /\ road' = Some (nextId x)) ->
  (kind_of cb <> Road -> road' = roadRotationInterval x) ->
  inv b s0 x ->
  inv b s0 (set_glitchTriggered triggered'
              (set_roadRotationInterval road'
                 (set_tripInterval trip' (snd (arm cb ms e x))))).
Proof.
  intros Hn He Hq Hg Hg' Ht Ht' Hr Hr' (W & E & A).
  split; [|split].
  - destruct x as [pg gt rt ri rr ti nv w nw nid ts]. unfold wf in *. cbn in *.
    apply (core_snoc _ _ _ _ _ _ W); trivial.
  - destruct x as [pg gt rt ri rr ti nv w nw nid ts]. unfold ext in *. cbn in *.
    destruct E as [[L K] G]. split.
    + split; [lia|]. intros u Hu.
      apply in_app_iff in Hu. destruct Hu as [Hu|[<-|[]]]; [apply K, Hu|].
      right. simpl. lia.
    + intros G0. specialize (G G0).
      destruct (kind_eqb (kind_of cb) Glitch) eqn:Ek.
      * apply kind_eqb_eq in Ek. apply Hg, Ek.
      * rewrite Hg'; [exact G|]. intros Ek'. apply kind_eqb_eq in Ek'. congruence.
  - intros Hb A0. destruct (A Hb A0) as (C & I & L).
    destruct (arm_core cb ms e x trip' road' triggered') as (T & R & N).
    unfold alive. rewrite T, R, N, count_snoc.
    split; [lia|]. split; [|lia]. intros u Hu.
    apply in_app_iff in Hu. destruct Hu as [Hu|[<-|[]]]; [apply I, Hu|]. simpl. lia.
Qed.

Lemma inv_setTimeout b s0 cb ms x :
  kind_of cb = Once -> inv b s0 x -> inv b s0 (setTimeout cb ms x).
Proof.
  intros Hk H.
  assert (I := inv_arm b s0 cb ms None x (tripInterval x) (roadRotationInterval x)
                 (glitchTriggered x)).
  replace (setTimeout cb ms x)
    with (set_glitchTriggered (glitchTriggered x)
            (set_roadRotationInterval (roadRotationInterval x)
               (set_tripInterval (tripInterval x) (snd (arm cb ms None x)))))
    by (destruct x; reflexivity).
  apply I; trivial; try congruence.
  unfold named. simpl. destruct cb; trivial; discriminate.
Qed.

Create HintDb ui.
#[local] Hint Resolve inv_write_text inv_write_style inv_write_text_if_found
  inv_classes_add inv_classes_remove inv_set_page inv_set_requestTimer inv_set_nav
  inv_set_watches inv_set_now inv_clearInterval inv_clear_req inv_clear_trip
  inv_clear_road : ui.
#[local] Hint Extern 1 (inv _ _ (setTimeout _ _ _)) =>
  apply inv_setTimeout; [reflexivity|] : ui.

Ltac chain := repeat match goal with
                     | |- context [if ?b then _ else _] => destruct b
                     end; auto 30 with ui.

Lemma inv_triggerMicroGlitch b s0 x : inv b s0 x -> inv b s0 (triggerMicroGlitch x).
Proof. intros H. unfold triggerMicroGlitch. chain. Qed.
Lemma inv_microGlitchEnd b s0 x : inv b s0 x -> inv b s0 (microGlitchEnd x).
Proof. intros H. unfold microGlitchEnd. chain. Qed.
Lemma inv_showPopup b s0 x : inv b s0 x -> inv b s0 (showPopup x).
Proof. intros H. unfold showPopup. chain. Qed.
Lemma inv_triggerFullGlitch b s0 x : inv b s0 x -> inv b s0 (triggerFullGlitch x).
Proof. intros H. unfold triggerFullGlitch. chain. Qed.
Lemma inv_fullGlitchHeavy b s0 x : inv b s0 x -> inv b s0 (fullGlitchHeavy x).
Proof. intros H. unfold fullGlitchHeavy. chain. Qed.
Lemma inv_fullGlitchFlash b s0 x : inv b s0 x -> inv b s0 (fullGlitchFlash x).
Proof. intros H. unfold fullGlitchFlash. chain. Qed.
Lemma inv_showRoad b s0 names ts idx x : inv b s0 x -> inv b s0 (showRoad names ts idx x).
Proof. intros H. unfold showRoad. chain. Qed.
#[local] Hint Resolve inv_triggerMicroGlitch inv_microGlitchEnd inv_showPopup
  inv_triggerFullGlitch inv_fullGlitchHeavy inv_fullGlitchFlash inv_showRoad : ui.
Lemma inv_fullGlitchEnd b s0 x : inv b s0 x -> inv b s0 (fullGlitchEnd x).
Proof. intros H. unfold fullGlitchEnd. chain. Qed.
#[local] Hint Resolve inv_fullGlitchEnd : ui.

Lemma arm_plain (cb : callback) (ms : Z) (e : option Z) (x : state) :
  set_glitchTriggered (glitchTriggered x)
    (set_roadRotationInterval (roadRotationInterval x)
       (set_tripInterval (tripInterval x) (snd (arm cb ms e x))))
  = snd (arm cb ms e x).
Proof. destruct x. reflexivity. Qed.

Lemma inv_startRequestTimer b s0 x :
  count Request (timers x) = 0 -> inv b s0 x -> inv b s0 (snd (startRequestTimer x)).
Proof.
  intros Hc H. unfold startRequestTimer, setInterval. cbv zeta.
  set (x1 := write_style _ _ _ (write_style _ _ _ x)).
  assert (S1 : same_core x x1) by (subst x1; destruct x; repeat split).
  assert (H1 : inv b s0 x1) by (apply (inv_frame b s0 x x1 S1 H)).
  rewrite <- arm_plain. apply inv_arm; trivial; try discriminate.
  reflexivity.
Qed.

(** [if (v) clearInterval(v); v = setInterval(cb, ms)] on the progress
    interval and on the rotation interval. *)
Lemma inv_start_trip b s0 (cb : callback) (ms : Z) (x : state) :
  kind_of cb = Trip -> inv b s0 x ->
  inv b s0 (let '(i, y) := setInterval cb ms (clearInterval_if (tripInterval x) x) in
            set_tripInterval (Some i) y).
Proof.
  intros Hk H. unfold setInterval.
  set (x1 := clearInterval_if (tripInterval x) x).
  assert (H1 : inv b s0 x1) by (apply inv_clear_trip, H).
  assert (C : count Trip (timers x1) = 0).
  { destruct H as [W _]. pose proof (no_trip_left _ _ _ _ _ _ W) as N.
    subst x1. destruct x as [pg gt rt ri rr [i|] nv w nw nid ts]; exact N. }
  assert (E : (let '(i, y) := arm cb ms (Some ms) x1 in set_tripInterval (Some i) y)
              = set_glitchTriggered (glitchTriggered x1)
                  (set_roadRotationInterval (roadRotationInterval x1)
                     (set_tripInterval (Some (nextId x1))
                        (snd (arm cb ms (Some ms) x1)))))
    by (destruct x1; reflexivity).
  rewrite E. apply inv_arm; trivial; try congruence.
  - unfold named. simpl. destruct cb; trivial; discriminate.
  - auto.
Qed.

Lemma inv_start_road b s0 (cb : callback) (ms : Z) (x : state) :
  kind_of cb = Road -> inv b s0 x ->
  inv b s0 (let '(i, y) :=
              setInterval cb ms (clearInterval_if (roadRotationInterval x) x) in
            set_roadRotationInterval (Some i) y).
Proof.
  intros Hk H. unfold setInterval.
  set (x1 := clearInterval_if (roadRotationInterval x) x).
  assert (H1 : inv b s0 x1) by (apply inv_clear_road, H).
  assert (C : count Road (timers x1) = 0).
  { destruct H as [W _]. pose proof (no_road_left _ _ _ _ _ _ W) as N.
    subst x1. destruct x as [pg gt rt ri [i|] ti nv w nw nid ts]; exact N. }
  assert (E : (let '(i, y) := arm cb ms (Some ms) x1 in
               set_roadRotationInterval (Some i) y)
              = set_glitchTriggered (glitchTriggered x1)
                  (set_roadRotationInterval (Some (nextId x1))
                     (set_tripInterval (tripInterval x1)
                        (snd (arm cb ms (Some ms) x1)))))
    by (destruct x1; reflexivity).
  rewrite E. apply inv_arm; trivial; try congruence.
  - unfold named. simpl. destruct cb; trivial; discriminate.
  - auto.
Qed.

Lemma inv_startTripProgress b s0 x : inv b s0 x -> inv b s0 (startTripProgress x).
Proof. intros H. apply (inv_start_trip b s0 (TripTick 0.12 35 12.4 0) 600 x); trivial. Qed.

Lemma inv_startRoadNameRotation b s0 x : inv b s0 x -> inv b s0 (startRoadNameRotation x).
Proof. intros H. apply (inv_start_road b s0 (RoadTick roadNames turns 0) 8000 x); trivial. Qed.

Lemma inv_startJogeshwariRoadRotation b s0 x :
  inv b s0 x -> inv b s0 (startJogeshwariRoadRotation x).
Proof.
  intros H. unfold startJogeshwariRoadRotation. cbv zeta.
  apply (inv_start_road b s0 (RoadTick jogeshwariRoadNames jogeshwariTurns 0) 8000).
  - reflexivity.
  - auto with ui.
Qed.

Lemma inv_onAvatar b s0 x : inv b s0 x -> inv b s0 (onAvatar x).
Proof.
  intros H. unfold onAvatar. destruct (glitchTriggered x) eqn:G; [exact H|].
  cbv zeta. unfold setInterval.
  replace (snd (arm (GlitchTick (nextId (set_glitchTriggered true x)) 10) 1000
                  (Some 1000%Z) (set_glitchTriggered true x)))
    with (set_glitchTriggered true
            (set_roadRotationInterval (roadRotationInterval x)
               (set_tripInterval (tripInterval x)
                  (snd (arm (GlitchTick (nextId x) 10) 1000 (Some 1000%Z) x)))))
    by (destruct x; reflexivity).
  apply inv_arm; trivial; try discriminate; try reflexivity.
  - intros _. split; [|reflexivity].
    destruct H as ([_ _ _ _ _ _ Gl _ _ _] & _). rewrite G in Gl. lia.
  - intros K. exfalso. apply K. reflexivity.
Qed.

#[local] Hint Resolve inv_startTripProgress inv_startRoadNameRotation
  inv_startJogeshwariRoadRotation inv_onAvatar : ui.

(** ** Callbacks *)

(** A callback leaves its closure as it was, but for the variables that are
    the closure's own. *)
Lemma call_shape (cb : callback) (x : state) :
  kind_of (fst (call cb x)) = kind_of cb
  /\ (forall i d e, named (mkTimer i d e cb) -> named (mkTimer i d e (fst (call cb x)))).
Proof.
  destruct cb; simpl;
    repeat match goal with |- context [let '(_, _) := ?p in _] => destruct p end;
    simpl; auto.
Qed.

Lemma timers_restart (i : nat) (x : state) (v v' : float) (a b : content)
    (e f : css) :
  timers (write_style ".timer-progress" "strokeDashoffset" e
            (write_text ".timer-text" a
               (set_requestTimer v
                  (clearInterval i
                     (write_style ".timer-progress" "strokeDashoffset" f
                        (write_text ".timer-text" b (set_requestTimer v' x)))))))
  = without i (timers x).
Proof. destruct x. reflexivity. Qed.

Lemma same_id (ts : list timer) (t u : timer) :
  NoDup (map id ts) -> In t ts -> In u ts -> id u = id t -> u = t.
Proof.
  induction ts as [|a ts IH]; simpl; intros D Ht Hu E; [contradiction|].
  inversion D as [|? ? Hn D']; subst.
  destruct Ht as [->|Ht], Hu as [->|Hu]; trivial.
  - exfalso. apply Hn. rewrite <- E. apply in_map, Hu.
  - exfalso. apply Hn. rewrite E. apply in_map, Ht.
  - apply IH; trivial.
Qed.

(** [clearInterval] on the id of the timer that fired, which is no request
    countdown. *)
Lemma inv_clear_fired (t : timer) (s0 x : state) :
  wf s0 -> In t (timers s0) -> kind_of (run t) <> Request ->
  inv true s0 x -> inv true s0 (clearInterval (id t) x).
Proof.
  intros W0 Ht Hk H. apply inv_clear_other; trivial.
  intros u Hu Eu. destruct H as (_ & [[L K] _] & _).
  destruct W0 as [F D _ _ _ _ _ _ _ _].
  destruct (K u Hu) as [Hu'|Hu'].
  - rewrite (same_id _ t u D Ht Hu' Eu). exact Hk.
  - specialize (F t Ht). lia.
Qed.

(** The restart of the request countdown leaves one armed. *)
Lemma alive_restart (t : timer) (x y : state) :
  wf x -> In t (timers x) -> alive x -> wf y ->
  timers y = without (id t) (timers x)
             ++ [mkTimer (nextId x) (now y + 1000) (Some 1000%Z) (RequestTick (nextId x))] ->
  reqTimerInterval y = reqTimerInterval x -> nextId y = S (nextId x) ->
  alive y.
Proof.
  intros W Ht (C & I & L) Wy Ty Ry Ny. unfold alive. rewrite Ty, Ry, Ny, count_snoc.
  split; [|split; [|lia]].
  - unfold is_kind. simpl. lia.
  - intros u Hu. apply in_app_iff in Hu. destruct Hu as [Hu|[<-|[]]].
    + apply in_without in Hu. apply I, Hu.
    + simpl. lia.
Qed.

Lemma inv_call (t : timer) (x : state) :
  wf x -> In t (timers x) \/ kind_of (run t) = Once ->
  inv true x (snd (call (run t) x)).
Proof.
  intros W Ht. pose proof (inv_refl true x W) as H.
  destruct (run t) eqn:Er; cbn [call snd].
  - (* the request timer *)
    destruct Ht as [Ht|Ht]; [|discriminate Ht].
    assert (N : interval = id t).
    { destruct W as [_ _ N _ _ _ _ _ _ _]. specialize (N t Ht).
      unfold named in N. rewrite Er in N. exact N. }
    unfold requestTick. cbv zeta.
    match goal with |- context [if ?b then _ else _] => destruct b end;
      [|auto 30 with ui].
    match goal with |- inv true x ?y => assert (Hy : inv false x y) end.
    { apply inv_startRequestTimer; [|apply inv_weaken in H; auto 30 with ui].
      cbn [requestTimer]. rewrite timers_restart. subst interval.
      destruct W as [_ D _ _ _ Q _ _ _ _].
      pose proof (count_without Request (timers x) t D Ht) as C.
      unfold is_kind in C. rewrite Er in C. simpl in C. lia. }
    apply inv_alive; [exact Hy|]. intros A.
    apply (alive_restart t x); trivial; [exact (inv_wf _ _ _ Hy)|].
    subst interval. destruct x. reflexivity.
  - (* the rotation *)
    unfold roadTick. cbn [snd]. auto with ui.
  - (* the progress *)
    unfold tripTick. cbv zeta.
    match goal with |- context [if (100 <=? ?p)%float then _ else _] =>
      destruct (100 <=? p)%float end; cbn [snd]; auto 30 with ui.
  - (* the countdown *)
    destruct Ht as [Ht|Ht]; [|discriminate Ht].
    assert (N : glitchTimer = id t).
    { destruct W as [_ _ N _ _ _ _ _ _ _]. specialize (N t Ht).
      unfold named in N. rewrite Er in N. exact N. }
    subst glitchTimer.
    assert (Hk : kind_of (run t) <> Request) by (rewrite Er; discriminate).
    cbv beta iota zeta delta [glitchTick snd].
    match goal with |- context [if ?b then triggerMicroGlitch x else x] =>
      set (S1 := if b then triggerMicroGlitch x else x) end.
    assert (H1 : inv true x S1) by (subst S1; chain).
    match goal with
    | |- context [if ?b then setTimeout MicroGlitch 300 (triggerMicroGlitch S1) else S1] =>
      set (S2 := if b then setTimeout MicroGlitch 300 (triggerMicroGlitch S1) else S1)
    end.
    assert (H2 : inv true x S2) by (subst S2; chain).
    match goal with |- context [if ?b then _ else _] => destruct b end;
      [|exact H2].
    apply inv_triggerFullGlitch, (inv_clear_fired t x); trivial.
  - auto with ui.
  - auto with ui.
  - auto with ui.
  - auto with ui.
  - auto with ui.
Qed.

(** ** The event loop *)

Lemma earliest_in (ts : list timer) : forall best, In (earliest best ts) (best :: ts).
Proof.
  induction ts as [|t ts IH]; intros best; simpl; [auto|].
  destruct (due t <? due best)%Z.
  - destruct (IH t) as [<-|H]; auto.
  - destruct (IH best) as [<-|H]; auto.
Qed.

Lemma next_timer_in (x : state) (t : timer) : next_timer x = Some t -> In t (timers x).
Proof.
  unfold next_timer. destruct (timers x) as [|b ts]; [discriminate|].
  intros E. injection E as <-. apply earliest_in.
Qed.

Lemma set_timers_core (l : list timer) (x : state) :
  timers (set_timers l x) = l
  /\ reqTimerInterval (set_timers l x) = reqTimerInterval x
  /\ nextId (set_timers l x) = nextId x.
Proof. destruct x. repeat split. Qed.

(** A timer that fires: the timers stay in order, and a request countdown
    that [reqTimerInterval] does not hold stays armed. *)
Lemma fire_keeps (t : timer) (x : state) :
  wf x -> In t (timers x) -> wf (fire t x) /\ (alive x -> alive (fire t x)).
Proof.
  intros W Ht. unfold fire. cbv zeta.
  set (xa := set_now _ x).
  assert (Sa : same_core x xa) by (subst xa; destruct x; repeat split).
  pose proof (inv_frame true x x xa Sa (inv_refl true x W)) as (Wa & _ & Aa).
  specialize (Aa eq_refl).
  assert (Hta : In t (timers xa)) by (destruct Sa as [-> _]; exact Ht).
  destruct (every t) as [ms|] eqn:Ev.
  - destruct (call_shape (run t) xa) as [Hk Hn].
    pose proof (inv_call t xa Wa (or_introl Hta)) as (W1 & [[L K] G1] & A1).
    specialize (A1 eq_refl).
    destruct (call (run t) xa) as [cb x1]. cbn [fst snd] in *.
    destruct (is_armed (id t) x1) eqn:Ea; [|split; [exact W1 | auto]].
    assert (Ht1 : In t (timers x1)).
    { unfold is_armed in Ea. apply existsb_exists in Ea. destruct Ea as (u & Hu & Eu).
      apply Nat.eqb_eq in Eu. destruct (K u Hu) as [Hu'|Hu'].
      - destruct Wa as [_ D _ _ _ _ _ _ _ _].
        rewrite <- (same_id _ t u D Hta Hu' Eu). exact Hu.
      - destruct Wa as [F _ _ _ _ _ _ _ _ _]. specialize (F t Hta). lia. }
    assert (N : named (mkTimer (id t) (now x1 + ms) (every t) cb)).
    { apply Hn. destruct Wa as [_ _ N _ _ _ _ _ _ _]. specialize (N t Hta).
      unfold named in *. simpl. exact N. }
    pose proof (core_rearm _ _ _ _ _ _ W1 t (now x1 + ms) cb Ht1 Hk N) as R.
    rewrite Ev in R. split; [destruct x1; exact R|].
    intros A. destruct (A1 (Aa A)) as (C & I & Lt).
    destruct (set_timers_core (timers (clearInterval (id t) x1)
                               ++ [mkTimer (id t) (now x1 + ms) (Some ms) cb]) x1)
      as (Et & Er & En).
    destruct (clearInterval_core (id t) x1) as (Ec & _ & _).
    unfold alive. rewrite Et, Er, En, Ec, count_snoc.
    destruct W1 as [_ D1 _ _ _ _ _ _ _ _].
    pose proof (count_without Request (timers x1) t D1 Ht1) as Cw.
    unfold is_kind in *. simpl. rewrite Hk.
    split; [lia|]. split; [|exact Lt].
    intros u Hu. apply in_app_iff in Hu. destruct Hu as [Hu|[<-|[]]].
    + apply in_without in Hu. apply I, Hu.
    + simpl. apply I, Ht1.
  - assert (Ko : kind_of (run t) = Once).
    { destruct W as [_ _ _ _ R _ _ _ _ _]. specialize (R t Ht).
      destruct (kind_of (run t)); trivial; exfalso; apply R; trivial; discriminate. }
    assert (Hk : kind_of (run t) <> Request) by (rewrite Ko; discriminate).
    pose proof (inv_clear_fired t xa xa Wa Hta Hk (inv_refl true xa Wa)) as (Wb & _ & Ab).
    pose proof (inv_call t _ Wb (or_intror Ko)) as (Wc & _ & Ac).
    split; [exact Wc|]. intros A. apply Ac, Ab, Aa, A; reflexivity.
Qed.

(** [glitchTriggered], once set, stays set. *)
Lemma fire_glitchTriggered (t : timer) (x : state) :
  wf x -> In t (timers x) ->
  glitchTriggered x = true -> glitchTriggered (fire t x) = true.
Proof.
  intros W Ht G. unfold fire. cbv zeta.
  set (xa := set_now _ x).
  assert (Sa : same_core x xa) by (subst xa; destruct x; repeat split).
  pose proof (inv_frame true x x xa Sa (inv_refl true x W)) as (Wa & _ & _).
  assert (Ga : glitchTriggered xa = true)
    by (destruct Sa as (_ & _ & _ & _ & _ & ->); exact G).
  assert (Hta : In t (timers xa)) by (destruct Sa as [-> _]; exact Ht).
  destruct (every t) as [ms|] eqn:Ev.
  - pose proof (inv_call t xa Wa (or_introl Hta)) as (_ & [_ G1] & _).
    destruct (call (run t) xa) as [cb x1]. cbn [snd] in G1.
    destruct (is_armed (id t) x1); [|exact (G1 Ga)].
    transitivity (glitchTriggered x1); [destruct x1; reflexivity | exact (G1 Ga)].
  - assert (Ko : kind_of (run t) = Once).
    { destruct W as [_ _ _ _ R _ _ _ _ _]. specialize (R t Ht).
      destruct (kind_of (run t)); trivial; exfalso; apply R; trivial; discriminate. }
    assert (Hk : kind_of (run t) <> Request) by (rewrite Ko; discriminate).
    pose proof (inv_clear_fired t xa xa Wa Hta Hk (inv_refl true xa Wa))
      as (Wb & [_ Gb] & _).
    pose proof (inv_call t _ Wb (or_intror Ko)) as (_ & [_ Gc] & _).
    exact (Gc (Gb Ga)).
Qed.

Section Browser.
Variable cos : float -> float.
Variable fuel : nat.

Lemma inv_handle (i : input) (x : state) : wf x -> inv true x (handle cos fuel i x).
Proof.
  intros W. pose proof (inv_refl true x W) as H.
  destruct i as [e geo| |e|lat lng]; cbn [handle].
  - unfold onAccept, renderNavRoute, initGPSTracking. cbv zeta.
    destruct (App.renderNavRoute fuel e _ _ _ _) as [n|];
      [destruct (App.initGPSTracking cos geo)|]; auto 30 with ui.
  - apply (inv_onAvatar true x x H).
  - unfold onPopupOk, renderNavRoute. cbv zeta.
    destruct (App.renderNavRoute fuel e _ _ _ _) as [n|]; [|auto 30 with ui].
    apply (inv_start_trip true x (TripTick 0.1 28 15.6 0) 600); [reflexivity|].
    auto 30 with ui.
  - unfold onFix. auto with ui.
Qed.

Lemma step_keeps (x : state) (ev : event) :
  wf x -> wf (step cos fuel x ev) /\ (alive x -> alive (step cos fuel x ev)).
Proof.
  intros W. destruct ev as [|ms i]; cbn [step].
  - destruct (next_timer x) as [t|] eqn:E; [|auto].
    apply fire_keeps; [exact W | apply next_timer_in, E].
  - set (xa := set_now _ x).
    assert (Sa : same_core x xa) by (subst xa; destruct x; repeat split).
    pose proof (inv_frame true x x xa Sa (inv_refl true x W)) as (Wa & _ & Aa).
    destruct (inv_handle i xa Wa) as (Wh & _ & Ah).
    split; [exact Wh|]. intros A. apply Ah, Aa, A; reflexivity.
Qed.

Lemma wf_loaded (p : Dom.page) (el : App.element) : wf (loaded p el).
Proof.
  unfold wf, loaded. cbn. constructor; cbn.
  - intros t [<-|[]]. simpl. lia.
  - repeat constructor. simpl. tauto.
  - intros t [<-|[]]. reflexivity.
  - intros t [<-|[]]. exact I.
  - intros t [<-|[]] _. discriminate.
  - unfold count. simpl. lia.
  - unfold count. simpl. lia.
  - intros j E. discriminate E.
  - intros j E. discriminate E.
  - intros j E. injection E as <-. split; [lia|]. intros t [<-|[]] _. reflexivity.
Qed.

Lemma steps_keep (evs : list event) :
  forall x, wf x ->
  wf (steps cos fuel evs x) /\ (alive x -> alive (steps cos fuel evs x)).
Proof.
  induction evs as [|ev evs IH]; intros x W; [auto|].
  destruct (step_keeps x ev W) as [W1 A1].
  destruct (IH _ W1) as [W2 A2]. split; [exact W2|]. intros A. apply A2, A1, A.
Qed.

Lemma step_glitchTriggered (x : state) (ev : event) :
  wf x -> glitchTriggered x = true -> glitchTriggered (step cos fuel x ev) = true.
Proof.
  intros W G. destruct ev as [|ms i]; cbn [step].
  - destruct (next_timer x) as [t|] eqn:E; [|exact G].
    apply fire_glitchTriggered; [exact W | apply next_timer_in, E | exact G].
  - set (xa := set_now _ x).
    assert (Sa : same_core x xa) by (subst xa; destruct x; repeat split).
    pose proof (inv_frame true x x xa Sa (inv_refl true x W)) as (Wa & _ & _).
    destruct (inv_handle i xa Wa) as (_ & [_ Gh] & _). apply Gh.
    destruct Sa as (_ & _ & _ & _ & _ & ->). exact G.
Qed.

Lemma steps_glitchTriggered (evs : list event) :
  forall x, wf x -> glitchTriggered x = true ->
  glitchTriggered (steps cos fuel evs x) = true.
Proof.
  induction evs as [|ev evs IH]; intros x W G; [exact G|].
  apply IH; [apply step_keeps, W | apply step_glitchTriggered; trivial].
Qed.

Lemma count_owned (k : kind) (v : option nat) (ts : list timer) :
  NoDup (map id ts) ->
  (forall t, In t ts -> kind_of (run t) = k -> v = Some (id t)) ->
  count k ts <= 1.
Proof.
  intros D O. unfold count.
  destruct (filter (is_kind k) ts) as [|a [|b l]] eqn:E; simpl; try lia.
  exfalso.
  assert (Ha : In a (filter (is_kind k) ts)) by (rewrite E; simpl; auto).
  assert (Hb : In b (filter (is_kind k) ts)) by (rewrite E; simpl; auto).
  apply filter_In in Ha, Hb. destruct Ha as [Ha Ka], Hb as [Hb Kb].
  unfold is_kind in Ka, Kb. apply kind_eqb_eq in Ka, Kb.
  pose proof (O a Ha Ka) as Ea. pose proof (O b Hb Kb) as Eb.
  assert (Eid : id b = id a) by congruence.
  pose proof (same_id ts a b D Ha Hb Eid) as ->.
  assert (Dl : NoDup (filter (is_kind k) ts))
    by (apply NoDup_filter, (NoDup_map_inv id), D).
  rewrite E in Dl. inversion Dl as [|? ? Hn _]. apply Hn. left. reflexivity.
Qed.

(** Whatever the user does and whenever the timers fire, from the loaded
    page on, at most one interval of each kind is armed: one request
    countdown, one rotation of the road names, one trip progress and one
    glitch countdown.  Starting a progress or a rotation clears the one
    before it. *)
Theorem one_interval_of_each_kind (p : Dom.page) (el : App.element)
    (evs : list event) :
  let s := steps cos fuel evs (loaded p el) in
  count Request (timers s) <= 1 /\ count Road (timers s) <= 1
  /\ count Trip (timers s) <= 1 /\ count Glitch (timers s) <= 1.
Proof.
  intros s. pose proof (proj1 (steps_keep evs _ (wf_loaded p el))) as W. fold s in W.
  destruct W as [F D N O R Q G T Rd Rq].
  split; [exact Q|]. split; [|split].
  - apply (count_owned Road (roadRotationInterval s)); trivial.
    intros t Ht Hk. specialize (O t Ht). unfold owned in O.
    destruct (run t); try discriminate Hk. exact O.
  - apply (count_owned Trip (tripInterval s)); trivial.
    intros t Ht Hk. specialize (O t Ht). unfold owned in O.
    destruct (run t); try discriminate Hk. exact O.
  - destruct (glitchTriggered s); lia.
Qed.

End Browser.

(** ** A restart replaces *)

(** The timers of a kind that are armed. *)
Definition armed (k : kind) (s : state) : list timer := filter (is_kind k) (timers s).

(** [if (v) clearInterval(v)] on the list of timers. *)
Definition cleared (v : option nat) (ts : list timer) : list timer :=
  match v with Some i => without i ts | None => ts end.

Lemma filter_cleared_none (P : timer -> bool) (v : option nat) (ts : list timer) :
  (forall u, In u ts -> P u = true -> v = Some (id u)) -> filter P (cleared v ts) = [].
Proof.
  intros H. destruct (filter P (cleared v ts)) as [|u l] eqn:E; [reflexivity|]. exfalso.
  assert (Hin : In u (filter P (cleared v ts))) by (rewrite E; left; reflexivity).
  apply filter_In in Hin. destruct Hin as [Hin Hp]. destruct v as [i|]; cbn [cleared] in Hin.
  - apply in_without in Hin. destruct Hin as [Hin Hi].
    specialize (H u Hin Hp). congruence.
  - specialize (H u Hin Hp). discriminate H.
Qed.

Lemma filter_cleared_same (P : timer -> bool) (v : option nat) (ts : list timer) :
  (forall u, In u ts -> v = Some (id u) -> P u = false) ->
  filter P (cleared v ts) = filter P ts.
Proof.
  destruct v as [i|]; cbn [cleared]; [|reflexivity]. unfold without.
  induction ts as [|t ts IH]; intros H; [reflexivity|]. cbn [filter].
  destruct (Nat.eqb_spec (id t) i) as [E|E]; cbn [negb].
  - rewrite (H t (or_introl eq_refl)) by congruence.
    apply IH. intros u Hu. apply H. right. exact Hu.
  - cbn [filter]. destruct (P t); rewrite IH; trivial; intros u Hu; apply H; right; exact Hu.
Qed.

(** A timer of the kind [k] armed on the next id after the variable of the
    kind was cleared, then a timer of the kind [k'] armed in the same way:
    they are the only ones of their kinds. *)
Lemma replaced (k k' : kind) (v v' : option nat) (ts : list timer) (nid : nat)
    (a b : timer) :
  k <> k' -> kind_of (run a) = k -> kind_of (run b) = k' -> id a = nid ->
  (forall u, In u ts -> is_kind k u = true -> v = Some (id u)) ->
  (forall u, In u ts -> is_kind k' u = true -> v' = Some (id u)) ->
  holds v' k' nid ts ->
  filter (is_kind k) (cleared v' (cleared v ts ++ [a]) ++ [b]) = [a]
  /\ filter (is_kind k') (cleared v' (cleared v ts ++ [a]) ++ [b]) = [b].
Proof.
  intros Hkk Ha Hb Hid O O' H'.
  assert (Ka : is_kind k a = true) by (unfold is_kind; rewrite Ha; apply kind_eqb_eq; trivial).
  assert (Kb : is_kind k' b = true) by (unfold is_kind; rewrite Hb; apply kind_eqb_eq; trivial).
  assert (Ka' : is_kind k' a = false).
  { unfold is_kind. rewrite Ha. destruct (kind_eqb k k') eqn:E; trivial.
    apply kind_eqb_eq in E. contradiction. }
  assert (Kb' : is_kind k b = false).
  { unfold is_kind. rewrite Hb. destruct (kind_eqb k' k) eqn:E; trivial.
    apply kind_eqb_eq in E. congruence. }
  rewrite !filter_app. cbn [filter]. rewrite Kb, Kb'. split.
  - rewrite app_nil_r, filter_cleared_same.
    + rewrite filter_app. cbn [filter]. rewrite Ka.
      rewrite (filter_cleared_none _ v ts O). reflexivity.
    + intros u Hu Ev. apply in_app_iff in Hu. destruct Hu as [Hu|[<-|[]]].
      * assert (Hu' : In u ts)
          by (destruct v; cbn [cleared] in Hu; [apply in_without in Hu; tauto | exact Hu]).
        destruct (H' (id u) Ev) as [_ K]. specialize (K u Hu' eq_refl).
        unfold is_kind. rewrite K. destruct (kind_eqb k' k) eqn:E; trivial.
        apply kind_eqb_eq in E. congruence.
      * destruct (H' (id a) Ev) as [L _]. lia.
  - rewrite filter_cleared_none; [reflexivity|].
    intros u Hu Hp. apply in_app_iff in Hu. destruct Hu as [Hu|[<-|[]]].
    + apply O'; trivial.
      destruct v; cbn [cleared] in Hu; [apply in_without in Hu; tauto | exact Hu].
    + congruence.
Qed.

Lemma trip_owned (s : state) (u : timer) :
  wf s -> In u (timers s) -> is_kind Trip u = true -> tripInterval s = Some (id u).
Proof.
  intros [_ _ _ O _ _ _ _ _ _] Hu Hk. specialize (O u Hu). unfold owned in O.
  unfold is_kind in Hk. destruct (run u); try discriminate Hk. exact O.
Qed.

Lemma road_owned (s : state) (u : timer) :
  wf s -> In u (timers s) -> is_kind Road u = true -> roadRotationInterval s = Some (id u).
Proof.
  intros [_ _ _ O _ _ _ _ _ _] Hu Hk. specialize (O u Hu). unfold owned in O.
  unfold is_kind in Hk. destruct (run u); try discriminate Hk. exact O.
Qed.

(** The render of a navigation scene returns. *)
Lemma render_returns (e : App.env) (routeStart routeEnd : Point.t)
    (labels : option (list Renderer.label)) (n : App.state) :
  exists n', App.renderNavRoute 8 e routeStart routeEnd labels n = Some n'.
Proof.
  unfold App.renderNavRoute. cbv zeta.
  match goal with
  | |- context [App.drawNavScene 8 ?d ?w ?h ?a ?b ?l ?c] =>
      destruct (NavProps.drawNavScene_returns d a b l c) as [c' ->]
  end.
  eexists. reflexivity.
Qed.

(** ** The end of a trip *)

Lemma not_armed_without (i : nat) (ts : list timer) :
  existsb (fun t => Nat.eqb (id t) i) (without i ts) = false.
Proof.
  unfold without. induction ts as [|t ts IH]; [reflexivity|]. cbn [filter].
  destruct (Nat.eqb (id t) i) eqn:E; cbn [negb]; [exact IH|].
  cbn [existsb]. rewrite E. exact IH.
Qed.

(** The tick of the progress that reaches 100. *)
Lemma fire_arriving (x : state) (t : timer) (step eta km progress : float) :
  wf x -> In t (timers x) -> run t = TripTick step eta km progress ->
  (100 <=? progress + step)%float = true ->
  timers (fire t x) = without (id t) (timers x)
  /\ textContent (page (fire t x)) "#trip-status-text" = Text "Arriving at destination"
  /\ style (page (fire t x)) "#trip-progress" "width"
     = Percent (if (100 <? progress + step)%float then 100%float
                else (progress + step)%float).
Proof.
  intros W Ht Hr Hc.
  assert (Ho : tripInterval x = Some (id t)).
  { destruct W as [_ _ _ O _ _ _ _ _ _]. specialize (O t Ht). unfold owned in O.
    rewrite Hr in O. exact O. }
  assert (He : every t <> None).
  { destruct W as [_ _ _ _ R _ _ _ _ _]. apply (R t Ht). rewrite Hr. discriminate. }
  assert (Hc' : (100 <=? (if (100 <? progress + step) then 100 else progress + step))%float
                = true)
    by (destruct (100 <? progress + step)%float; [reflexivity | exact Hc]).
  unfold fire. cbv zeta. destruct (every t) as [ms|]; [clear He | congruence].
  rewrite Hr. cbn [call]. unfold tripTick. cbv zeta. rewrite Hc'.
  destruct x as [pg gt rt ri rr ti nv w nw nid ts]. cbn [tripInterval] in Ho. subst ti.
  cbn [timers] in Ht |- *.
  match goal with
  | |- context [is_armed ?i ?X] =>
      assert (A : is_armed i X = false) by (apply (not_armed_without (id t) ts))
  end.
  rewrite A. repeat split.
Qed.

Section Restart.
Variable cos : float -> float.

(** The click on Accept, at any time and whatever happened before, leaves one
    trip progress and one rotation of the road names armed: the ones it has
    just started, from progress 0 and from the first entry.  What ran before
    is cleared, not stacked. *)
Theorem accept_restarts_the_trip (p : Dom.page) (el : App.element)
    (evs : list event) (ms : Z) (e : App.env) (geolocation : bool) :
  let s0 := steps cos 8 evs (loaded p el) in
  let s := step cos 8 s0 (Input ms (Accept e geolocation)) in
  armed Trip s
  = [mkTimer (nextId s0) (now s + 600) (Some 600%Z) (TripTick 0.12 35 12.4 0)]
  /\ armed Road s
     = [mkTimer (S (nextId s0)) (now s + 8000) (Some 8000%Z)
          (RoadTick roadNames turns 0)].
Proof.
  intros s0 s. subst s.
  assert (W0 : wf s0) by (apply (steps_keep cos 8), wf_loaded).
  cbn [step handle]. set (xa := set_now _ s0).
  assert (Sa : same_core s0 xa) by (subst xa; destruct s0; repeat split).
  pose proof (inv_frame false s0 s0 xa Sa (inv_refl false s0 W0)) as Ha.
  unfold onAccept, renderNavRoute. cbv zeta.
  match goal with
  | |- context [App.renderNavRoute 8 e ?a ?b ?l ?n] =>
      destruct (render_returns e a b l n) as [n' ->]
  end.
  set (x1 := set_nav n' _).
  assert (H1 : inv false s0 x1) by (subst x1; auto 30 with ui).
  assert (N1 : nextId x1 = nextId s0) by (subst x1 xa; destruct s0; reflexivity).
  pose proof (inv_wf _ _ _ H1) as W1.
  set (a := mkTimer (nextId x1) (now x1 + 600) (Some 600%Z) (TripTick 0.12 35 12.4 0)).
  set (b := mkTimer (S (nextId x1)) (now x1 + 8000) (Some 8000%Z)
              (RoadTick roadNames turns 0)).
  assert (T : timers (initGPSTracking cos geolocation
                        (startRoadNameRotation (startTripProgress x1)))
              = cleared (roadRotationInterval x1)
                  (cleared (tripInterval x1) (timers x1) ++ [a]) ++ [b]
              /\ now (initGPSTracking cos geolocation
                        (startRoadNameRotation (startTripProgress x1))) = now x1).
  { unfold initGPSTracking. subst a b.
    destruct (App.initGPSTracking cos geolocation),
      x1 as [pg gt rt ri [rr|] [ti|] nv w nw nid ts]; split; reflexivity. }
  destruct T as [T Tn]. unfold armed. rewrite T, Tn, <- N1. fold a b.
  apply (replaced Trip Road _ _ _ (nextId x1)); trivial; try discriminate.
  - intros u. apply trip_owned, W1.
  - intros u. apply road_owned, W1.
  - destruct W1 as [_ _ _ _ _ _ _ _ Rd _]. exact Rd.
Qed.

(** The click on OK in the popup likewise: one rotation, through the roads
    to Jogeshwari, and one trip progress, of the new trip, are armed, both
    from the start. *)
Theorem popup_ok_restarts_the_trip (p : Dom.page) (el : App.element)
    (evs : list event) (ms : Z) (e : App.env) :
  let s0 := steps cos 8 evs (loaded p el) in
  let s := step cos 8 s0 (Input ms (PopupOk e)) in
  armed Road s
  = [mkTimer (nextId s0) (now s + 8000) (Some 8000%Z)
       (RoadTick jogeshwariRoadNames jogeshwariTurns 0)]
  /\ armed Trip s
     = [mkTimer (S (nextId s0)) (now s + 600) (Some 600%Z) (TripTick 0.1 28 15.6 0)].
Proof.
  intros s0 s. subst s.
  assert (W0 : wf s0) by (apply (steps_keep cos 8), wf_loaded).
  cbn [step handle]. set (xa := set_now _ s0).
  assert (Sa : same_core s0 xa) by (subst xa; destruct s0; repeat split).
  pose proof (inv_frame false s0 s0 xa Sa (inv_refl false s0 W0)) as Ha.
  unfold onPopupOk, renderNavRoute. cbv zeta.
  match goal with
  | |- context [App.renderNavRoute 8 e ?a ?b ?l ?n] =>
      destruct (render_returns e a b l n) as [n' ->]
  end.
  set (x1 := set_nav n' _).
  assert (H1 : inv false s0 x1) by (subst x1; auto 30 with ui).
  assert (N1 : nextId x1 = nextId s0) by (subst x1 xa; destruct s0; reflexivity).
  pose proof (inv_wf _ _ _ H1) as W1.
  set (a := mkTimer (nextId x1) (now x1 + 8000) (Some 8000%Z)
              (RoadTick jogeshwariRoadNames jogeshwariTurns 0)).
  set (b := mkTimer (S (nextId x1)) (now x1 + 600) (Some 600%Z) (TripTick 0.1 28 15.6 0)).
  match goal with |- armed Road ?y = _ /\ _ => set (y1 := y) end.
  assert (T : timers y1
              = cleared (tripInterval x1)
                  (cleared (roadRotationInterval x1) (timers x1) ++ [a]) ++ [b]
              /\ now y1 = now x1).
  { subst y1 a b. unfold startJogeshwariRoadRotation, showRoad, write_text_if_found.
    cbv zeta.
    repeat match goal with |- context [if ?c then _ else _] => destruct c end;
      destruct x1 as [pg gt rt ri [rr|] [ti|] nv w nw nid ts]; split; reflexivity. }
  destruct T as [T Tn]. unfold armed. rewrite T, Tn, <- N1. fold a b.
  apply (replaced Road Trip _ _ _ (nextId x1)); trivial; try discriminate.
  - intros u. apply road_owned, W1.
  - intros u. apply trip_owned, W1.
  - destruct W1 as [_ _ _ _ _ _ _ T1 _ _]. exact T1.
Qed.

End Restart.

Section Arrival.
Variable cos : float -> float.
Variable fuel : nat.

(** The progress interval stops itself: in any state the page can reach, when
    the progress timer fires and its progress reaches 100, no trip progress
    is armed afterwards, the bar is at most at 100% and the status reads
    [Arriving at destination]. *)
Theorem trip_progress_stops_at_100 (p : Dom.page) (el : App.element)
    (evs : list event) (t : timer) (step eta km progress : float) :
  let s0 := steps cos fuel evs (loaded p el) in
  next_timer s0 = Some t ->
  run t = TripTick step eta km progress ->
  (100 <=? progress + step)%float = true ->
  let s := Ui.step cos fuel s0 Tick in
  armed Trip s = []
  /\ textContent (page s) "#trip-status-text" = Text "Arriving at destination"
  /\ style (page s) "#trip-progress" "width"
     = Percent (if (100 <? progress + step)%float then 100%float
                else (progress + step)%float).
Proof.
  intros s0 Hn Hr Hc s. subst s. cbn [Ui.step]. rewrite Hn.
  assert (W0 : wf s0) by (apply (steps_keep cos fuel), wf_loaded).
  pose proof (next_timer_in _ _ Hn) as Ht.
  destruct (fire_arriving s0 t step eta km progress W0 Ht Hr Hc) as (T & Tx & St).
  split; [|split; assumption].
  unfold armed. rewrite T.
  assert (Ho : tripInterval s0 = Some (id t)).
  { destruct W0 as [_ _ _ O _ _ _ _ _ _]. specialize (O t Ht). unfold owned in O.
    rewrite Hr in O. exact O. }
  change (without (id t) (timers s0)) with (cleared (Some (id t)) (timers s0)).
  rewrite <- Ho. apply filter_cleared_none. intros u. apply trip_owned, W0.
Qed.

End Arrival.

(** A run to the end of the first trip: Accept at once on a page with every
    element, then 895 timers, 833 of the progress and 62 of the rotation. *)
Definition bare_page : Dom.page :=
  mkPage (fun _ => []) (fun _ => Text "") (fun _ => fun _ => Keyword "") (fun _ => true) 0.

Definition first_trip : list event :=
  Input 0 (Accept (App.mkEnv 3 390 844) false) :: repeat Tick 895.

Definition before_arrival : state :=
  steps (fun _ => 1%float) 8 first_trip
    (loaded bare_page (App.mkElement (Canvas.fresh 300 150) None None None None)).

Definition last_progress_timer : timer :=
  Eval vm_compute in
    match next_timer before_arrival with
    | Some t => t
    | None => mkTimer 0 0 None MicroGlitch
    end.

Definition progress_of (t : timer) : float :=
  match run t with TripTick _ _ _ progress => progress | _ => 0%float end.

Lemma trip_progress_stops_at_100_witness :
  let s := Ui.step (fun _ => 1%float) 8 before_arrival Tick in
  armed Trip s = []
  /\ textContent (page s) "#trip-status-text" = Text "Arriving at destination"
  /\ style (page s) "#trip-progress" "width"
     = Percent (if (100 <? progress_of last_progress_timer + 0.12)%float then 100%float
                else (progress_of last_progress_timer + 0.12)%float).
Proof.
  apply (trip_progress_stops_at_100 (fun _ => 1%float) 8 bare_page
           (App.mkElement (Canvas.fresh 300 150) None None None None) first_trip
           last_progress_timer 0.12%float 35%float 12.4%float
           (progress_of last_progress_timer)).
  - vm_compute. reflexivity.
  - vm_compute. reflexivity.
  - vm_compute. reflexivity.
Defined.

End UiInvariant.

(** * The screens *)

Module UiProps.
Import Dom Ui.

(** Evaluation of the script on a state given field by field. *)
Ltac run_script :=
  cbv beta iota zeta delta [step steps fold_left handle fire call next_timer earliest is_armed
       requestTick startRequestTimer roadTick showRoad startRoadNameRotation
       startJogeshwariRoadRotation tripTick startTripProgress
       triggerMicroGlitch microGlitchEnd showPopup triggerFullGlitch fullGlitchHeavy
       fullGlitchFlash fullGlitchEnd glitchTick
       onAccept onAvatar onPopupOk onFix initGPSTracking renderNavRoute
       setInterval setTimeout arm clearInterval clearInterval_if
       classes_add classes_remove write_text write_style write_text_if_found
       set_page set_glitchTriggered set_requestTimer set_reqTimerInterval
       set_roadRotationInterval set_tripInterval set_nav set_watches set_now
       set_nextId set_timers
       page glitchTriggered requestTimer reqTimerInterval roadRotationInterval
       tripInterval nav watches now nextId timers
       id due every run
       set_classList set_textContent Dom.set_style set_flashes
       classList textContent style found flashes
       filter existsb app fst snd negb].

(** ** The request timer *)

Lemma countdown_step (k : Z) :
  (1 <= k <= 15)%Z ->
  Num.of_Z k - 1 = Num.of_Z (k - 1)
  /\ (Num.of_Z (k - 1) <=? 0) = (k =? 1)%Z.
Proof.
  intros H.
  assert (C : (k = 1 \/ k = 2 \/ k = 3 \/ k = 4 \/ k = 5 \/ k = 6 \/ k = 7 \/ k = 8
               \/ k = 9 \/ k = 10 \/ k = 11 \/ k = 12 \/ k = 13 \/ k = 14 \/ k = 15)%Z)
    by lia.
  repeat (destruct C as [->|C]; [split; reflexivity|]). subst k. split; reflexivity.
Qed.

(** The request timer after [15 * q + r] ticks, [r < 15]: the display counts
    [15 - r], and the one timer armed is the interval number [q + 1], a
    closure that names itself. *)
Definition counting (q r : nat) (s : state) : Prop :=
  requestTimer s = Num.of_Z (15 - Z.of_nat r)
  /\ timers s
     = [mkTimer (1 + q) (1000 * (Z.of_nat (15 * q + r) + 1)) (Some 1000%Z)
          (RequestTick (1 + q))]
  /\ nextId s = (2 + q)%nat
  /\ now s = (1000 * Z.of_nat (15 * q + r))%Z
  /\ reqTimerInterval s = 1%nat
  /\ tripInterval s = None /\ roadRotationInterval s = None.

(** What the page shows of the request timer. *)
Definition shows (s : state) (seconds : float) (dashoffset : float) : Prop :=
  textContent (page s) ".timer-text" = Number seconds
  /\ style (page s) ".timer-progress" "strokeDashoffset" = Amount dashoffset.

Section Browser.
Variable cos : float -> float.
Variable fuel : nat.

Lemma counting_loaded (p : Dom.page) (el : App.element) : counting 0 0 (loaded p el).
Proof. repeat split. Qed.

(** A tick of the request timer when it is the only timer armed and the
    count is above 1. *)
Lemma request_tick_counts (s : state) (i : nat) (d : Z) (k : Z) :
  timers s = [mkTimer i d (Some 1000%Z) (RequestTick i)] ->
  requestTimer s = Num.of_Z k -> (2 <= k <= 15)%Z -> (now s <= d)%Z ->
  let s' := step cos fuel s Tick in
  requestTimer s' = Num.of_Z (k - 1)
  /\ timers s' = [mkTimer i (d + 1000) (Some 1000%Z) (RequestTick i)]
  /\ nextId s' = nextId s /\ now s' = d /\ reqTimerInterval s' = reqTimerInterval s
  /\ tripInterval s' = tripInterval s
  /\ roadRotationInterval s' = roadRotationInterval s
  /\ shows s' (Num.of_Z (k - 1)) (circumference * (1 - Num.of_Z (k - 1) / 15)).
Proof.
  intros Hts Ht Hk Hnow.
  destruct s as [pg gt rt ri rr ti nv w nw nid ts].
  cbv [timers requestTimer now] in Hts, Ht, Hnow. subst rt ts.
  destruct (countdown_step k ltac:(lia)) as [E1 E2].
  replace (k =? 1)%Z with false in E2 by (symmetry; apply Z.eqb_neq; lia).
  intros s'. subst s'. unfold shows.
  run_script. rewrite E1, E2. run_script. rewrite Nat.eqb_refl. run_script.
  rewrite Z.max_r by lia. repeat split.
Qed.

(** The tick that brings the count to 0: the interval clears itself, the
    display is reset and a new interval is armed. *)
Lemma request_tick_restarts (s : state) (i : nat) (d : Z) :
  timers s = [mkTimer i d (Some 1000%Z) (RequestTick i)] ->
  requestTimer s = Num.of_Z 1 -> (i < nextId s)%nat -> (now s <= d)%Z ->
  let s' := step cos fuel s Tick in
  requestTimer s' = Num.of_Z 15
  /\ timers s' = [mkTimer (nextId s) (d + 1000) (Some 1000%Z) (RequestTick (nextId s))]
  /\ nextId s' = S (nextId s) /\ now s' = d /\ reqTimerInterval s' = reqTimerInterval s
  /\ tripInterval s' = tripInterval s
  /\ roadRotationInterval s' = roadRotationInterval s
  /\ shows s' (Num.of_Z 15) 0.
Proof.
  intros Hts Ht Hi Hnow.
  destruct s as [pg gt rt ri rr ti nv w nw nid ts].
  cbv [timers requestTimer now nextId] in Hts, Ht, Hnow, Hi. subst rt ts.
  intros s'. subst s'. unfold shows.
  run_script. change (Num.of_Z 1 - 1 <=? 0) with true. run_script.
  rewrite Nat.eqb_refl. run_script.
  replace (Nat.eqb nid i) with false by (symmetry; apply Nat.eqb_neq; lia).
  run_script. rewrite Z.max_r by lia. repeat split.
Qed.

Lemma counting_next (q r : nat) (s : state) :
  (r < 14)%nat -> counting q r s ->
  counting q (S r) (step cos fuel s Tick)
  /\ shows (step cos fuel s Tick) (Num.of_Z (15 - Z.of_nat (S r)))
       (circumference * (1 - Num.of_Z (15 - Z.of_nat (S r)) / 15)).
Proof.
  intros Hr (Ht & Hts & Hid & Hnow & Hreq & Htrip & Hroad).
  destruct (request_tick_counts s _ _ (15 - Z.of_nat r) Hts Ht ltac:(lia) ltac:(lia))
    as (T & TS & I & N & R & TI & RI & Sh).
  replace (15 - Z.of_nat r - 1)%Z with (15 - Z.of_nat (S r))%Z in T, Sh by lia.
  split; [|exact Sh]. unfold counting. rewrite T, TS, I, N, R, TI, RI, Hid, Hreq.
  repeat split; trivial; f_equal; try lia. f_equal. lia.
Qed.

Lemma counting_wrap (q : nat) (s : state) :
  counting q 14 s ->
  counting (S q) 0 (step cos fuel s Tick)
  /\ shows (step cos fuel s Tick) (Num.of_Z 15) 0.
Proof.
  intros (Ht & Hts & Hid & Hnow & Hreq & Htrip & Hroad).
  destruct (request_tick_restarts s _ _ Hts Ht ltac:(lia) ltac:(lia))
    as (T & TS & I & N & R & TI & RI & Sh).
  split; [|exact Sh]. unfold counting. rewrite T, TS, I, N, R, TI, RI, Hid, Hreq.
  repeat split; trivial; f_equal; try lia. f_equal. lia.
Qed.

(** After [n] ticks from the loaded page the request timer is in its cycle
    number [n / 15], at step [n mod 15]. *)
Lemma counting_ticks (p : Dom.page) (el : App.element) (n : nat) :
  counting (n / 15) (n mod 15) (steps cos fuel (repeat Tick n) (loaded p el))
  /\ ((0 < n)%nat ->
      shows (steps cos fuel (repeat Tick n) (loaded p el))
        (Num.of_Z (15 - Z.of_nat (n mod 15)))
        (if Nat.eqb (n mod 15) 0 then 0
         else circumference * (1 - Num.of_Z (15 - Z.of_nat (n mod 15)) / 15))).
Proof.
  induction n as [|n [IH _]].
  - split; [apply counting_loaded | lia].
  - replace (repeat Tick (S n)) with (repeat Tick n ++ [Tick])
      by (rewrite <- repeat_cons; reflexivity).
    unfold steps in *. rewrite fold_left_app. cbn [fold_left].
    pose proof (Nat.div_mod_eq n 15) as Dn.
    pose proof (Nat.mod_upper_bound n 15 ltac:(lia)) as Bn.
    destruct (Nat.eq_dec (n mod 15) 14) as [E|E].
    + assert (Q : (S n / 15 = S (n / 15))%nat)
        by (symmetry; apply (Nat.div_unique (S n) 15 _ 0); lia).
      assert (R : (S n mod 15 = 0)%nat)
        by (symmetry; apply (Nat.mod_unique (S n) 15 (S (n / 15)) 0); lia).
      rewrite Q, R. rewrite E in IH.
      destruct (counting_wrap _ _ IH) as [C Sh]. split; [exact C | intros _; exact Sh].
    + assert (Q : (S n / 15 = n / 15)%nat)
        by (symmetry; apply (Nat.div_unique (S n) 15 _ (S (n mod 15))); lia).
      assert (R : (S n mod 15 = S (n mod 15))%nat)
        by (symmetry; apply (Nat.mod_unique (S n) 15 (n / 15) (S (n mod 15))); lia).
      rewrite Q, R.
      assert (L : (n mod 15 < 14)%nat) by lia.
      destruct (counting_next _ _ _ L IH) as [C Sh].
      split; [exact C | intros _; exact Sh].
Qed.

(** From the loaded page the request timer counts 14, 13, ..., 1 and then
    shows 15 again, for ever: after [n] ticks, one a second, the display
    shows [15 - n mod 15] and the ring is back at offset 0 on every
    fifteenth tick; one interval is armed at any time, and it is a new one
    after every cycle. *)
Theorem request_timer_cycles (p : Dom.page) (el : App.element) (n : nat) :
  let s := steps cos fuel (repeat Tick (S n)) (loaded p el) in
  textContent (page s) ".timer-text" = Number (Num.of_Z (15 - Z.of_nat (S n mod 15)))
  /\ style (page s) ".timer-progress" "strokeDashoffset"
     = Amount (if Nat.eqb (S n mod 15) 0 then 0
               else circumference * (1 - Num.of_Z (15 - Z.of_nat (S n mod 15)) / 15))
  /\ map id (timers s) = [(1 + S n / 15)%nat]
  /\ now s = (1000 * Z.of_nat (S n))%Z.
Proof.
  intros s. subst s.
  destruct (counting_ticks p el (S n)) as [(Ht & Hts & Hid & Hnow & Hreq & _) Sh].
  destruct (Sh ltac:(lia)) as [S1 S2].
  split; [exact S1|]. split; [exact S2|]. rewrite Hts, Hnow.
  pose proof (Nat.div_mod_eq (S n) 15) as D.
  split; [reflexivity|]. f_equal. lia.
Qed.

(** The request countdowns that are armed. *)
Definition is_request (t : timer) : bool :=
  match run t with RequestTick _ => true | _ => false end.

Definition requests (s : state) : list timer := filter is_request (timers s).

(** The click on Accept clears the interval that the page armed when it
    loaded.  Within the first cycle of the countdown that is the interval
    that runs, and the countdown stops; from the 15th tick on the countdown
    runs on an interval armed since, which the click does not clear: it
    stays armed behind the navigation screen. *)
Theorem accept_stops_only_the_first_countdown (p : Dom.page) (el : App.element)
    (n : nat) (ms : Z) (e : App.env) (geolocation : bool) :
  let s := steps cos fuel (repeat Tick n ++ [Input ms (Accept e geolocation)])
             (loaded p el) in
  map id (requests s) = if (n <? 15)%nat then [] else [(1 + n / 15)%nat].
Proof.
  intros s. subst s. unfold steps. rewrite fold_left_app.
  destruct (counting_ticks p el n) as [(Ht & Hts & Hid & Hnow & Hreq & Htrip & Hroad) _].
  unfold steps in *.
  destruct (fold_left (step cos fuel) (repeat Tick n) (loaded p el))
    as [pg gt rt ri rr ti nv w nw nid ts].
  cbv [timers requestTimer now nextId reqTimerInterval tripInterval
       roadRotationInterval] in Ht, Hts, Hid, Hnow, Hreq, Htrip, Hroad.
  subst ts ri ti rr nid.
  assert (Q : Nat.eqb (1 + n / 15) 1 = (n <? 15)%nat).
  { destruct (Nat.ltb_spec n 15) as [L|L].
    - rewrite (Nat.div_small n 15 L). reflexivity.
    - apply Nat.eqb_neq. pose proof (Nat.div_str_pos n 15 ltac:(lia)). lia. }
  unfold requests. run_script.
  rewrite Q. destruct (n <? 15)%nat; run_script.
  - destruct (App.renderNavRoute fuel e _ _ _ nv) as [nv'|]; run_script;
      [destruct (App.initGPSTracking cos geolocation); run_script|]; reflexivity.
  - destruct (App.renderNavRoute fuel e _ _ _ nv) as [nv'|]; run_script;
      [destruct (App.initGPSTracking cos geolocation); run_script|]; reflexivity.
Qed.

Lemma requests_count (s : state) :
  length (requests s) = UiInvariant.count UiInvariant.Request (timers s).
Proof.
  unfold requests, UiInvariant.count. f_equal. apply filter_ext. intros t.
  unfold is_request, UiInvariant.is_kind. destruct (run t); reflexivity.
Qed.

(** Once the first cycle of the request countdown is over, nothing in the
    script stops the countdown any more: from the 15th tick on, whatever the
    user does and whenever the timers fire, one request countdown is
    armed. *)
Theorem request_countdown_is_never_stopped (p : Dom.page) (el : App.element)
    (n : nat) (evs : list event) :
  let s := steps cos fuel (repeat Tick (15 + n) ++ evs) (loaded p el) in
  length (requests s) = 1%nat.
Proof.
  intros s. subst s. unfold steps. rewrite fold_left_app.
  fold (steps cos fuel (repeat Tick (15 + n)) (loaded p el)).
  set (s1 := steps cos fuel (repeat Tick (15 + n)) (loaded p el)).
  fold (steps cos fuel evs s1).
  destruct (counting_ticks p el (15 + n)) as [(_ & Hts & Hid & _ & Hreq & _) _].
  fold s1 in Hts, Hid, Hreq.
  assert (Q : (1 <= (15 + n) / 15)%nat) by (apply Nat.div_le_lower_bound; lia).
  assert (W1 : UiInvariant.wf s1)
    by (apply (UiInvariant.steps_keep cos fuel), UiInvariant.wf_loaded).
  assert (A1 : UiInvariant.alive s1).
  { unfold UiInvariant.alive. rewrite Hts, Hid, Hreq.
    generalize dependent ((15 + n) / 15)%nat. intros q _ _ Q.
    split; [|split].
    - unfold UiInvariant.count. cbn. lia.
    - intros u [<-|[]]. cbn [id]. lia.
    - lia. }
  destruct (UiInvariant.steps_keep cos fuel evs s1 W1) as [W A].
  destruct (A A1) as (C & _). destruct W as [_ _ _ _ _ R _ _ _ _].
  rewrite requests_count. lia.
Qed.

(** ** The glitch *)

Lemma onAvatar_glitchTriggered (x : state) : glitchTriggered (onAvatar x) = true.
Proof.
  unfold onAvatar. destruct (glitchTriggered x) eqn:G; [exact G|].
  destruct x; reflexivity.
Qed.

(** The avatar starts the glitch once: after a first click on it, whatever
    has happened since, a click on the avatar changes nothing. *)
Theorem avatar_starts_the_glitch_once (p : Dom.page) (el : App.element)
    (before after : list event) (ms : Z) :
  let s := steps cos fuel (before ++ Input ms Avatar :: after) (loaded p el) in
  handle cos fuel Avatar s = s.
Proof.
  intros s. subst s. unfold steps. rewrite fold_left_app. cbn [fold_left].
  fold (steps cos fuel before (loaded p el)).
  set (x := steps cos fuel before (loaded p el)).
  fold (steps cos fuel after (step cos fuel x (Input ms Avatar))).
  assert (G : glitchTriggered (steps cos fuel after (step cos fuel x (Input ms Avatar)))
              = true).
  { apply UiInvariant.steps_glitchTriggered.
    - apply UiInvariant.step_keeps. subst x.
      apply (UiInvariant.steps_keep cos fuel), UiInvariant.wf_loaded.
    - cbn [step handle]. apply onAvatar_glitchTriggered. }
  cbn [handle]. unfold onAvatar. rewrite G. reflexivity.
Qed.

End Browser.

End UiProps.
